(** * VirtualInterview: the question-generation and scoring pipeline

    A shallow embedding of the two server-side modules of the repository:
    the completion-API client ([utils/groq]: rate limiter, request, response
    parser, question validator, prompt builder, scorer) and the two route
    handlers that call it (the analysis route and the question route).
    The interview page is embedded as the client of the two routes: the
    requests it builds and what it makes of the answers, the type it
    takes a question to have, the language of the code editor.  The
    second scorer of the repository, which calls the completion API by
    itself, is the module [Direct].

    Conventions of the embedding.
    - A JavaScript string is the list of its UTF-16 code units ([str]).
    - A value produced by [JSON.parse] is a [jsval]; a number is an IEEE
      754 double ([spec_float] of the Standard Library at precision 53),
      with the rounding of literals and of division.
    - A [throw] is the left injection of [result]; [try]/[catch] is a match.
    - [console.log] and [console.error] have no effect on any result and
      are left out.
    - The module-level [lastRequestTime], the wall clock and the requests
      sent are fields of an explicit [World]; what the host decides (the
      credential, how far timers deviate from their delay on the wall
      clock, the reply of the completion API) is a [Host].
    - The body of a request to a route is a record of the fields the
      interview page sends, each absent or of the type the page gives it;
      the answer of a route reaches the page through its JSON text
      ([wire]).
    - The runtime functions the sources call ([JSON.parse], regular
      expressions, [decodeURIComponent], string methods) are defined here
      after the language specification, on the fragment the sources use. *)

From Stdlib Require Import String Ascii DecimalString.
From Stdlib Require Import List Bool Arith NArith ZArith Lia SpecFloat.
Import ListNotations.

Local Open Scope N_scope.

(* ------------------------------------------------------------------ *)
(** ** Strings as sequences of UTF-16 code units *)

Module JsString.

Definition str : Type := list N.

(** A Rocq literal read as a JavaScript string (every character of the
    sources' literals is ASCII). *)
Definition lit (s : string) : str := map N_of_ascii (list_ascii_of_string s).

(** As [lit], with [~] standing for the double quote, which the literals of
    the templates contain and the sources never mix with [~]. *)
Definition tq (s : string) : str :=
  map (fun c => if c =? 126 then 34 else c) (lit s).

Fixpoint str_eqb (a b : str) : bool :=
  match a, b with
  | [], [] => true
  | x :: a', y :: b' => (x =? y) && str_eqb a' b'
  | _, _ => false
  end.

(** [WhiteSpace] and [LineTerminator] of ECMAScript: what [\s] matches and
    what [String.prototype.trim] strips. *)
Definition is_space (c : N) : bool :=
  ((9 <=? c) && (c <=? 13)) || (c =? 32) || (c =? 160) || (c =? 5760)
  || ((8192 <=? c) && (c <=? 8202)) || (c =? 8232) || (c =? 8233)
  || (c =? 8239) || (c =? 8287) || (c =? 12288) || (c =? 65279).

Definition is_digit (c : N) : bool := (48 <=? c) && (c <=? 57).
Definition is_upper (c : N) : bool := (65 <=? c) && (c <=? 90).
Definition is_lower (c : N) : bool := (97 <=? c) && (c <=? 122).

(** [\w] without the unicode flag: [[A-Za-z0-9_]]. *)
Definition is_word (c : N) : bool :=
  is_upper c || is_lower c || is_digit c || (c =? 95).

(** [toLowerCase] and [toUpperCase] on the ASCII letters; the case tables
    of the other code units are not modelled (they are kept as they are). *)
Definition toLowerCase (s : str) : str :=
  map (fun c => if is_upper c then c + 32 else c) s.
Definition toUpperCase (s : str) : str :=
  map (fun c => if is_lower c then c - 32 else c) s.

Fixpoint trimStart (s : str) : str :=
  match s with
  | c :: t => if is_space c then trimStart t else s
  | [] => []
  end.

Definition trimEnd (s : str) : str := rev (trimStart (rev s)).

(** [String.prototype.trim]. *)
Definition trim (s : str) : str := trimEnd (trimStart s).

Fixpoint startsWith (p s : str) : bool :=
  match p, s with
  | [], _ => true
  | x :: p', y :: s' => (x =? y) && startsWith p' s'
  | _ :: _, [] => false
  end.

(** [String.prototype.includes]. *)
Fixpoint includes (s sub : str) : bool :=
  startsWith sub s ||
  match s with
  | [] => false
  | _ :: t => includes t sub
  end.

(** [Array.prototype.join] on an array of strings. *)
Fixpoint join (sep : str) (l : list str) : str :=
  match l with
  | [] => []
  | [x] => x
  | x :: t => x ++ sep ++ join sep t
  end.

(** [Array.prototype.includes] on an array of strings. *)
Definition mem (x : str) (l : list str) : bool := existsb (str_eqb x) l.

(** The decimal rendering of an integer, as a template literal gives it. *)
Definition of_Z (z : Z) : str := lit (NilZero.string_of_int (Z.to_int z)).

End JsString.
Import JsString.

(* ------------------------------------------------------------------ *)
(** ** Numbers *)

(** A JavaScript number is an IEEE 754 double: a [spec_float] of the
    Standard Library, read at precision 53 with exponent bound 1024.  The
    two zeros, the two infinities and [NaN] are values of the type. *)
Definition number : Type := spec_float.

Module Number.

Definition prec : Z := 53.
Definition emax : Z := 1024.

(** The number an integer literal of the sources denotes. *)
Definition of_int (z : Z) : number := binary_normalize prec emax z 0 false.

(** The number a decimal literal denotes: the double nearest to
    [m * 10^e], ties to even, with the sign of the literal; a literal
    beyond the range of the doubles denotes an infinity, one below it a
    zero. *)
Definition of_decimal (neg : bool) (m e : Z) : number :=
  match m with
  | Zpos p =>
      match e with
      | Zneg k =>
          SFdiv prec emax (S754_finite neg p 0)
            (S754_finite false (10 ^ k)%positive 0)
      | _ => binary_round prec emax neg (Z.to_pos (m * 10 ^ e)) 0
      end
  | _ => S754_zero neg
  end.

Definition is_nan (x : number) : bool :=
  match x with S754_nan => true | _ => false end.

(** [a < b] and [a <= b]: false when an operand is [NaN]. *)
Definition lt (a b : number) : bool := SFltb a b.
Definition le (a b : number) : bool := SFleb a b.

(** [a / b]. *)
Definition div (a b : number) : number := SFdiv prec emax a b.

(** [Math.min(a, b)] and [Math.max(a, b)]: [NaN] when an operand is;
    of the two zeros, [-0] is the smaller. *)
Definition min (a b : number) : number :=
  match SFcompare a b with
  | None => S754_nan
  | Some Lt => a
  | Some Gt => b
  | Some Eq => match a with S754_zero true => a | _ => b end
  end.

Definition max (a b : number) : number :=
  match SFcompare a b with
  | None => S754_nan
  | Some Lt => b
  | Some Gt => a
  | Some Eq => match a with S754_zero false => a | _ => b end
  end.

End Number.

(* ------------------------------------------------------------------ *)
(** ** Values *)

Module JsValue.

#[local] Set Warnings "-register-all".

(** The values [JSON.parse] builds, and [undefined] for what a property
    read gives when the property is absent.  An object keeps its own
    properties in insertion order. *)
Inductive jsval : Type :=
| JUndefined
| JNull
| JBool (b : bool)
| JNum (x : number)
| JStr (s : str)
| JArr (l : list jsval)
| JObj (kvs : list (str * jsval)).

(** The errors of the pipeline: [new Error(msg)] of the sources, and the
    errors the runtime raises itself.  The wording of a runtime error is
    the engine's, not the repository's: [message] gives it a fixed
    representative text. *)
Inductive js_error : Type :=
| Error (msg : str)
| SyntaxError
| TypeError
| URIError.

Definition message (e : js_error) : str :=
  match e with
  | Error m => m
  | SyntaxError => lit "Unexpected token in JSON"
  | TypeError => lit "Cannot read properties of undefined"
  | URIError => lit "URI malformed"
  end.

Definition result (A : Type) : Type := js_error + A.

Definition ok {A} (a : A) : result A := inr a.
Definition throw {A} (e : js_error) : result A := inl e.

Definition bind {A B} (m : result A) (f : A -> result B) : result B :=
  match m with
  | inl e => inl e
  | inr a => f a
  end.

Definition is_ok {A} (m : result A) : bool :=
  match m with inr _ => true | inl _ => false end.

(** ToBoolean. *)
Definition truthy (v : jsval) : bool :=
  match v with
  | JUndefined | JNull => false
  | JBool b => b
  | JNum x =>
      match x with S754_zero _ | S754_nan => false | _ => true end
  | JStr s => match s with [] => false | _ => true end
  | JArr _ | JObj _ => true
  end.

Inductive js_type : Type :=
| TUndefined | TObject | TBoolean | TNumber | TString.

(** The [typeof] operator. *)
Definition typeof (v : jsval) : js_type :=
  match v with
  | JUndefined => TUndefined
  | JNull | JArr _ | JObj _ => TObject
  | JBool _ => TBoolean
  | JNum _ => TNumber
  | JStr _ => TString
  end.

Definition isArray (v : jsval) : bool :=
  match v with JArr _ => true | _ => false end.

Fixpoint lookup (k : str) (kvs : list (str * jsval)) : option jsval :=
  match kvs with
  | [] => None
  | (k', v) :: t => if str_eqb k k' then Some v else lookup k t
  end.

(** Writing a property: an existing key keeps its place, a new key goes
    last. *)
Fixpoint assign (k : str) (v : jsval) (kvs : list (str * jsval))
  : list (str * jsval) :=
  match kvs with
  | [] => [(k, v)]
  | (k', v') :: t =>
      if str_eqb k k' then (k', v) :: t else (k', v') :: assign k v t
  end.

(** Reading the property [k] of [v] ([v.k]).  The names the sources read
    are fixed words, none of them an inherited property, an index or
    [length]: such a read finds an own property of an object, and nothing
    on an array, string, number or boolean.  Reading from [null] or
    [undefined] throws. *)
Definition get (v : jsval) (k : str) : result jsval :=
  match v with
  | JUndefined | JNull => throw TypeError
  | JObj kvs => ok (match lookup k kvs with Some x => x | None => JUndefined end)
  | _ => ok JUndefined
  end.

(** [v?.k]. *)
Definition get_opt (v : jsval) (k : str) : jsval :=
  match get v k with inr x => x | inl _ => JUndefined end.

(** [v?.[0]]: the first element of an array, the first code unit of a
    string. *)
Definition get0_opt (v : jsval) : jsval :=
  match v with
  | JArr (x :: _) => x
  | JStr (c :: _) => JStr [c]
  | JObj kvs => match lookup (lit "0") kvs with Some x => x | None => JUndefined end
  | _ => JUndefined
  end.

(** [k in v]: throws unless [v] is an object; the names asked for are
    those of [get]. *)
Definition has (k : str) (v : jsval) : result bool :=
  match v with
  | JObj kvs => ok (match lookup k kvs with Some _ => true | None => false end)
  | JArr _ => ok false
  | _ => throw TypeError
  end.

(** [v.k = x] on the object the parser returned. *)
Definition set (v : jsval) (k : str) (x : jsval) : jsval :=
  match v with
  | JObj kvs => JObj (assign k x kvs)
  | _ => v
  end.

End JsValue.
Import JsValue.

Declare Scope js_scope.
Notation "x <- m ;; k" := (bind m (fun x => k))
  (at level 61, m at next level, right associativity) : js_scope.
Local Open Scope js_scope.

(* ------------------------------------------------------------------ *)
(** ** [JSON.parse] *)

Module Json.

Definition is_json_ws (c : N) : bool :=
  (c =? 32) || (c =? 9) || (c =? 10) || (c =? 13).

Fixpoint skip_ws (s : str) : str :=
  match s with
  | c :: t => if is_json_ws c then skip_ws t else s
  | [] => []
  end.

Definition hex_value (c : N) : option N :=
  if is_digit c then Some (c - 48)
  else if (97 <=? c) && (c <=? 102) then Some (c - 87)
  else if (65 <=? c) && (c <=? 70) then Some (c - 55)
  else None.

Definition hex4 (a b c d : N) : option N :=
  match hex_value a, hex_value b, hex_value c, hex_value d with
  | Some x, Some y, Some z, Some w => Some (((x * 16 + y) * 16 + z) * 16 + w)
  | _, _, _, _ => None
  end.

(** The character an escape letter stands for. *)
Definition unescape (e : N) : option N :=
  if (e =? 34) || (e =? 92) || (e =? 47) then Some e
  else if e =? 98 then Some 8
  else if e =? 102 then Some 12
  else if e =? 110 then Some 10
  else if e =? 114 then Some 13
  else if e =? 116 then Some 9
  else None.

(** A string literal after its opening quote: its value and what follows
    the closing quote. *)
Fixpoint parse_string_body (s : str) : option (str * str) :=
  match s with
  | [] => None
  | c :: t =>
      if c =? 34 then Some ([], t)
      else if c =? 92 then
        match t with
        | [] => None
        | e :: t1 =>
            if e =? 117 then
              match t1 with
              | h1 :: h2 :: h3 :: h4 :: t2 =>
                  match hex4 h1 h2 h3 h4, parse_string_body t2 with
                  | Some u, Some (v, r) => Some (u :: v, r)
                  | _, _ => None
                  end
              | _ => None
              end
            else
              match unescape e, parse_string_body t1 with
              | Some u, Some (v, r) => Some (u :: v, r)
              | _, _ => None
              end
        end
      else if c <? 32 then None
      else
        match parse_string_body t with
        | Some (v, r) => Some (c :: v, r)
        | None => None
        end
  end.

Fixpoint take_digits (s : str) : str * str :=
  match s with
  | c :: t =>
      if is_digit c then let (d, r) := take_digits t in (c :: d, r)
      else ([], s)
  | [] => ([], [])
  end.

Definition digits_value (ds : str) : Z :=
  fold_left (fun a c => (10 * a + Z.of_N (c - 48))%Z) ds 0%Z.

(** The exponent part, if there is one: its value and the rest. *)
Definition parse_exponent (s : str) : option (Z * str) :=
  match s with
  | c :: t =>
      if (c =? 101) || (c =? 69) then
        let '(neg, t1) :=
          match t with
          | sg :: t' =>
              if sg =? 45 then (true, t')
              else if sg =? 43 then (false, t') else (false, t)
          | [] => (false, t)
          end in
        match take_digits t1 with
        | ([], _) => None
        | (ds, r) =>
            Some ((if neg then - digits_value ds else digits_value ds)%Z, r)
        end
      else Some (0%Z, s)
  | [] => Some (0%Z, s)
  end.

(** The fraction part, if there is one: its digits and the rest. *)
Definition parse_fraction (s : str) : option (str * str) :=
  match s with
  | c :: t =>
      if c =? 46 then
        match take_digits t with
        | ([], _) => None
        | (ds, r) => Some (ds, r)
        end
      else Some ([], s)
  | [] => Some ([], s)
  end.

(** A number literal: an optional minus sign; [0], or a digit from 1 to 9
    and any digits; optionally a point and one digit or more; optionally
    [e] or [E], an optional sign and one digit or more. *)
Definition parse_number (s : str) : option (number * str) :=
  let '(neg, s1) :=
    match s with
    | c :: t => if c =? 45 then (true, t) else (false, s)
    | [] => (false, s)
    end in
  match take_digits s1 with
  | ([], _) => None
  | (d :: ds, s2) =>
      if (d =? 48) && negb (match ds with [] => true | _ => false end)
      then None
      else
        match parse_fraction s2 with
        | None => None
        | Some (fs, s3) =>
            match parse_exponent s3 with
            | None => None
            | Some (e, s4) =>
                let m := digits_value ((d :: ds) ++ fs) in
                let e := (e - Z.of_nat (length fs))%Z in
                Some (Number.of_decimal neg m e, s4)
            end
        end
  end.

(** Defining the properties of an object in source order: a repeated key
    takes the later value. *)
Definition make_object (kvs : list (str * jsval)) : jsval :=
  JObj (fold_left (fun acc kv => assign (fst kv) (snd kv) acc) kvs []).

(** One value at the head of [s] and what follows it, given the parsers
    of the members of an object and of the elements of an array. *)
Definition value_step
  (members : str -> option (list (str * jsval) * str))
  (elements : str -> option (list jsval * str))
  (s : str) : option (jsval * str) :=
  match skip_ws s with
  | [] => None
  | c :: t =>
      if c =? 123 then
        match skip_ws t with
        | c' :: t' =>
            if c' =? 125 then Some (JObj [], t')
            else
              match members t with
              | Some (kvs, r) => Some (make_object kvs, r)
              | None => None
              end
        | [] => None
        end
      else if c =? 91 then
        match skip_ws t with
        | c' :: t' =>
            if c' =? 93 then Some (JArr [], t')
            else
              match elements t with
              | Some (vs, r) => Some (JArr vs, r)
              | None => None
              end
        | [] => None
        end
      else if c =? 34 then
        match parse_string_body t with
        | Some (v, r) => Some (JStr v, r)
        | None => None
        end
      else if (c =? 45) || is_digit c then
        match parse_number (c :: t) with
        | Some (q, r) => Some (JNum q, r)
        | None => None
        end
      else if startsWith (lit "true") (c :: t)
      then Some (JBool true, skipn 4 (c :: t))
      else if startsWith (lit "false") (c :: t)
      then Some (JBool false, skipn 5 (c :: t))
      else if startsWith (lit "null") (c :: t)
      then Some (JNull, skipn 4 (c :: t))
      else None
  end.

(** The elements of an array from the head of [s] to its closing
    bracket. *)
Definition elements_step
  (value : str -> option (jsval * str))
  (elements : str -> option (list jsval * str))
  (s : str) : option (list jsval * str) :=
  match value s with
  | Some (v, r) =>
      match skip_ws r with
      | c :: t =>
          if c =? 44 then
            match elements t with
            | Some (vs, r') => Some (v :: vs, r')
            | None => None
            end
          else if c =? 93 then Some ([v], t)
          else None
      | [] => None
      end
  | None => None
  end.

(** The members of an object from the head of [s] to its closing brace. *)
Definition members_step
  (value : str -> option (jsval * str))
  (members : str -> option (list (str * jsval) * str))
  (s : str) : option (list (str * jsval) * str) :=
  match skip_ws s with
  | c :: t =>
      if c =? 34 then
        match parse_string_body t with
        | Some (k, r) =>
            match skip_ws r with
            | c2 :: t2 =>
                if c2 =? 58 then
                  match value t2 with
                  | Some (v, r2) =>
                      match skip_ws r2 with
                      | c3 :: t3 =>
                          if c3 =? 44 then
                            match members t3 with
                            | Some (kvs, r3) => Some ((k, v) :: kvs, r3)
                            | None => None
                            end
                          else if c3 =? 125 then Some ([(k, v)], t3)
                          else None
                      | [] => None
                      end
                  | None => None
                  end
                else None
            | [] => None
            end
        | None => None
        end
      else None
  | [] => None
  end.

(** The three parsers; [fuel] bounds the depth of their calls. *)
Fixpoint parse_value (fuel : nat) (s : str) : option (jsval * str) :=
  match fuel with
  | O => None
  | S f => value_step (parse_members f) (parse_elements f) s
  end

with parse_elements (fuel : nat) (s : str) : option (list jsval * str) :=
  match fuel with
  | O => None
  | S f => elements_step (parse_value f) (parse_elements f) s
  end

with parse_members (fuel : nat) (s : str)
  : option (list (str * jsval) * str) :=
  match fuel with
  | O => None
  | S f => members_step (parse_value f) (parse_members f) s
  end.

(** [JSON.parse]: one value, with white space around it and nothing else.
    The fuel is never the reason of a [None]: see [parse_value_fuel]. *)
Definition parse (s : str) : option jsval :=
  match parse_value (2 * length s + 2) s with
  | Some (v, r) => match skip_ws r with [] => Some v | _ => None end
  | None => None
  end.

End Json.

(** [JSON.parse] as the sources call it: a [SyntaxError] on a text that is
    not JSON. *)
Definition JSON_parse (s : str) : result jsval :=
  match Json.parse s with
  | Some v => ok v
  | None => throw SyntaxError
  end.

(* ------------------------------------------------------------------ *)
(** ** Regular expressions

    The fragment of ECMAScript regular expressions the sources use, with
    the backtracking semantics of the language: a pattern is matched
    against the rest of the input in continuation-passing style, so that a
    failure of what follows makes a greedy [Star] give back what it took
    and an [Alt] try its second branch. *)

Module Regex.

Inductive regex : Type :=
| Eps
| Chr (f : N -> bool)
| Bol
| Eol
| Seq (a b : regex)
| Alt (a b : regex)
| Star (a : regex)
| Grp (i : nat) (a : regex).

Definition Plus (a : regex) : regex := Seq a (Star a).

(** The texts of the capture groups, latest first. *)
Definition caps : Type := list (nat * str).

Fixpoint cap (i : nat) (c : caps) : str :=
  match c with
  | [] => []
  | (j, s) :: t => if Nat.eqb i j then s else cap i t
  end.

(** The continuation receives the position reached, the rest of the
    input and the captures; a match gives the end position. *)
Definition cont : Type := nat -> str -> caps -> option (nat * caps).

(** The greedy loop of [Star]: [m] matches the starred pattern once.  An
    iteration that reads nothing is not taken; [fuel], more than the length
    of the input, is never the reason the loop stops. *)
Fixpoint star_loop (m : cont -> cont) (k : cont) (fuel : nat) (pos : nat)
  (s : str) (c : caps) {struct fuel} : option (nat * caps) :=
  match fuel with
  | O => k pos s c
  | S fuel' =>
      match
        m (fun pos' s' c' =>
             if Nat.ltb (length s') (length s)
             then star_loop m k fuel' pos' s' c' else None)
          pos s c
      with
      | Some r => Some r
      | None => k pos s c
      end
  end.

Fixpoint rmatch (r : regex) (k : cont) (pos : nat) (s : str) (c : caps)
  {struct r} : option (nat * caps) :=
  match r with
  | Eps => k pos s c
  | Chr f =>
      match s with
      | x :: t => if f x then k (S pos) t c else None
      | [] => None
      end
  | Bol => if Nat.eqb pos 0 then k pos s c else None
  | Eol => match s with [] => k pos s c | _ :: _ => None end
  | Seq a b => rmatch a (rmatch b k) pos s c
  | Alt a b =>
      match rmatch a k pos s c with
      | Some m => Some m
      | None => rmatch b k pos s c
      end
  | Star a => star_loop (rmatch a) k (S (length s)) pos s c
  | Grp i a =>
      rmatch a (fun pos' s' c' => k pos' s' ((i, firstn (pos' - pos) s) :: c'))
        pos s c
  end.

(** The continuation at the end of a pattern: the match ends here. *)
Definition accept : cont := fun p _ c => Some (p, c).

(** A match that starts at [pos], where [s] is the input from [pos] on. *)
Definition exec_at (r : regex) (pos : nat) (s : str) : option (nat * caps) :=
  rmatch r accept pos s [].

(** The leftmost match at or after [pos]: its text. *)
Fixpoint search (r : regex) (pos : nat) (s : str) : option str :=
  match exec_at r pos s with
  | Some (e, _) => Some (firstn (e - pos) s)
  | None =>
      match s with
      | [] => None
      | _ :: t => search r (S pos) t
      end
  end.

(** [s.match(r)] for a pattern without the global flag: the matched text. *)
Definition match_first (r : regex) (s : str) : option str := search r 0 s.

(** A replacement text: literal pieces and group references [$i]. *)
Inductive piece : Type :=
| Lit (s : str)
| Ref (i : nat).

Definition expand (tmpl : list piece) (c : caps) : str :=
  flat_map (fun p => match p with Lit s => s | Ref i => cap i c end) tmpl.

(** [s.replace(r, tmpl)] for a pattern with the global flag.  [skip] counts
    the code units still covered by the match in progress.  After an empty
    match the search resumes one code unit further, and the end of the
    input is one more position to try. *)
Fixpoint replace_from (r : regex) (tmpl : list piece) (pos skip : nat)
  (s : str) {struct s} : str :=
  match skip with
  | S n =>
      match s with
      | [] => []
      | _ :: t => replace_from r tmpl (S pos) n t
      end
  | O =>
      match exec_at r pos s with
      | Some (e, c) =>
          expand tmpl c ++
          match s with
          | [] => []
          | x :: t =>
              if Nat.eqb e pos then x :: replace_from r tmpl (S pos) 0 t
              else replace_from r tmpl (S pos) (e - pos - 1) t
          end
      | None =>
          match s with
          | [] => []
          | x :: t => x :: replace_from r tmpl (S pos) 0 t
          end
      end
  end.

Definition replace_all (r : regex) (tmpl : list piece) (s : str) : str :=
  replace_from r tmpl 0 0 s.

Definition one (c : N) : regex := Chr (N.eqb c).
Definition one_of (l : list N) : regex := Chr (fun c => existsb (N.eqb c) l).
Definition none_of (l : list N) : regex :=
  Chr (fun c => negb (existsb (N.eqb c) l)).
Definition ws : regex := Chr is_space.

End Regex.
Import Regex.

(* ------------------------------------------------------------------ *)
(** ** The response parser *)

(** The class of white space and of what is not white space: any code
    unit. *)
Definition any_unit (c : N) : bool := is_space c || negb (is_space c).

(** The pattern of [response.match]: an opening brace, any run of code
    units, a closing brace. *)
Definition re_json_object : regex :=
  Seq (one 123) (Seq (Star (Chr any_unit)) (one 125)).

(** Trim whitespace: the start of the input and a run of white space, or
    a run of white space and the end of the input. *)
Definition re_trim : regex :=
  Alt (Seq Bol (Star ws)) (Seq (Star ws) Eol).

(** Remove zero-width spaces: one code unit from U+200B to U+200D, or
    U+FEFF. *)
Definition re_zero_width : regex :=
  Chr (fun c => ((8203 <=? c) && (c <=? 8205)) || (c =? 65279)).

(** Remove trailing commas: a comma, then as group 1 a run of white space
    and a closing brace or bracket. *)
Definition re_trailing_comma : regex :=
  Seq (one 44) (Grp 1 (Seq (Star ws) (one_of [125; 93]))).

(** Quote unquoted keys: as group 1 an opening brace or a comma and a run
    of white space, as group 2 one word character or more, as group 3 a
    run of white space and a colon. *)
Definition re_unquoted_key : regex :=
  Seq (Grp 1 (Seq (one_of [123; 44]) (Star ws)))
    (Seq (Grp 2 (Plus (Chr is_word)))
       (Grp 3 (Seq (Star ws) (one 58)))).

(** Replace single quotes: a colon, a run of white space, a single quote,
    as group 1 a run of code units other than the single quote, a single
    quote. *)
Definition re_single_quoted : regex :=
  Seq (one 58)
    (Seq (Star ws)
       (Seq (one 39) (Seq (Grp 1 (Star (none_of [39]))) (one 39)))).

(** Fix invalid escape sequences: a backslash, then as group 1 one code
    unit that is not a double quote, a backslash, a slash or one of the
    letters b, f, n, r, t, u. *)
Definition re_invalid_escape : regex :=
  Seq (one 92)
    (Grp 1 (none_of [34; 92; 47; 98; 102; 110; 114; 116; 117])).

(** The chain of [replace] calls of the second attempt. *)
Definition repair (s : str) : str :=
  let s := replace_all re_trim [] s in
  let s := replace_all re_zero_width [] s in
  let s := replace_all re_trailing_comma [Ref 1] s in
  let s := replace_all re_unquoted_key
             [Ref 1; Lit [34]; Ref 2; Lit [34]; Ref 3] s in
  let s := replace_all re_single_quoted [Lit [58; 34]; Ref 1; Lit [34]] s in
  let s := replace_all re_invalid_escape [Ref 1] s in
  let s := replace_all (one 10) [Lit [92; 110]] s in
  let s := replace_all (one 13) [Lit [92; 114]] s in
  replace_all (one 9) [Lit [92; 116]] s.

(** [requiredFields.filter(field => !(field in parsed))] *)
Fixpoint missing_fields (fields : list str) (parsed : jsval)
  : result (list str) :=
  match fields with
  | [] => ok []
  | f :: t =>
      b <- has f parsed ;;
      rest <- missing_fields t parsed ;;
      ok (if b then rest else f :: rest)
  end.

(** The body of each of the two [try] blocks: parse, then check the
    required fields; [prefix] is the text before the list of names. *)
Definition parse_and_check (prefix : str) (text : str) (fields : list str)
  : result jsval :=
  parsed <- JSON_parse text ;;
  missing <- missing_fields fields parsed ;;
  match missing with
  | [] => ok parsed
  | _ :: _ => throw (Error (prefix ++ join (lit ", ") missing))
  end.

Definition default_fields : list str :=
  [lit "question"; lit "expectedTopics"; lit "difficulty"; lit "modelAnswer"].

Definition parseJsonResponse (response : jsval) (requiredFields : list str)
  : result jsval :=
  match response with
  | JStr ((_ :: _) as text) =>
      match match_first re_json_object text with
      | None => throw (Error (lit "No JSON object found in response"))
      | Some cleanedResponse =>
          match
            parse_and_check (lit "Missing required fields: ")
              cleanedResponse requiredFields
          with
          | inr parsed => ok parsed
          | inl _ =>
              let cleanedResponse := repair cleanedResponse in
              match
                parse_and_check (lit "Missing required fields after cleaning: ")
                  cleanedResponse requiredFields
              with
              | inr parsed => ok parsed
              | inl finalError =>
                  throw (Error (lit "Failed to parse response as JSON: "
                                ++ message finalError
                                ++ [10] ++ lit "Response: "
                                ++ cleanedResponse))
              end
          end
      end
  | _ => throw (Error (lit "Response must be a non-empty string"))
  end.

Definition scoring_fields : list str :=
  [lit "score"; lit "feedback"; lit "coveredTopics"; lit "missingTopics"].

(* ------------------------------------------------------------------ *)
(** ** The question validator *)

Definition type_eqb (a b : js_type) : bool :=
  match a, b with
  | TUndefined, TUndefined | TObject, TObject | TBoolean, TBoolean
  | TNumber, TNumber | TString, TString => true
  | _, _ => false
  end.

Definition requiredOptions : list str := [lit "A"; lit "B"; lit "C"; lit "D"].

(** [requiredOptions.includes(v)]: [v] is one of the four strings. *)
Definition is_required_option (v : jsval) : bool :=
  match v with
  | JStr s => mem s requiredOptions
  | _ => false
  end.

Definition validateQuestionResponse (response : jsval) (questionType : str)
  : result jsval :=
  if negb (truthy response)
  then throw (Error (lit "Response cannot be null or undefined"))
  else
    missingFields <- missing_fields default_fields response ;;
    match missingFields with
    | _ :: _ =>
        throw (Error (lit "Missing required fields: "
                      ++ join (lit ", ") missingFields))
    | [] =>
        expectedTopics <- get response (lit "expectedTopics") ;;
        if negb (isArray expectedTopics)
        then throw (Error (lit "expectedTopics must be an array"))
        else
          difficulty <- get response (lit "difficulty") ;;
          if negb (type_eqb (typeof difficulty) TNumber)
          then throw (Error (lit "difficulty must be a number"))
          else
            modelAnswer <- get response (lit "modelAnswer") ;;
            if str_eqb (toLowerCase questionType) (lit "mcq") then
              options <- get modelAnswer (lit "options") ;;
              if negb (truthy options)
                 || negb (type_eqb (typeof options) TObject)
              then throw (Error (lit "MCQ response must include options object"))
              else
                missingOptions <- missing_fields requiredOptions options ;;
                match missingOptions with
                | _ :: _ =>
                    throw (Error (lit "Missing MCQ options: "
                                  ++ join (lit ", ") missingOptions))
                | [] =>
                    correctOption <- get modelAnswer (lit "correctOption") ;;
                    if negb (truthy correctOption)
                       || negb (is_required_option correctOption)
                    then throw (Error (lit
                      "MCQ response must include a valid correctOption (A, B, C, or D)"))
                    else
                      explanation <- get modelAnswer (lit "explanation") ;;
                      if negb (truthy explanation)
                         || negb (type_eqb (typeof explanation) TString)
                      then throw (Error (lit
                        "MCQ response must include an explanation"))
                      else ok response
                end
            else if str_eqb (toLowerCase questionType) (lit "coding") then
              isCode <- get modelAnswer (lit "isCode") ;;
              if negb (truthy isCode) then
                throw (Error (lit
                  "Coding response must include isCode flag and content"))
              else
                content <- get modelAnswer (lit "content") ;;
                if negb (type_eqb (typeof content) TString)
                then throw (Error (lit
                  "Coding response must include isCode flag and content"))
                else ok response
            else
              content <- get modelAnswer (lit "content") ;;
              if negb (type_eqb (typeof content) TString)
              then throw (Error (lit "Model answer must include content string"))
              else ok response
    end.

(* ------------------------------------------------------------------ *)
(** ** The prompt builder *)

(** The expression every template embeds after the [difficulty] key:
    [difficulty === 'Easy' ? 1 : difficulty === 'Medium' ? 2 : 3]. *)
Definition difficulty_tier (difficulty : str) : Z :=
  if str_eqb difficulty (lit "Easy") then 1%Z
  else if str_eqb difficulty (lit "Medium") then 2%Z
  else 3%Z.

Definition mcq_prompt (technology difficulty : str) (questionNumber : Z)
  : str :=
  tq "You are a technical interviewer specializing in "
    ++ technology
    ++ tq ". Generate a multiple choice question (MCQ) that tests knowledge of "
    ++ technology
    ++ tq ".

The question should:
1. Test specific knowledge in "
    ++ technology
    ++ tq "
2. Be appropriate for "
    ++ difficulty
    ++ tq " difficulty level
3. Have exactly 4 options (A, B, C, D)
4. Have only one correct answer
5. Question number "
    ++ of_Z questionNumber
    ++ tq " in the sequence - ensure it's completely different from previous questions
6. Include clear explanations for why each option is correct or incorrect

IMPORTANT: Return ONLY a valid JSON object with the following fields:
{
  ~question~: ~The MCQ question text - must be specific to "
    ++ technology
    ++ tq "~,
  ~expectedTopics~: [
    ~List of concepts being tested~,
    ~Key "
    ++ technology
    ++ tq " knowledge points covered~
  ],
  ~difficulty~: "
    ++ of_Z (difficulty_tier difficulty)
    ++ tq ",
  ~modelAnswer~: {
    ~options~: {
      ~A~: ~First option~,
      ~B~: ~Second option~,
      ~C~: ~Third option~,
      ~D~: ~Fourth option~
    },
    ~correctOption~: ~The correct option letter (A, B, C, or D)~,
    ~explanation~: ~Detailed explanation of why the correct answer is right and why others are wrong~
  }
}

Return ONLY the JSON object, no additional text. Ensure all strings are properly escaped.".

Definition subjective_prompt (technology difficulty : str)
  (questionNumber : Z) : str :=
  tq "You are a technical interviewer specializing in "
    ++ technology
    ++ tq ". Generate a logical reasoning and analytical thinking question that is relevant to "
    ++ technology
    ++ tq " development scenarios.

The question should:
1. Test critical thinking and problem-solving abilities in the context of "
    ++ technology
    ++ tq " projects
2. Focus on real-world scenarios a "
    ++ technology
    ++ tq " developer might face
3. Be appropriate for "
    ++ difficulty
    ++ tq " difficulty level
4. Test decision-making and analytical skills specific to "
    ++ technology
    ++ tq " development
5. Question number "
    ++ of_Z questionNumber
    ++ tq " in the sequence - ensure it's different from previous questions

IMPORTANT: Return ONLY a valid JSON object with the following fields:
{
  ~question~: ~The question text - must be specific to "
    ++ technology
    ++ tq "~,
  ~expectedTopics~: [
    ~List of 4-5 key points that should be covered in the answer~,
    ~Each point should be relevant to "
    ++ technology
    ++ tq "~
  ],
  ~difficulty~: "
    ++ of_Z (difficulty_tier difficulty)
    ++ tq ",
  ~modelAnswer~: {
    ~isCode~: false,
    ~content~: ~A detailed explanation of what a good answer should include, specific to "
    ++ technology
    ++ tq "~
  }
}

Return ONLY the JSON object, no additional text. Ensure all strings are properly escaped.".

Definition coding_prompt (technology difficulty : str) (questionNumber : Z)
  : str :=
  tq "You are a technical interviewer specializing in "
    ++ technology
    ++ tq ". Generate a coding question that tests practical "
    ++ technology
    ++ tq " implementation skills.

The question should:
1. Test coding ability in "
    ++ technology
    ++ tq "
2. Be appropriate for "
    ++ difficulty
    ++ tq " difficulty level
3. Focus on real-world scenarios
4. Be clear and unambiguous
5. Question number "
    ++ of_Z questionNumber
    ++ tq " in the sequence - ensure it's different from previous questions

IMPORTANT: Return ONLY a valid JSON object with the following fields. Ensure all code in the content field is properly escaped:
{
  ~question~: ~The coding problem statement with clear requirements and examples~,
  ~expectedTopics~: [
    ~List of concepts and skills being tested~,
    ~Important considerations for the implementation~
  ],
  ~difficulty~: "
    ++ of_Z (difficulty_tier difficulty)
    ++ tq ",
  ~modelAnswer~: {
    ~isCode~: true,
    ~content~: ~// Your code solution here\n// Use double backslashes for newlines\n// Escape all quotes~
  }
}

RULES for the content field:
1. Use double backslashes for newlines (\n)
2. Escape all quotes (\~ for double quotes)
3. Avoid using backticks
4. Keep indentation using spaces (no tabs)
5. Escape any special characters

Return ONLY the JSON object, no additional text.".

Definition fallback_prompt (technology difficulty : str)
  (questionNumber : Z) : str :=
  tq "You are a technical interviewer specializing in "
    ++ technology
    ++ tq ". Generate a multiple-choice question that tests "
    ++ technology
    ++ tq " knowledge.

The question should:
1. Test understanding of "
    ++ technology
    ++ tq " concepts
2. Be appropriate for "
    ++ difficulty
    ++ tq " difficulty level
3. Have clear, unambiguous options
4. Question number "
    ++ of_Z questionNumber
    ++ tq " in the sequence - ensure it's different from previous questions

IMPORTANT: Return ONLY a valid JSON object with the following fields:
{
  ~question~: ~The question text~,
  ~expectedTopics~: [~Key concepts being tested~],
  ~difficulty~: "
    ++ of_Z (difficulty_tier difficulty)
    ++ tq ",
  ~modelAnswer~: {
    ~isCode~: false,
    ~content~: ~Explanation of why the correct answer is right~
  },
  ~options~: [
    ~A) First option~,
    ~B) Second option~,
    ~C) Third option~,
    ~D) Fourth option~
  ],
  ~correctOption~: ~A~
}

Return ONLY the JSON object, no additional text. Ensure all strings are properly escaped.".

(** [questionNumber] is the ordinal of the question, an integer. *)
Definition generateQuestionPrompt (technology difficulty : str)
  (questionNumber : Z) (questionType : str) : str :=
  if str_eqb (toLowerCase questionType) (lit "mcq")
  then mcq_prompt technology difficulty questionNumber
  else if str_eqb (toLowerCase questionType) (lit "subjective")
  then subjective_prompt technology difficulty questionNumber
  else if str_eqb (toLowerCase questionType) (lit "coding")
  then coding_prompt technology difficulty questionNumber
  else fallback_prompt technology difficulty questionNumber.

(** The prompt of [analyzeResponse]. *)
Definition analysis_prompt (question response : str)
  (expectedTopics : list str) : str :=
  tq "Analyze this response to the following interview question. Provide feedback and a score out of 10.

Question: "
    ++ question
    ++ tq "

Response: "
    ++ response
    ++ tq "

Expected topics to be covered:
"
    ++ join [10] (map (fun topic => lit "- " ++ topic) expectedTopics)
    ++ tq "

Return your analysis in this JSON format:
{
  ~score~: 8,
  ~feedback~: ~Detailed feedback about the response~,
  ~coveredTopics~: [~Topics that were covered well in the response~],
  ~missingTopics~: [~Expected topics that were not covered~],
  ~improvement~: ~Suggestions for improvement~
}

Make sure to:
1. Score between 0 and 10 points only
2. Include all topics from the expected topics list in either coveredTopics or missingTopics
3. Provide specific, actionable feedback".

(* ------------------------------------------------------------------ *)
(** ** The world: clock, rate-limiter state, network *)

Local Open Scope Z_scope.

(** What the process can observe and change: the wall clock in
    milliseconds ([Date.now()]), the module variable [lastRequestTime], and
    the prompts posted to the completion API, latest first. *)
Record World : Type := mkWorld {
  clock : Z;
  lastRequestTime : Z;
  posted : list str
}.

(** The reply of the completion API to one request. *)
Record ApiReply : Type := mkReply {
  api_status : Z;
  api_statusText : str;
  api_body : str
}.

Inductive fetch_outcome : Type :=
| NetworkFailure
| Replied (r : ApiReply).

(** What the host supplies to one call of the client: the configured
    credential ([process.env.NEXT_PUBLIC_GROQ_API_KEY]); by how many
    milliseconds the clock of [Date.now()] has moved beyond the delay when
    the timer of [sleep] fires (the timer runs on the clock of the event
    loop, which the wall clock does not follow to the millisecond: the lag
    is negative when the timer fires early by the wall clock); how long
    the request takes, and how it ends. *)
Record Host : Type := mkHost {
  GROQ_API_KEY : option str;
  timer_lag : Z;
  latency : N;
  reply : fetch_outcome
}.

Definition initial_world (t : Z) : World := mkWorld t 0 [].

Definition MIN_REQUEST_INTERVAL : Z := 3000.

(** Time passing. *)
Definition elapse (d : Z) (w : World) : World :=
  mkWorld (clock w + d) (lastRequestTime w) (posted w).

(** The delay of [setTimeout] as Node.js takes it: a delay below 1 or
    above 2147483647 is set to 1. *)
Definition timer_delay (ms : Z) : Z :=
  if (ms <? 1) || (2147483647 <? ms) then 1 else ms.

(** [await sleep(ms)]: when the timer fires, the wall clock has moved by
    the delay and the lag of the timer. *)
Definition sleep (ms : Z) (lag : Z) (w : World) : World :=
  elapse (timer_delay ms + lag) w.

Definition waitForRateLimit (lag : Z) (w : World) : World :=
  let now := clock w in
  let timeSinceLastRequest := now - lastRequestTime w in
  let w :=
    if timeSinceLastRequest <? MIN_REQUEST_INTERVAL
    then sleep (MIN_REQUEST_INTERVAL - timeSinceLastRequest) lag w
    else w in
  mkWorld (clock w) (clock w) (posted w).

(** [!GROQ_API_KEY] *)
Definition key_missing (h : Host) : bool :=
  match GROQ_API_KEY h with
  | None | Some [] => true
  | Some (_ :: _) => false
  end.

(** [await fetch(API_URL, ...)]: the request leaves, carrying the prompt,
    and takes its time. *)
Definition fetch (prompt : str) (h : Host) (w : World) : World :=
  elapse (Z.of_N (latency h))
    (mkWorld (clock w) (lastRequestTime w) (prompt :: posted w)).

(** [response.ok] *)
Definition reply_ok (r : ApiReply) : bool :=
  (200 <=? api_status r) && (api_status r <=? 299).

Definition makeGroqRequest (prompt : str) (h : Host) (w : World)
  : World * result jsval :=
  if key_missing h
  then (w, throw (Error (lit "GROQ API key is not configured")))
  else
    let w := waitForRateLimit (timer_lag h) w in
    let w := fetch prompt h w in
    match reply h with
    | NetworkFailure => (w, throw TypeError)
    | Replied response =>
        if negb (reply_ok response) then
          if api_status response =? 429
          then (w, throw (Error (lit "Rate limit exceeded")))
          else (w, throw (Error (lit "API request failed: "
                                 ++ of_Z (api_status response) ++ lit " "
                                 ++ api_statusText response)))
        else (w, JSON_parse (api_body response))
    end.

(** [response?.choices?.[0]?.message?.content] *)
Definition completion_content (response : jsval) : jsval :=
  get_opt (get_opt (get0_opt (get_opt response (lit "choices")))
             (lit "message")) (lit "content").

Definition generateQuestion (technology difficulty : str)
  (questionNumber : Z) (questionType : str) (h : Host) (w : World)
  : World * result jsval :=
  let prompt :=
    generateQuestionPrompt technology difficulty questionNumber questionType in
  let '(w, r) := makeGroqRequest prompt h w in
  (w,
   response <- r ;;
   let content := completion_content response in
   if negb (truthy content)
   then throw (Error (lit "Invalid response structure from GROQ API"))
   else
     match content with
     | JStr _ =>
         parsedResponse <- parseJsonResponse content default_fields ;;
         _ <- validateQuestionResponse parsedResponse questionType ;;
         ok parsedResponse
     | _ => throw TypeError (* [content.substring] is not a function *)
     end).

(* ------------------------------------------------------------------ *)
(** ** The scorer *)

(** [Math.min] and [Math.max] on two numbers. *)
Definition Math_min (a b : number) : number := Number.min a b.
Definition Math_max (a b : number) : number := Number.max a b.

(** The literals [0] and [10] of the sources. *)
Definition zero : number := Number.of_int 0.
Definition ten : number := Number.of_int 10.

(** The block under the comment "Ensure score is between 0 and 10", for a
    score that is a number. *)
Definition normalize_score (score : number) : number :=
  let score :=
    if Number.lt ten score
    then Math_min ten (Number.div score ten)
    else score in
  Math_max zero (Math_min ten score).

(** The two blocks that follow the parse: the score, then the two topic
    lists. *)
Definition normalize_analysis (result : jsval) : jsval :=
  let result :=
    match get_opt result (lit "score") with
    | JNum score => set result (lit "score") (JNum (normalize_score score))
    | _ => set result (lit "score") (JNum zero)
    end in
  let result :=
    if negb (isArray (get_opt result (lit "coveredTopics")))
    then set result (lit "coveredTopics") (JArr [])
    else result in
  if negb (isArray (get_opt result (lit "missingTopics")))
  then set result (lit "missingTopics") (JArr [])
  else result.

Definition analyzeResponse (question response : str)
  (expectedTopics : list str) (h : Host) (w : World)
  : World * result jsval :=
  if key_missing h
  then (w, throw (Error (lit "GROQ API key is not configured")))
  else
    let prompt := analysis_prompt question response expectedTopics in
    let '(w, r) := makeGroqRequest prompt h w in
    (w,
     apiResponse <- r ;;
     let content := completion_content apiResponse in
     if negb (truthy content)
     then throw (Error (lit "Invalid response structure from GROQ API"))
     else
       result <- parseJsonResponse content scoring_fields ;;
       ok (normalize_analysis result)).

(* ------------------------------------------------------------------ *)
(** ** [decodeURIComponent] *)

Module Uri.

Local Open Scope N_scope.

(** [%XX] at the head of [s]: the octet and the rest. *)
Definition octet (s : str) : option (N * str) :=
  match s with
  | p :: h1 :: h2 :: t =>
      if p =? 37 then
        match Json.hex_value h1, Json.hex_value h2 with
        | Some a, Some b => Some (a * 16 + b, t)
        | _, _ => None
        end
      else None
  | _ => None
  end.

(** A continuation octet of UTF-8: its six payload bits and the rest. *)
Definition continuation (s : str) : option (N * str) :=
  match octet s with
  | Some (b, t) => if (128 <=? b) && (b <? 192) then Some (b - 128, t) else None
  | None => None
  end.

(** The code units of a code point. *)
Definition utf16 (cp : N) : str :=
  if cp <? 65536 then [cp]
  else [55296 + (cp - 65536) / 1024; 56320 + (cp - 65536) mod 1024].

Definition is_surrogate (cp : N) : bool := (55296 <=? cp) && (cp <=? 57343).

(** One step of the decoding: the code units decoded and the rest, or
    [None] where a [URIError] is raised. *)
Definition decode_step (c : N) (t : str) : option (str * str) :=
  if negb (c =? 37) then Some ([c], t)
  else
    match octet (c :: t) with
    | None => None
    | Some (b, t1) =>
        if b <? 128 then Some ([b], t1)
        else if (192 <=? b) && (b <? 224) then
          match continuation t1 with
          | Some (x, t2) =>
              let cp := (b - 192) * 64 + x in
              if cp <? 128 then None else Some (utf16 cp, t2)
          | None => None
          end
        else if (224 <=? b) && (b <? 240) then
          match continuation t1 with
          | Some (x, t2) =>
              match continuation t2 with
              | Some (y, t3) =>
                  let cp := ((b - 224) * 64 + x) * 64 + y in
                  if (cp <? 2048) || is_surrogate cp then None
                  else Some (utf16 cp, t3)
              | None => None
              end
          | None => None
          end
        else if (240 <=? b) && (b <? 248) then
          match continuation t1 with
          | Some (x, t2) =>
              match continuation t2 with
              | Some (y, t3) =>
                  match continuation t3 with
                  | Some (z, t4) =>
                      let cp := (((b - 240) * 64 + x) * 64 + y) * 64 + z in
                      if (cp <? 65536) || (1114111 <? cp) then None
                      else Some (utf16 cp, t4)
                  | None => None
                  end
              | None => None
              end
          | None => None
          end
        else None
    end.

Fixpoint decode (fuel : nat) (s : str) : option str :=
  match s with
  | [] => Some []
  | c :: t =>
      match fuel with
      | O => None
      | S f =>
          match decode_step c t with
          | Some (u, r) =>
              match decode f r with
              | Some v => Some (u ++ v)
              | None => None
              end
          | None => None
          end
      end
  end.

End Uri.

(** Every step reads at least one code unit, so the length of the text is
    fuel enough. *)
Definition decodeURIComponent (s : str) : result str :=
  match Uri.decode (length s) s with
  | Some v => ok v
  | None => throw URIError
  end.

(* ------------------------------------------------------------------ *)
(** ** The route handlers *)

(** [NextResponse.json(json, { status })]. *)
Record NextResponse : Type := mkResponse {
  http_status : Z;
  http_json : jsval
}.

Definition error_json (msg : str) : jsval := JObj [(lit "error", JStr msg)].

(** A field of a request body that is absent or empty is falsy. *)
Definition blank (f : option str) : bool :=
  match f with
  | None | Some [] => true
  | Some (_ :: _) => false
  end.

Definition or_empty (f : option str) : str :=
  match f with Some s => s | None => [] end.

Definition topics_json (topics : list str) : jsval := JArr (map JStr topics).

(** The body of a request to the analysis route, as the interview page
    posts it: each field is absent, or has the type the page gives it. *)
Record AnalyzeBody : Type := mkAnalyzeBody {
  a_question : option str;
  a_response : option str;
  a_expectedTopics : option (list str);
  a_questionType : option str;
  a_correctOption : option str;
  a_explanation : option str
}.

(** The analysis route, [POST]. *)
Definition analyze_POST (body : AnalyzeBody) (h : Host) (w : World)
  : World * NextResponse :=
  match a_expectedTopics body with
  | Some expectedTopics =>
      if blank (a_question body) || blank (a_response body)
         || blank (a_questionType body)
      then (w, mkResponse 400 (error_json (lit "Missing required fields")))
      else
        let question := or_empty (a_question body) in
        let response := or_empty (a_response body) in
        let questionType := or_empty (a_questionType body) in
        if str_eqb (toLowerCase questionType) (lit "mcq") then
          if blank (a_correctOption body)
          then (w, mkResponse 400
                     (error_json (lit "Missing correct option for MCQ")))
          else
            let correctOption := or_empty (a_correctOption body) in
            let explanation := or_empty (a_explanation body) in
            let isCorrect :=
              str_eqb (toUpperCase response) (toUpperCase correctOption) in
            let mcqAnalysis :=
              JObj
                [(lit "score", JNum (if isCorrect then ten else zero));
                 (lit "feedback",
                  JStr (if isCorrect
                        then lit "Correct! " ++ explanation
                        else lit "Incorrect. The correct answer is "
                             ++ correctOption ++ lit ". " ++ explanation));
                 (lit "coveredTopics",
                  if isCorrect then topics_json expectedTopics else JArr []);
                 (lit "missingTopics",
                  if isCorrect then JArr [] else topics_json expectedTopics)] in
            (w, mkResponse 200 mcqAnalysis)
        else
          let '(w, r) := analyzeResponse question response expectedTopics h w in
          match r with
          | inr analysis => (w, mkResponse 200 analysis)
          | inl error =>
              (w, mkResponse 500
                    (JObj [(lit "error", JStr (lit "Failed to analyze response"));
                           (lit "details", JStr (message error))]))
          end
  | None => (w, mkResponse 400 (error_json (lit "Missing required fields")))
  end.

(** The body of a request to the question route. *)
Record QuestionBody : Type := mkQuestionBody {
  q_technology : option str;
  q_difficulty : option str;
  q_questionNumber : Z;
  q_questionType : option str
}.

(** What the question route hands to [generateQuestion], when it gets that
    far: the cleaned technology and difficulty. *)
Definition clean_inputs (body : QuestionBody) : result (str * str) :=
  cleanTechnology <- decodeURIComponent (trim (or_empty (q_technology body))) ;;
  ok (cleanTechnology, toLowerCase (trim (or_empty (q_difficulty body)))).

(** The question route, [POST]. *)
Definition question_POST (body : QuestionBody) (h : Host) (w : World)
  : World * NextResponse :=
  if blank (q_technology body) || blank (q_difficulty body)
     || blank (q_questionType body)
  then (w, mkResponse 400 (error_json (lit
          "Technology, difficulty, and question type are required")))
  else
    match clean_inputs body with
    | inl error => (w, mkResponse 500 (error_json (message error)))
    | inr (cleanTechnology, cleanDifficulty) =>
        let questionType := or_empty (q_questionType body) in
        let '(w, r) :=
          generateQuestion cleanTechnology cleanDifficulty
            (q_questionNumber body) questionType h w in
        let r :=
          question <- r ;;
          if negb (truthy question)
             || negb (type_eqb (typeof question) TObject)
          then throw (Error (lit "Invalid question format received"))
          else ok question in
        match r with
        | inr question => (w, mkResponse 200 question)
        | inl error =>
            if includes (message error) (lit "rate limit")
            then (w, mkResponse 429 (error_json (lit
                    "Rate limit exceeded. Please wait a moment before trying again.")))
            else (w, mkResponse 500 (error_json (message error)))
        end
    end.

(* ------------------------------------------------------------------ *)
(** ** The technology sanitizer *)

(** The own properties of the table [specialCases]. *)
Definition specialCases : list (str * str) :=
  [(lit "c++", lit "cpp"); (lit "c#", lit "csharp"); (lit ".net", lit "dotnet");
   (lit "node.js", lit "nodejs"); (lit "react.js", lit "react");
   (lit "vue.js", lit "vue")].

(** The properties the table inherits from [Object.prototype], as every
    object literal does; each is a function or an object, hence truthy. *)
Definition prototype_names : list str :=
  [lit "constructor"; lit "__defineGetter__"; lit "__defineSetter__";
   lit "hasOwnProperty"; lit "__lookupGetter__"; lit "__lookupSetter__";
   lit "isPrototypeOf"; lit "propertyIsEnumerable"; lit "toString";
   lit "valueOf"; lit "__proto__"; lit "toLocaleString"].

Fixpoint assoc (k : str) (l : list (str * str)) : option str :=
  match l with
  | [] => None
  | (k', v) :: t => if str_eqb k k' then Some v else assoc k t
  end.

(** What [sanitizeTechnology] returns: a string, or the member of
    [Object.prototype] that the read [specialCases[lowerTech]] found under
    the name [lowerTech]. *)
Inductive sanitized : Type :=
| Text (s : str)
| Inherited (name : str).

Definition is_alnum (c : N) : bool := is_upper c || is_lower c || is_digit c.

(** Remove special characters and spaces: one code unit that is neither a
    letter from a to z or from A to Z nor a digit. *)
Definition re_special : regex := Chr (fun c => negb (is_alnum c)).

(** No key of the table and none of the inherited names that is in
    lower case holds a letter that a code unit outside ASCII is lower-cased
    to ([i] and [k]), so that the lookup is the one of the full case
    tables; the replacement reads [tech] as it was given. *)
Definition sanitizeTechnology (tech : str) : sanitized :=
  let lowerTech := toLowerCase tech in
  match assoc lowerTech specialCases with
  | Some name => Text name
  | None =>
      if mem lowerTech prototype_names then Inherited lowerTech
      else Text (replace_all re_special [] tech)
  end.

(* ------------------------------------------------------------------ *)
(** ** The interview page as a client of the two routes *)

(** [types[(currentQuestionNumber - 1) % types.length]], with [None] for
    [undefined]: the remainder has the sign of the dividend, and is not a
    number when the list is empty. *)
Definition questionTypeAt (types : list str) (currentQuestionNumber : Z)
  : option str :=
  match types with
  | [] => None
  | _ :: _ =>
      let typeIndex :=
        Z.rem (currentQuestionNumber - 1) (Z.of_nat (length types)) in
      if typeIndex <? 0 then None else nth_error types (Z.to_nat typeIndex)
  end.

(** What [analyzeAnswer] reads of a question, with the types the page's
    interface [Question] gives: [question], [expectedTopics],
    [modelAnswer.correctOption] and [modelAnswer.explanation]. *)
Record Question : Type := mkQuestion {
  qn_question : str;
  qn_expectedTopics : list str;
  qn_correctOption : option str;
  qn_explanation : option str
}.

(** [questionType === 'mcq'] *)
Definition is_mcq (questionType : option str) : bool :=
  match questionType with
  | Some t => str_eqb t (lit "mcq")
  | None => false
  end.

(** The body [analyzeAnswer] posts: [JSON.stringify] leaves out the
    properties that are [undefined]. *)
Definition analyze_request (types : list str) (currentQuestionNumber : Z)
  (question : Question) (answerText : str) : AnalyzeBody :=
  let questionType := questionTypeAt types currentQuestionNumber in
  mkAnalyzeBody
    (Some (qn_question question))
    (Some answerText)
    (Some (qn_expectedTopics question))
    questionType
    (if is_mcq questionType then qn_correctOption question else None)
    (if is_mcq questionType then qn_explanation question else None).

(** What the page reads with [response.json()] when a route has sent the
    value [v] with [NextResponse.json(v)]: the value [JSON.parse] gives
    for the text of [JSON.stringify(v)].  A number that is not finite
    arrives as [null] and the negative zero as zero; a property of an
    object whose value is [undefined] is left out and [undefined] in an
    array arrives as [null]; strings, booleans and [null] arrive as they
    are.  (A route never sends [undefined] itself.) *)
Fixpoint wire (v : jsval) : jsval :=
  match v with
  | JNum (S754_finite _ _ _) => v
  | JNum (S754_zero _) => JNum (S754_zero false)
  | JNum _ => JNull
  | JArr l =>
      JArr (map (fun x => match x with JUndefined => JNull | _ => wire x end)
              l)
  | JObj kvs =>
      JObj (flat_map
              (fun kv =>
                 let '(k, x) := kv in
                 match x with JUndefined => [] | _ => [(k, wire x)] end)
              kvs)
  | _ => v
  end.

(** [response.ok] of the answer of a route. *)
Definition response_ok (r : NextResponse) : bool :=
  (200 <=? http_status r) && (http_status r <=? 299).

(** [analyzeAnswer], the analysis route being the one above;
    [statusText] is the status text the transport gives for a status. *)
Definition analyzeAnswer (types : list str) (currentQuestionNumber : Z)
  (question : Question) (answerText : str) (statusText : Z -> str)
  (h : Host) (w : World) : World * result jsval :=
  let '(w, response) :=
    analyze_POST
      (analyze_request types currentQuestionNumber question answerText) h w in
  if negb (response_ok response) then
    (w, throw (Error (lit "Failed to analyze answer: "
                      ++ of_Z (http_status response) ++ lit " "
                      ++ statusText (http_status response))))
  else
    let analysis := wire (http_json response) in
    if negb (truthy analysis)
       || negb (type_eqb (typeof (get_opt analysis (lit "score"))) TNumber)
    then (w, throw (Error (lit "Invalid analysis format received")))
    else (w, ok analysis).

(** The body [generateNextQuestion] posts. *)
Definition question_request (technology difficulty : option str)
  (types : list str) (currentQuestionNumber : Z) : QuestionBody :=
  mkQuestionBody technology difficulty currentQuestionNumber
    (questionTypeAt types currentQuestionNumber).

(** [data.error || 'Failed to fetch question'], for the answers of the
    question route, whose [error] is a string when it is there. *)
Definition error_or_default (data : jsval) : str :=
  match get_opt data (lit "error") with
  | JStr ((_ :: _) as error) => error
  | _ => lit "Failed to fetch question"
  end.

(** [generateNextQuestion] when no question is being generated, the
    question route being the one above.  [technology] and [difficulty]
    are the parameters of the address of the page, absent or trimmed.
    The outcome is [None] when the function returns at once, the question
    that becomes the current one, or the error whose message the page
    shows. *)
Definition generateNextQuestion (technology difficulty : option str)
  (types : list str) (currentQuestionNumber : Z) (h : Host) (w : World)
  : World * option (result jsval) :=
  if blank technology || blank difficulty then (w, None)
  else
    let '(w, response) :=
      question_POST
        (question_request technology difficulty types currentQuestionNumber)
        h w in
    let data := wire (http_json response) in
    if negb (response_ok response) then
      (w, Some (throw (Error (error_or_default data))))
    else if negb (truthy data)
            || negb (truthy (get_opt data (lit "question")))
    then (w, Some (throw (Error (lit "Invalid question format received"))))
    else (w, Some (ok data)).

(** The language the page sets for the code editor from the technology of
    the interview; [javascript] is the initial state, kept when the
    technology is missing or names none of the languages.  None of the
    names looked for holds a [k], or an [i] at its end, which is where a
    code unit outside ASCII could lower-case into a match. *)
Definition editorLanguage (technology : option str) : str :=
  match technology with
  | Some ((_ :: _) as technology) =>
      let lang := toLowerCase technology in
      if includes lang (lit "python") then lit "python"
      else if includes lang (lit "java") then lit "java"
      else if includes lang (lit "c#") then lit "csharp"
      else if includes lang (lit "c++") then lit "cpp"
      else if includes lang (lit "typescript") then lit "typescript"
      else if includes lang (lit "php") then lit "php"
      else if includes lang (lit "ruby") then lit "ruby"
      else if includes lang (lit "swift") then lit "swift"
      else if includes lang (lit "go") then lit "go"
      else if includes lang (lit "rust") then lit "rust"
      else lit "javascript"
  | _ => lit "javascript"
  end.

(* ------------------------------------------------------------------ *)
(** ** The second scorer

    The module that calls the completion API by itself: it has no
    credential check and no rate limiter, takes the completion for JSON
    as it is, and returns the analysis as the model gave it. *)

Module Direct.

Definition analysis_prompt (question userResponse : str)
  (expectedTopics : list str) : str :=
  tq "As a technical interviewer, analyze and score this response:

Question: ~"
    ++ question
    ++ tq "~

User's Response: ~"
    ++ userResponse
    ++ tq "~

Expected Topics to Cover: "
    ++ join (lit ", ") expectedTopics
    ++ tq "

Please analyze the response considering:
1. Accuracy of the answer
2. Completeness in covering expected topics
3. Technical depth and understanding
4. Clarity of explanation

IMPORTANT: You must return ONLY a valid JSON object in a single line. No markdown, no formatting, no additional text.
Do not include any explanations or notes before or after the JSON.
Ensure all strings are properly escaped, especially quotes and newlines.
The response must be parseable by JSON.parse() without any cleaning.

Example format:
{
  ~score~: 8,
  ~feedback~: ~Clear explanation with good technical depth~,
  ~coveredTopics~: [~topic1~, ~topic2~],
  ~missingTopics~: [~topic3~]
}".

(** The loop over [requiredFields]: the first field that is missing is
    the one reported. *)
Fixpoint check_fields (requiredFields : list str) (parsedData : jsval)
  : result unit :=
  match requiredFields with
  | [] => ok tt
  | field :: rest =>
      present <- has field parsedData ;;
      if present then check_fields rest parsedData
      else throw (Error (lit "Missing required field: " ++ field))
  end.

Definition parseJsonResponse (jsonString : str) (requiredFields : list str)
  : result jsval :=
  match
    parsedData <- JSON_parse jsonString ;;
    _ <- check_fields requiredFields parsedData ;;
    ok parsedData
  with
  | inr parsedData => ok parsedData
  | inl error =>
      throw (Error (lit "Invalid JSON response: " ++ message error))
  end.

Definition analyzeResponse (question userResponse : str)
  (expectedTopics : list str) (h : Host) (w : World)
  : World * result jsval :=
  let prompt := analysis_prompt question userResponse expectedTopics in
  let w := fetch prompt h w in
  match reply h with
  | NetworkFailure => (w, throw TypeError)
  | Replied response =>
      if negb (reply_ok response) then
        (w, throw (Error (lit "API request failed: "
                          ++ of_Z (api_status response) ++ lit " "
                          ++ api_statusText response)))
      else
        (w,
         match JSON_parse (api_body response) with
         | inl _ => throw (Error (lit "Invalid JSON response from API"))
         | inr responseData =>
             choices <- get responseData (lit "choices") ;;
             let content :=
               get_opt (get_opt (get0_opt choices) (lit "message"))
                 (lit "content") in
             if negb (truthy content)
             then throw (Error (lit "Invalid API response structure"))
             else
               match content with
               | JStr text => parseJsonResponse (trim text) scoring_fields
               | _ => throw TypeError (* [content.trim] is not a function *)
               end
         end)
  end.

End Direct.

(* ------------------------------------------------------------------ *)
(** ** Vocabulary of the properties *)

(** A parser leaves less than it was given. *)
Definition shrinks {A : Type} (p : str -> option (A * str)) : Prop :=
  forall s a r, p s = Some (a, r) -> (length r < length s)%nat.

(** The pattern has no match in the text. *)
Definition absent (r : regex) (s : str) : bool :=
  match search r 0 s with
  | None => true
  | Some _ => false
  end.

(** The first code unit, if any, is not white space. *)
Definition starts_solid (s : str) : bool :=
  match s with
  | [] => true
  | c :: _ => negb (is_space c)
  end.

(** The last code unit, if any, is not white space. *)
Fixpoint ends_solid (s : str) : bool :=
  match s with
  | [] => true
  | [c] => negb (is_space c)
  | _ :: t => ends_solid t
  end.

(** None of the substitutions of the repair pass applies to the text. *)
Definition unaffected (s : str) : bool :=
  starts_solid s && ends_solid s
  && absent re_zero_width s
  && absent re_trailing_comma s
  && absent re_unquoted_key s
  && absent re_single_quoted s
  && absent re_invalid_escape s
  && absent (one 10) s && absent (one 13) s && absent (one 9) s.

(** [response.modelAnswer.options] and [response.modelAnswer.correctOption],
    [undefined] where the path breaks. *)
Definition mcq_options (response : jsval) : jsval :=
  get_opt (get_opt response (lit "modelAnswer")) (lit "options").
Definition mcq_correctOption (response : jsval) : jsval :=
  get_opt (get_opt response (lit "modelAnswer")) (lit "correctOption").

(** A well-formed multiple-choice payload. *)
Record well_formed_mcq (kvs : list (str * jsval)) : Prop := {
  wf_question : lookup (lit "question") kvs <> None;
  wf_topics : exists topics,
    lookup (lit "expectedTopics") kvs = Some (JArr topics);
  wf_difficulty : exists tier,
    lookup (lit "difficulty") kvs = Some (JNum tier);
  wf_answer : exists answer options correct explanation,
    lookup (lit "modelAnswer") kvs = Some (JObj answer)
    /\ lookup (lit "options") answer = Some (JObj options)
    /\ (forall label, In label requiredOptions -> lookup label options <> None)
    /\ lookup (lit "correctOption") answer = Some (JStr correct)
    /\ In correct requiredOptions
    /\ lookup (lit "explanation") answer = Some (JStr explanation)
    /\ explanation <> []
}.

(** The host answers a request of the scorer with a completion whose text
    is [content]. *)
Definition model_replied (h : Host) (content : jsval) : Prop :=
  key_missing h = false
  /\ exists r envelope,
       reply h = Replied r /\ reply_ok r = true
       /\ JSON_parse (api_body r) = ok envelope
       /\ completion_content envelope = content
       /\ truthy content = true.

(** The fields of the list that the object does not have. *)
Definition lacking (kvs : list (str * jsval)) (fields : list str) : list str :=
  filter (fun f => match lookup f kvs with None => true | Some _ => false end)
    fields.

(** No number in the value is [NaN]. *)
Fixpoint numbers_defined (v : jsval) : bool :=
  match v with
  | JNum x => negb (Number.is_nan x)
  | JArr l => forallb numbers_defined l
  | JObj kvs => forallb (fun kv => let '(_, x) := kv in numbers_defined x) kvs
  | _ => true
  end.

Definition members_defined (kvs : list (str * jsval)) : bool :=
  forallb (fun kv => let '(_, x) := kv in numbers_defined x) kvs.

(** Every value a parser returns satisfies [P]. *)
Definition yields {A : Type} (P : A -> bool) (p : str -> option (A * str))
  : Prop :=
  forall s a r, p s = Some (a, r) -> P a = true.

(** A number from 0 to 10. *)
Definition from_0_to_10 (x : number) : Prop :=
  Number.le (Number.of_int 0) x = true
  /\ Number.le x (Number.of_int 10) = true.

(** Clamping into the interval from 0 to 10, in the words of the
    specification: what is at most 0 becomes 0, what is above 10 becomes
    10, the rest is kept. *)
Definition clamp_0_10 (x : number) : number :=
  if Number.le x (Number.of_int 0) then Number.of_int 0
  else if Number.lt (Number.of_int 10) x then Number.of_int 10
  else x.

(** A text of ASCII characters. *)
Definition is_ascii (s : str) : bool := forallb (fun c => (c <? 128)%N) s.

(** Two characters that are the same, or the same letter of the English
    alphabet in its two cases. *)
Definition same_letter (c d : N) : bool :=
  ((c =? d) || (is_upper c && (d =? c + 32))
   || (is_lower c && (c =? d + 32)))%N.

(** Equality of two texts ignoring case, in the words of the
    specification: the same length, and the same letters place by place. *)
Fixpoint equalsIgnoreCase (a b : str) : bool :=
  match a, b with
  | [], [] => true
  | c :: a, d :: b => same_letter c d && equalsIgnoreCase a b
  | _, _ => false
  end.

(** The analysis of a multiple-choice answer, in the words of the
    specification. *)
Definition mcq_analysis (correct : bool) (correctOption explanation : str)
  (expectedTopics : list str) : jsval :=
  if correct then
    JObj [(lit "score", JNum (Number.of_int 10));
          (lit "feedback", JStr (lit "Correct! " ++ explanation));
          (lit "coveredTopics", topics_json expectedTopics);
          (lit "missingTopics", JArr [])]
  else
    JObj [(lit "score", JNum (Number.of_int 0));
          (lit "feedback",
           JStr (lit "Incorrect. The correct answer is " ++ correctOption
                 ++ lit ". " ++ explanation));
          (lit "coveredTopics", JArr []);
          (lit "missingTopics", topics_json expectedTopics)].

(* ------------------------------------------------------------------ *)
(** ** Sample requests and replies *)

Definition scored_object : str :=
  tq "{~score~: 7, ~feedback~: ~ok~, ~coveredTopics~: [~x~], ~missingTopics~: [~y~]}".

Definition scored_value : list (str * jsval) :=
  [(lit "score", JNum (Number.of_int 7)); (lit "feedback", JStr (lit "ok"));
   (lit "coveredTopics", JArr [JStr (lit "x")]);
   (lit "missingTopics", JArr [JStr (lit "y")])].

(** The same object, one field a line. *)
Definition pretty_object : str :=
  tq "{
  ~score~: 7,
  ~feedback~: ~ok~
}".

(** A reply of the completion API whose completion is the text [content],
    written as a JSON string literal without its quotes. *)
Definition completion (content : str) : fetch_outcome :=
  Replied (mkReply 200 (lit "OK")
             (tq "{~choices~:[{~message~:{~content~:~" ++ content
              ++ tq "~}}]}")).

Definition scoring_host (content : str) : Host :=
  mkHost (Some (lit "key")) 0 250 (completion content).

(** The model leaves [coveredTopics] out of an otherwise valid object. *)
Definition omits_coveredTopics : str :=
  tq "{\~score\~:7,\~feedback\~:\~ok\~,\~missingTopics\~:[\~y\~]}".

(** The model gives [coveredTopics] as a string and [missingTopics] as
    [null]. *)
Definition topics_not_sequences : str :=
  tq "{\~score\~:7,\~feedback\~:\~ok\~,\~coveredTopics\~:\~x\~,\~missingTopics\~:null}".

(** The model scores out of 100. *)
Definition percent_score : str :=
  tq "{\~score\~:85,\~feedback\~:\~ok\~,\~coveredTopics\~:[],\~missingTopics\~:[]}".

Definition mcq_payload (options : list (str * jsval)) (correct : str)
  : list (str * jsval) :=
  [(lit "question", JStr (lit "Which keyword defines a function?"));
   (lit "expectedTopics", JArr [JStr (lit "functions")]);
   (lit "difficulty", JNum (Number.of_int 1));
   (lit "modelAnswer",
    JObj [(lit "options", JObj options);
          (lit "correctOption", JStr correct);
          (lit "explanation", JStr (lit "def starts a definition."))])].

Definition four_options : list (str * jsval) :=
  [(lit "A", JStr (lit "fun")); (lit "B", JStr (lit "def"));
   (lit "C", JStr (lit "let")); (lit "D", JStr (lit "proc"))].

Definition answer_B : AnalyzeBody :=
  mkAnalyzeBody (Some (lit "Which keyword defines a function?"))
    (Some (lit "b")) (Some [lit "functions"; lit "syntax"])
    (Some (lit "MCQ")) (Some (lit "B")) (Some (lit "def starts a definition.")).

Definition python_easy_mcq : QuestionBody :=
  mkQuestionBody (Some (lit "Python")) (Some (lit "Easy")) 1
    (Some (lit "mcq")).

(* ------------------------------------------------------------------ *)
(** ** Vocabulary of the further properties *)

(** The names of the fields the sources ask a parser for: none of them is
    a property that an object or an array inherits, an index or
    [length]. *)
Definition required_names : list str := default_fields ++ scoring_fields.

(** The question of the request is of type [mcq], in any case. *)
Definition multiple_choice (body : AnalyzeBody) : bool :=
  str_eqb (toLowerCase (or_empty (a_questionType body))) (lit "mcq").

(** Why the analysis route refuses a request, if it does: the question,
    the answer, the expected topics or the type is absent or empty, or
    the question is multiple choice and the correct option is absent or
    empty. *)
Definition analyze_refusal (body : AnalyzeBody) : option str :=
  if blank (a_question body) || blank (a_response body)
     || match a_expectedTopics body with Some _ => false | None => true end
     || blank (a_questionType body)
  then Some (lit "Missing required fields")
  else if multiple_choice body && blank (a_correctOption body)
  then Some (lit "Missing correct option for MCQ")
  else None.

(** What follows the first occurrence of [c], nothing if there is none. *)
Fixpoint after_first (c : N) (s : str) : str :=
  match s with
  | [] => []
  | x :: t => if N.eqb c x then t else after_first c t
  end.

(** The text up to and including the last occurrence of [c], nothing if
    there is none. *)
Fixpoint through_last (c : N) (s : str) : str :=
  match s with
  | [] => []
  | x :: t =>
      if existsb (N.eqb c) t then x :: through_last c t
      else if N.eqb c x then [x] else []
  end.

(** [r] is what remains of [s] after a prefix. *)
Definition suffix (r s : str) : Prop := exists p, s = p ++ r.

(** A parser leaves a suffix of what it was given. *)
Definition consumes {A : Type} (p : str -> option (A * str)) : Prop :=
  forall s a r, p s = Some (a, r) -> suffix r s.

(** A parser stops after a closing brace. *)
Definition closes {A : Type} (p : str -> option (A * str)) : Prop :=
  forall s a r, p s = Some (a, r) -> suffix (125%N :: r) s.

(** A parser of values reads as an object only a text of white space, an
    opening brace, and a closing brace before what remains. *)
Definition braced (value : str -> option (jsval * str)) : Prop :=
  forall s kvs r,
    value s = Some (JObj kvs, r) ->
    exists ws body,
      s = ws ++ 123%N :: body ++ 125%N :: r
      /\ forallb Json.is_json_ws ws = true.

(** A well-formed payload of a question that is not multiple choice: the
    model answer is an object whose [content] is a string and, for a
    coding question, whose [isCode] is truthy. *)
Record well_formed_plain (coding : bool) (kvs : list (str * jsval)) : Prop := {
  wp_question : lookup (lit "question") kvs <> None;
  wp_topics : exists topics,
    lookup (lit "expectedTopics") kvs = Some (JArr topics);
  wp_difficulty : exists tier,
    lookup (lit "difficulty") kvs = Some (JNum tier);
  wp_answer : exists answer content,
    lookup (lit "modelAnswer") kvs = Some (JObj answer)
    /\ lookup (lit "content") answer = Some (JStr content)
    /\ (coding = true ->
        exists flag,
          lookup (lit "isCode") answer = Some flag /\ truthy flag = true)
}.

(** The completion API answers with a question of the subjective kind. *)
Definition subjective_question : str :=
  tq "{\~question\~:\~What is a closure?\~,\~expectedTopics\~:[\~scope\~],\~difficulty\~:2,\~modelAnswer\~:{\~isCode\~:false,\~content\~:\~A function with its environment.\~}}".

Definition subjective_value : list (str * jsval) :=
  [(lit "question", JStr (lit "What is a closure?"));
   (lit "expectedTopics", JArr [JStr (lit "scope")]);
   (lit "difficulty", JNum (Number.of_int 2));
   (lit "modelAnswer",
    JObj [(lit "isCode", JBool false);
          (lit "content", JStr (lit "A function with its environment."))])].

(* ================================================================== *)
(** * Properties *)

(* ------------------------------------------------------------------ *)
(** ** Strings *)

Lemma str_eqb_spec (a b : str) : str_eqb a b = true <-> a = b.
Proof.
  revert b; induction a as [|x a IH]; intros [|y b]; simpl; split;
    try congruence; try discriminate; auto.
  - rewrite andb_true_iff, N.eqb_eq, IH. intros [-> ->]; reflexivity.
  - intros E; injection E as -> ->. rewrite N.eqb_refl; simpl. now apply IH.
Qed.

Lemma str_eqb_refl (a : str) : str_eqb a a = true.
Proof. now apply str_eqb_spec. Qed.

Lemma str_eqb_sym (a b : str) : str_eqb a b = str_eqb b a.
Proof.
  destruct (str_eqb a b) eqn:E.
  - apply str_eqb_spec in E; subst; symmetry; apply str_eqb_refl.
  - destruct (str_eqb b a) eqn:E'; [|reflexivity].
    apply str_eqb_spec in E'; subst. now rewrite str_eqb_refl in E.
Qed.

Lemma mem_In (x : str) (l : list str) : mem x l = true <-> In x l.
Proof.
  unfold mem. rewrite existsb_exists. split.
  - intros (y & Hy & E). apply str_eqb_spec in E. now subst.
  - intros H. exists x. split; [exact H|apply str_eqb_refl].
Qed.

Lemma lower_not_upper (c : N) :
  is_upper (if is_upper c then (c + 32)%N else c) = false.
Proof.
  destruct (is_upper c) eqn:E; [|exact E].
  unfold is_upper in *. apply andb_true_iff in E as [E1 E2].
  apply N.leb_le in E1, E2. apply andb_false_iff. right.
  apply N.leb_gt. lia.
Qed.

(** A lower-cased string differs from any string that begins with a
    capital letter. *)
Lemma toLowerCase_neq_capitalized (s : str) (x : N) (t : str) :
  is_upper x = true -> str_eqb (toLowerCase s) (x :: t) = false.
Proof.
  intros Hx. destruct s as [|c s']; [reflexivity|].
  cbn [toLowerCase map str_eqb].
  destruct (N.eqb_spec (if is_upper c then (c + 32)%N else c) x) as [E|E];
    [|reflexivity].
  pose proof (lower_not_upper c) as H. rewrite E in H. congruence.
Qed.

(* ------------------------------------------------------------------ *)
(** ** The fuel of [JSON.parse]

    Every parser leaves less than it was given, and from twice the length
    of the text on the fuel has no part in the result: a [None] of
    [Json.parse] is a text that is not JSON. *)

(** Texts and their values; texts that are not JSON. *)
Example parse_values :
  map Json.parse
    [tq " {~a~: [1.5e1, -0.25, true, null], ~b~: ~x\u0041\n~, ~a~: {}} ";
     tq "[1, 2,]"; tq "{a: 1}"; tq "01"; tq "~tab	inside~"; lit "{} {}"]
  = [Some (JObj [(lit "a", JObj []); (lit "b", JStr [120; 65; 10]%N)]);
     None; None; None; None; None].
Proof. vm_compute. reflexivity. Qed.

Module JsonFuel.
Import Json.

Lemma skip_ws_length (s : str) : (length (skip_ws s) <= length s)%nat.
Proof.
  induction s as [|c t IH]; simpl; [lia|].
  destruct (is_json_ws c); simpl; lia.
Qed.

Lemma skip_ws_cons (s : str) (c : N) (t : str) :
  skip_ws s = c :: t -> (length t < length s)%nat.
Proof.
  intros H. pose proof (skip_ws_length s) as L. rewrite H in L.
  simpl in L. lia.
Qed.

Lemma parse_string_body_length (s v r : str) :
  parse_string_body s = Some (v, r) -> (length r < length s)%nat.
Proof.
  remember (length s) as n eqn:Hn. revert s v r Hn.
  induction n as [n IH] using lt_wf_ind. intros s v r Hn.
  destruct s as [|c t]; [discriminate|]. cbn [parse_string_body].
  destruct (c =? 34)%N.
  { intros H; injection H as _ <-. simpl in *. lia. }
  destruct (c =? 92)%N.
  - destruct t as [|e t1]; [discriminate|].
    destruct (e =? 117)%N.
    + destruct t1 as [|h1 [|h2 [|h3 [|h4 t2]]]]; try discriminate.
      destruct (hex4 h1 h2 h3 h4); [|discriminate].
      destruct (parse_string_body t2) as [[v' r']|] eqn:E; [|discriminate].
      intros H; injection H as _ <-.
      pose proof (IH (length t2) ltac:(subst n; simpl; lia) t2 v' r'
                    eq_refl E).
      subst n; simpl; lia.
    + destruct (unescape e); [|discriminate].
      destruct (parse_string_body t1) as [[v' r']|] eqn:E; [|discriminate].
      intros H; injection H as _ <-.
      pose proof (IH (length t1) ltac:(subst n; simpl; lia) t1 v' r'
                    eq_refl E).
      subst n; simpl; lia.
  - destruct (c <? 32)%N; [discriminate|].
    destruct (parse_string_body t) as [[v' r']|] eqn:E; [|discriminate].
    intros H; injection H as _ <-.
    pose proof (IH (length t) ltac:(subst n; simpl; lia) t v' r' eq_refl E).
    subst n; simpl; lia.
Qed.

Lemma take_digits_length (s d r : str) :
  take_digits s = (d, r) -> length s = (length d + length r)%nat.
Proof.
  revert d r. induction s as [|c t IH]; intros d r; cbn [take_digits].
  - intros H; injection H as <- <-. reflexivity.
  - destruct (is_digit c).
    + destruct (take_digits t) as [d' r'].
      intros H; injection H as <- <-. simpl. now rewrite (IH d' r' eq_refl).
    + intros H; injection H as <- <-. reflexivity.
Qed.

Lemma parse_exponent_length (s r : str) (e : Z) :
  parse_exponent s = Some (e, r) -> (length r <= length s)%nat.
Proof.
  unfold parse_exponent. destruct s as [|c t].
  { intros H; injection H as _ <-. lia. }
  destruct ((c =? 101) || (c =? 69))%N.
  2:{ intros H; injection H as _ <-. lia. }
  match goal with
  | |- (let '(neg, t1) := ?X in _) = _ -> _ =>
      destruct X as [neg t1] eqn:EX
  end.
  assert (length t1 <= length t)%nat as L.
  { destruct t as [|sg t']; [injection EX as _ <-; lia|].
    destruct (sg =? 45)%N; [injection EX as _ <-; simpl; lia|].
    destruct (sg =? 43)%N; injection EX as _ <-; simpl; lia. }
  destruct (take_digits t1) as [[|d ds] r0] eqn:E; [discriminate|].
  intros H; injection H as _ <-.
  apply take_digits_length in E. simpl in *. lia.
Qed.

Lemma parse_fraction_length (s fs r : str) :
  parse_fraction s = Some (fs, r) -> (length r <= length s)%nat.
Proof.
  unfold parse_fraction. destruct s as [|c t].
  { intros H; injection H as _ <-. lia. }
  destruct (c =? 46)%N.
  - destruct (take_digits t) as [[|d ds] r0] eqn:E; [discriminate|].
    intros H; injection H as _ <-.
    apply take_digits_length in E. simpl in *. lia.
  - intros H; injection H as _ <-. lia.
Qed.

Lemma parse_number_length (s r : str) (q : number) :
  parse_number s = Some (q, r) -> (length r < length s)%nat.
Proof.
  unfold parse_number.
  match goal with
  | |- (let '(neg, s1) := ?X in _) = _ -> _ =>
      destruct X as [neg s1] eqn:EX
  end.
  assert (length s1 <= length s)%nat as L.
  { destruct s as [|c t]; [injection EX as _ <-; lia|].
    destruct (c =? 45)%N; injection EX as _ <-; simpl; lia. }
  destruct (take_digits s1) as [[|d ds] s2] eqn:E; [discriminate|].
  destruct ((d =? 48)%N && _); [discriminate|].
  destruct (parse_fraction s2) as [[fs s3]|] eqn:Ef; [|discriminate].
  destruct (parse_exponent s3) as [[e s4]|] eqn:Ee; [|discriminate].
  intros H; injection H as _ <-.
  apply take_digits_length in E. apply parse_fraction_length in Ef.
  apply parse_exponent_length in Ee. simpl in *. lia.
Qed.

Lemma skipn_shorter (n : nat) (s : str) :
  (0 < n)%nat -> s <> [] -> (length (skipn n s) < length s)%nat.
Proof.
  intros Hn Hs. rewrite length_skipn. destruct s; [congruence|].
  cbn [length]. lia.
Qed.

Lemma value_step_shrinks members elements :
  shrinks members -> shrinks elements ->
  shrinks (value_step members elements).
Proof.
  intros Hm He s v r. unfold value_step.
  destruct (skip_ws s) as [|c t] eqn:Es; [discriminate|].
  pose proof (skip_ws_cons _ _ _ Es) as Lt.
  pose proof (skip_ws_length s) as Ls. rewrite Es in Ls. cbn [length] in Ls.
  destruct (c =? 123)%N.
  { destruct (skip_ws t) as [|c' t'] eqn:Et; [discriminate|].
    pose proof (skip_ws_cons _ _ _ Et) as Lt'.
    destruct (c' =? 125)%N; [intros H; injection H as _ <-; lia|].
    destruct (members t) as [[kvs r']|] eqn:E; [|discriminate].
    intros H; injection H as _ <-. apply Hm in E. lia. }
  destruct (c =? 91)%N.
  { destruct (skip_ws t) as [|c' t'] eqn:Et; [discriminate|].
    pose proof (skip_ws_cons _ _ _ Et) as Lt'.
    destruct (c' =? 93)%N; [intros H; injection H as _ <-; lia|].
    destruct (elements t) as [[vs r']|] eqn:E; [|discriminate].
    intros H; injection H as _ <-. apply He in E. lia. }
  destruct (c =? 34)%N.
  { destruct (parse_string_body t) as [[v' r']|] eqn:E; [|discriminate].
    intros H; injection H as _ <-. apply parse_string_body_length in E. lia. }
  destruct ((c =? 45)%N || is_digit c).
  { destruct (parse_number (c :: t)) as [[q r']|] eqn:E; [|discriminate].
    intros H; injection H as _ <-. apply parse_number_length in E.
    simpl in E. lia. }
  assert (forall n, (0 < n)%nat ->
            (length (skipn n (c :: t)) < length s)%nat) as K.
  { intros n Hn. pose proof (skipn_shorter n (c :: t) Hn ltac:(discriminate)).
    simpl in *. lia. }
  destruct (startsWith (lit "true") (c :: t));
    [intros H; injection H as _ <-; apply (K 4%nat); lia|].
  destruct (startsWith (lit "false") (c :: t));
    [intros H; injection H as _ <-; apply (K 5%nat); lia|].
  destruct (startsWith (lit "null") (c :: t));
    [intros H; injection H as _ <-; apply (K 4%nat); lia|discriminate].
Qed.

Lemma elements_step_shrinks value elements :
  shrinks value -> shrinks elements ->
  shrinks (elements_step value elements).
Proof.
  intros Hv He s vs r. unfold elements_step.
  destruct (value s) as [[v r1]|] eqn:E1; [|discriminate].
  apply Hv in E1.
  destruct (skip_ws r1) as [|c t] eqn:Es; [discriminate|].
  apply skip_ws_cons in Es.
  destruct (c =? 44)%N.
  - destruct (elements t) as [[vs' r']|] eqn:E2; [|discriminate].
    intros H; injection H as _ <-. apply He in E2. lia.
  - destruct (c =? 93)%N; [|discriminate].
    intros H; injection H as _ <-. lia.
Qed.

Lemma members_step_shrinks value members :
  shrinks value -> shrinks members ->
  shrinks (members_step value members).
Proof.
  intros Hv Hm s kvs r. unfold members_step.
  destruct (skip_ws s) as [|c t] eqn:Es; [discriminate|].
  apply skip_ws_cons in Es.
  destruct (c =? 34)%N; [|discriminate].
  destruct (parse_string_body t) as [[k r1]|] eqn:Ek; [|discriminate].
  apply parse_string_body_length in Ek.
  destruct (skip_ws r1) as [|c2 t2] eqn:E2; [discriminate|].
  apply skip_ws_cons in E2.
  destruct (c2 =? 58)%N; [|discriminate].
  destruct (value t2) as [[v r2]|] eqn:Ev; [|discriminate].
  apply Hv in Ev.
  destruct (skip_ws r2) as [|c3 t3] eqn:E3; [discriminate|].
  apply skip_ws_cons in E3.
  destruct (c3 =? 44)%N.
  - destruct (members t3) as [[kvs' r3]|] eqn:Em; [|discriminate].
    intros H; injection H as _ <-. apply Hm in Em. lia.
  - destruct (c3 =? 125)%N; [|discriminate].
    intros H; injection H as _ <-. lia.
Qed.

Lemma parse_shrinks (fuel : nat) :
  shrinks (parse_value fuel) /\ shrinks (parse_elements fuel)
  /\ shrinks (parse_members fuel).
Proof.
  induction fuel as [|f (Hv & He & Hm)].
  - repeat split; intros s a r H; discriminate.
  - repeat split; cbn [parse_value parse_elements parse_members].
    + now apply value_step_shrinks.
    + now apply elements_step_shrinks.
    + now apply members_step_shrinks.
Qed.

(** Each step looks at its parsers on shorter texts only. *)
Lemma value_step_ext members1 members2 elements1 elements2 (s : str) :
  (forall t, (length t < length s)%nat -> members1 t = members2 t) ->
  (forall t, (length t < length s)%nat -> elements1 t = elements2 t) ->
  value_step members1 elements1 s = value_step members2 elements2 s.
Proof.
  intros Hm He. unfold value_step.
  destruct (skip_ws s) as [|c t] eqn:Es; [reflexivity|].
  apply skip_ws_cons in Es.
  now rewrite (Hm t Es), (He t Es).
Qed.

Lemma elements_step_ext value1 value2 elements1 elements2 (s : str) :
  value1 s = value2 s -> shrinks value1 ->
  (forall t, (length t + 2 <= length s)%nat -> elements1 t = elements2 t) ->
  elements_step value1 elements1 s = elements_step value2 elements2 s.
Proof.
  intros Hv Hs He. unfold elements_step. rewrite <- Hv.
  destruct (value1 s) as [[v r]|] eqn:E; [|reflexivity].
  apply Hs in E.
  destruct (skip_ws r) as [|c t] eqn:Er; [reflexivity|].
  apply skip_ws_cons in Er.
  now rewrite (He t ltac:(lia)).
Qed.

Lemma members_step_ext value1 value2 members1 members2 (s : str) :
  (forall t, (length t + 3 <= length s)%nat -> value1 t = value2 t) ->
  shrinks value1 ->
  (forall t, (length t + 5 <= length s)%nat -> members1 t = members2 t) ->
  members_step value1 members1 s = members_step value2 members2 s.
Proof.
  intros Hv Hs Hm. unfold members_step.
  destruct (skip_ws s) as [|c t] eqn:Es; [reflexivity|].
  apply skip_ws_cons in Es.
  destruct (c =? 34)%N; [|reflexivity].
  destruct (parse_string_body t) as [[k r]|] eqn:Ek; [|reflexivity].
  apply parse_string_body_length in Ek.
  destruct (skip_ws r) as [|c2 t2] eqn:E2; [reflexivity|].
  apply skip_ws_cons in E2.
  destruct (c2 =? 58)%N; [|reflexivity].
  rewrite <- (Hv t2 ltac:(lia)).
  destruct (value1 t2) as [[v r2]|] eqn:Ev; [|reflexivity].
  apply Hs in Ev.
  destruct (skip_ws r2) as [|c3 t3] eqn:E3; [reflexivity|].
  apply skip_ws_cons in E3.
  now rewrite (Hm t3 ltac:(lia)).
Qed.

(** From these thresholds on, more fuel changes nothing. *)
Lemma parse_fuel_irrelevant (f g : nat) :
  (forall s, (2 * length s + 1 <= f)%nat -> (2 * length s + 1 <= g)%nat ->
             parse_value f s = parse_value g s)
  /\ (forall s, (2 * length s + 2 <= f)%nat -> (2 * length s + 2 <= g)%nat ->
                parse_elements f s = parse_elements g s)
  /\ (forall s, (2 * length s + 1 <= f)%nat -> (2 * length s + 1 <= g)%nat ->
                parse_members f s = parse_members g s).
Proof.
  revert g. induction f as [|f IH]; intros g.
  { repeat split; intros s Hf; lia. }
  destruct g as [|g]; [repeat split; intros s _ Hg; lia|].
  destruct (IH g) as (IHv & IHe & IHm).
  destruct (parse_shrinks f) as (Sv & _ & _).
  repeat split; intros s Hf Hg;
    cbn [parse_value parse_elements parse_members].
  - apply value_step_ext; intros t Ht; [apply IHm|apply IHe]; lia.
  - apply elements_step_ext; [apply IHv; lia|exact Sv|].
    intros t Ht. apply IHe; lia.
  - apply members_step_ext; [|exact Sv|].
    + intros t Ht. apply IHv; lia.
    + intros t Ht. apply IHm; lia.
Qed.

(** The fuel [Json.parse] gives is enough: any larger amount leads to the
    same result. *)
Theorem parse_value_fuel (s : str) (fuel : nat) :
  (2 * length s + 2 <= fuel)%nat ->
  parse_value fuel s = parse_value (2 * length s + 2) s.
Proof.
  intros H. apply (proj1 (parse_fuel_irrelevant fuel (2 * length s + 2)));
    lia.
Qed.

(** [Json.parse] with any larger fuel is [Json.parse]. *)
Corollary parse_fuel (s : str) (fuel : nat) :
  (2 * length s + 2 <= fuel)%nat ->
  parse s =
  match parse_value fuel s with
  | Some (v, r) => match skip_ws r with [] => Some v | _ => None end
  | None => None
  end.
Proof. intros H. unfold parse. now rewrite (parse_value_fuel s fuel H). Qed.

End JsonFuel.

(* ------------------------------------------------------------------ *)
(** ** The fuel of the greedy loop and of the URI decoder *)

(** Matching depends on its continuation only through the continuation's
    results. *)
Lemma rmatch_ext (r : regex) (k1 k2 : cont) :
  (forall pos s c, k1 pos s c = k2 pos s c) ->
  forall pos s c, rmatch r k1 pos s c = rmatch r k2 pos s c.
Proof.
  revert k1 k2.
  induction r as [|f| | |a IHa b IHb|a IHa b IHb|a IHa|i a IHa];
    intros k1 k2 H pos s c; cbn [rmatch].
  - apply H.
  - destruct s as [|x t]; [reflexivity|]. destruct (f x); [apply H|reflexivity].
  - destruct (Nat.eqb pos 0); [apply H|reflexivity].
  - destruct s; [apply H|reflexivity].
  - apply IHa. intros pos' s' c'. now apply IHb.
  - rewrite (IHa k1 k2 H), (IHb k1 k2 H). reflexivity.
  - generalize (S (length s)) as fuel. intros fuel. revert pos s c.
    induction fuel as [|fuel IHf]; intros pos s c; cbn [star_loop];
      [apply H|].
    rewrite (IHa _ (fun pos' s' c' =>
                      if Nat.ltb (length s') (length s)
                      then star_loop (rmatch a) k2 fuel pos' s' c'
                      else None)).
    + now rewrite H.
    + intros pos' s' c'. destruct (Nat.ltb _ _); [apply IHf|reflexivity].
  - apply IHa. intros pos' s' c'. apply H.
Qed.

(** The loop of [Star] never stops for want of fuel: any amount above the
    length of the input gives the same match. *)
Theorem star_loop_fuel (r : regex) (k : cont) (s : str) (a b : nat) :
  (length s < a)%nat -> (length s < b)%nat ->
  forall pos c,
    star_loop (rmatch r) k a pos s c = star_loop (rmatch r) k b pos s c.
Proof.
  remember (length s) as n eqn:Hn. revert s Hn a b.
  induction n as [n IH] using lt_wf_ind. intros s Hn a b Ha Hb pos c.
  destruct a as [|a]; [lia|]. destruct b as [|b]; [lia|].
  cbn [star_loop].
  rewrite (rmatch_ext r _ (fun pos' s' c' =>
                             if Nat.ltb (length s') (length s)
                             then star_loop (rmatch r) k b pos' s' c'
                             else None)); [reflexivity|].
  intros pos' s' c'. destruct (Nat.ltb_spec (length s') (length s)) as [L|L];
    [|reflexivity].
  apply (IH (length s')); subst; auto; lia.
Qed.

Lemma decode_step_shorter (c : N) (t u r : str) :
  Uri.decode_step c t = Some (u, r) -> (length r <= length t)%nat.
Proof.
  assert (forall s b t', Uri.octet s = Some (b, t') ->
            (length t' + 3 <= length s)%nat) as Ho.
  { intros s b t'. unfold Uri.octet.
    destruct s as [|p [|h1 [|h2 t0]]]; try discriminate.
    destruct (p =? 37)%N; [|discriminate].
    destruct (Json.hex_value h1), (Json.hex_value h2); try discriminate.
    intros H; injection H as _ <-. simpl. lia. }
  assert (forall s b t', Uri.continuation s = Some (b, t') ->
            (length t' + 3 <= length s)%nat) as Hc.
  { intros s b t'. unfold Uri.continuation.
    destruct (Uri.octet s) as [[b0 t0]|] eqn:E; [|discriminate].
    destruct ((128 <=? b0)%N && (b0 <? 192)%N); [|discriminate].
    intros H; injection H as _ <-. now apply Ho in E. }
  unfold Uri.decode_step.
  destruct (negb (c =? 37)%N); [intros H; injection H as _ <-; lia|].
  destruct (Uri.octet (c :: t)) as [[b t1]|] eqn:E1; [|discriminate].
  apply Ho in E1. cbn [length] in E1.
  destruct (b <? 128)%N; [intros H; injection H as _ <-; lia|].
  destruct ((192 <=? b)%N && (b <? 224)%N).
  { destruct (Uri.continuation t1) as [[x t2]|] eqn:E2; [|discriminate].
    apply Hc in E2.
    destruct (_ <? 128)%N; [discriminate|].
    intros H; injection H as _ <-. lia. }
  destruct ((224 <=? b)%N && (b <? 240)%N).
  { destruct (Uri.continuation t1) as [[x t2]|] eqn:E2; [|discriminate].
    destruct (Uri.continuation t2) as [[y t3]|] eqn:E3; [|discriminate].
    apply Hc in E2, E3.
    destruct (_ || _); [discriminate|].
    intros H; injection H as _ <-. lia. }
  destruct ((240 <=? b)%N && (b <? 248)%N); [|discriminate].
  destruct (Uri.continuation t1) as [[x t2]|] eqn:E2; [|discriminate].
  destruct (Uri.continuation t2) as [[y t3]|] eqn:E3; [|discriminate].
  destruct (Uri.continuation t3) as [[z t4]|] eqn:E4; [|discriminate].
  apply Hc in E2, E3, E4.
  destruct (_ || _); [discriminate|].
  intros H; injection H as _ <-. lia.
Qed.

(** Replacements as the language defines them: an empty match is replaced
    and the search resumes one code unit further; the first replacement of
    the repair pass trims; a group reference repeats what the group took. *)
Example replace_all_values :
  replace_all (Star (one 97)) [Lit (lit "X")] (lit "baac") = lit "XbXXcX"
  /\ replace_all re_trim [] (lit "  a b  ") = lit "a b"
  /\ replace_all re_trim [] (lit "   ") = []
  /\ replace_all re_unquoted_key [Ref 1; Lit [34%N]; Ref 2; Lit [34%N]; Ref 3]
       (lit "{a: 1, b c: 2,d :3}") = tq "{~a~: 1, b c: 2,~d~ :3}"
  /\ match_first re_json_object (lit "a } b { c } d { e") = Some (lit "{ c }").
Proof. repeat split; vm_compute; reflexivity. Qed.

(** Decoded components, and components that raise a [URIError]. *)
Example decodeURIComponent_values :
  map decodeURIComponent
    [lit "C%2B%2B"; lit "Node.js"; lit "%E2%82%AC"; lit "%F0%9F%98%80";
     lit "100%"; lit "%C0%80"; lit "%ED%A0%80"]
  = [ok (lit "C++"); ok (lit "Node.js"); ok [8364%N]; ok [55357%N; 56832%N];
     throw URIError; throw URIError; throw URIError].
Proof. vm_compute. reflexivity. Qed.

(** The decoder never stops for want of fuel either. *)
Theorem decode_fuel (s : str) (fuel : nat) :
  (length s <= fuel)%nat -> Uri.decode fuel s = Uri.decode (length s) s.
Proof.
  remember (length s) as n eqn:Hn. revert s Hn fuel.
  induction n as [n IH] using lt_wf_ind. intros s Hn fuel Hf.
  destruct s as [|c t]; [destruct fuel; subst; reflexivity|].
  subst n. cbn [length] in *.
  destruct fuel as [|fuel]; [lia|]. cbn [Uri.decode].
  destruct (Uri.decode_step c t) as [[u r]|] eqn:E; [|reflexivity].
  apply decode_step_shorter in E.
  rewrite (IH (length r) ltac:(lia) r eq_refl fuel ltac:(lia)).
  rewrite (IH (length r) ltac:(lia) r eq_refl (length t) E).
  reflexivity.
Qed.

(* ------------------------------------------------------------------ *)
(** ** Objects *)

Lemma lookup_assign_same (k : str) (v : jsval) (kvs : list (str * jsval)) :
  lookup k (assign k v kvs) = Some v.
Proof.
  induction kvs as [|[k' v'] t IH]; simpl.
  - now rewrite str_eqb_refl.
  - destruct (str_eqb k k') eqn:E; simpl; rewrite E; auto.
Qed.

Lemma lookup_assign_other (k k' : str) (v : jsval) (kvs : list (str * jsval)) :
  str_eqb k k' = false -> lookup k (assign k' v kvs) = lookup k kvs.
Proof.
  intros Hk; induction kvs as [|[k1 v1] t IH]; simpl.
  - now rewrite Hk.
  - destruct (str_eqb k' k1) eqn:E; simpl.
    + apply str_eqb_spec in E; subst k1. now rewrite Hk.
    + now rewrite IH.
Qed.

Lemma get_opt_object (kvs : list (str * jsval)) (k : str) :
  get_opt (JObj kvs) k =
  match lookup k kvs with Some x => x | None => JUndefined end.
Proof. reflexivity. Qed.

Lemma get_opt_set_same (kvs : list (str * jsval)) (k : str) (v : jsval) :
  get_opt (set (JObj kvs) k v) k = v.
Proof. simpl. rewrite get_opt_object, lookup_assign_same; reflexivity. Qed.

Lemma get_opt_set_other (kvs : list (str * jsval)) (k k' : str) (v : jsval) :
  str_eqb k k' = false ->
  get_opt (set (JObj kvs) k' v) k = get_opt (JObj kvs) k.
Proof.
  intros Hk. simpl. rewrite !get_opt_object, lookup_assign_other; auto.
Qed.

(** A value with a property to read is an object. *)
Lemma get_opt_defined (v : jsval) (k : str) :
  get_opt v k <> JUndefined -> exists kvs, v = JObj kvs.
Proof.
  destruct v; cbn; intros H; try (exfalso; apply H; reflexivity); eauto.
Qed.

Lemma get_opt_lookup (kvs : list (str * jsval)) (k : str) (x : jsval) :
  get_opt (JObj kvs) k = x -> x <> JUndefined -> lookup k kvs = Some x.
Proof.
  rewrite get_opt_object. destruct (lookup k kvs); congruence.
Qed.

Lemma get_ok_get_opt (v x : jsval) (k : str) : get v k = ok x -> get_opt v k = x.
Proof. unfold get_opt. now intros ->. Qed.

Lemma get_object (kvs : list (str * jsval)) (k : str) (x : jsval) :
  lookup k kvs = Some x -> get (JObj kvs) k = ok x.
Proof. simpl. now intros ->. Qed.

(** All of [fields] are there exactly when none is reported missing. *)
Lemma missing_fields_none (fields : list str) (kvs : list (str * jsval)) :
  (forall f, In f fields -> lookup f kvs <> None) ->
  missing_fields fields (JObj kvs) = ok [].
Proof.
  induction fields as [|f t IH]; intros H; simpl; [reflexivity|].
  rewrite IH by (intros g Hg; apply H; now right).
  specialize (H f (or_introl eq_refl)).
  destruct (lookup f kvs); [reflexivity|congruence].
Qed.

Lemma missing_fields_ok_nil (fields : list str) (v : jsval) :
  missing_fields fields v = ok [] ->
  forall f, In f fields -> has f v = ok true.
Proof.
  induction fields as [|g t IH]; simpl; intros H f Hf; [contradiction|].
  destruct (has g v) as [e|b] eqn:Hg; simpl in H; [discriminate|].
  destruct (missing_fields t v) as [e|rest] eqn:Ht; simpl in H; [discriminate|].
  destruct b.
  - injection H as ->. destruct Hf as [<-|Hf]; auto.
  - discriminate.
Qed.

Lemma has_true_object (f : str) (v : jsval) :
  has f v = ok true -> exists kvs x, v = JObj kvs /\ lookup f kvs = Some x.
Proof.
  destruct v; simpl; try discriminate.
  intros H. destruct (lookup f kvs) eqn:E; [eauto|discriminate].
Qed.

(* ------------------------------------------------------------------ *)
(** ** The rate limiter *)

Lemma waitForRateLimit_stamp (lag : Z) (w : World) :
  lastRequestTime (waitForRateLimit lag w) = clock (waitForRateLimit lag w).
Proof. reflexivity. Qed.

Lemma timer_delay_cases (ms : Z) :
  (1 <= ms <= 2147483647 /\ timer_delay ms = ms)
  \/ ((ms < 1 \/ 2147483647 < ms) /\ timer_delay ms = 1).
Proof.
  unfold timer_delay.
  destruct (Z.ltb_spec ms 1); [right; split; [lia|reflexivity]|].
  destruct (Z.ltb_spec 2147483647 ms); [right|left]; cbn [orb]; split;
    try reflexivity; lia.
Qed.

Lemma waitForRateLimit_clock (lag : Z) (w : World) :
  clock (waitForRateLimit lag w) =
  if clock w - lastRequestTime w <? MIN_REQUEST_INTERVAL
  then clock w
       + timer_delay (MIN_REQUEST_INTERVAL - (clock w - lastRequestTime w))
       + lag
  else clock w.
Proof.
  unfold waitForRateLimit, sleep, elapse.
  destruct (clock w - lastRequestTime w <? MIN_REQUEST_INTERVAL);
    cbn [clock]; [lia|reflexivity].
Qed.

Lemma waitForRateLimit_posted (lag : Z) (w : World) :
  posted (waitForRateLimit lag w) = posted w.
Proof.
  unfold waitForRateLimit.
  destruct (clock w - lastRequestTime w <? MIN_REQUEST_INTERVAL); reflexivity.
Qed.

(** A call returns, after a wait bounded by the interval and the lag of
    its timer. *)
Lemma waitForRateLimit_bound (lag : Z) (w : World) :
  clock (waitForRateLimit lag w) <=
  Z.max (clock w) (lastRequestTime w + MIN_REQUEST_INTERVAL + lag).
Proof.
  rewrite waitForRateLimit_clock. unfold MIN_REQUEST_INTERVAL.
  destruct (Z.ltb_spec (clock w - lastRequestTime w) 3000) as [E|E]; [|lia].
  destruct (timer_delay_cases (3000 - (clock w - lastRequestTime w)))
    as [[? ->]|[? ->]]; lia.
Qed.

(** When the previous stamp is not ahead of the clock, a call that finds
    less than the interval elapsed asks its timer for the rest of it, and
    returns when the interval and the lag of the timer have passed since
    that stamp; a call that finds the interval elapsed returns at once. *)
Lemma waitForRateLimit_interval (lag : Z) (w : World) :
  lastRequestTime w <= clock w ->
  clock (waitForRateLimit lag w) =
  if clock w - lastRequestTime w <? MIN_REQUEST_INTERVAL
  then lastRequestTime w + MIN_REQUEST_INTERVAL + lag
  else clock w.
Proof.
  intros Hpast. rewrite waitForRateLimit_clock. unfold MIN_REQUEST_INTERVAL.
  destruct (Z.ltb_spec (clock w - lastRequestTime w) 3000) as [E|E];
    [|reflexivity].
  destruct (timer_delay_cases (3000 - (clock w - lastRequestTime w)))
    as [[? ->]|[? ->]]; lia.
Qed.

(** A stamp far ahead of the clock (the wall clock was set back by more
    than the largest timer delay) makes the delay asked for overflow: the
    timer fires at once. *)
Example stamp_far_ahead :
  waitForRateLimit 0 (mkWorld 0 2147483648 []) = mkWorld 1 1 [].
Proof. reflexivity. Qed.

(** C9, counterexample.  Two calls one right after the other, the timer of
    the second firing one millisecond early by the wall clock: the second
    call returns 2999 ms after the timestamp the first one recorded. *)
Lemma timer_early_by_the_wall_clock :
  let w1 := waitForRateLimit 0 (initial_world 10000) in
  let w2 := waitForRateLimit (-1) w1 in
  lastRequestTime w1 = 10000
  /\ clock w2 = 12999
  /\ (lastRequestTime w1 + MIN_REQUEST_INTERVAL <=? clock w2) = false.
Proof. repeat split. Qed.

(** C9, as the code has it.  Two consecutive calls of the wait operation,
    with any time [idle] between them (the clock does not go back) and
    any lag of the timers: each call records the clock at its return as
    the new last-request timestamp.  The second call, when less than the
    minimum interval of 3000 ms has passed since the timestamp the first
    one recorded, asks its timer for the rest of the interval and returns
    when the timer fires: the interval and the lag of its timer after that
    timestamp, which is at least the interval unless the timer fires early
    by the wall clock.  Each call returns, after a wait bounded by the
    interval and the lag of its timer. *)
Theorem waitForRateLimit_spacing (lag1 lag2 : Z) (idle : N) (w : World) :
  let w1 := waitForRateLimit lag1 w in
  let w2 := waitForRateLimit lag2 (elapse (Z.of_N idle) w1) in
  MIN_REQUEST_INTERVAL = 3000
  /\ lastRequestTime w1 = clock w1
  /\ lastRequestTime w2 = clock w2
  /\ clock w2
     = (if Z.of_N idle <? MIN_REQUEST_INTERVAL
        then lastRequestTime w1 + MIN_REQUEST_INTERVAL + lag2
        else lastRequestTime w1 + Z.of_N idle)
  /\ (0 <= lag2 -> lastRequestTime w1 + MIN_REQUEST_INTERVAL <= clock w2)
  /\ lastRequestTime w1 + MIN_REQUEST_INTERVAL + Z.min 0 lag2 <= clock w2
  /\ clock w1 <= Z.max (clock w)
                   (lastRequestTime w + MIN_REQUEST_INTERVAL + lag1)
  /\ clock w2 <= clock w1 + Z.of_N idle + MIN_REQUEST_INTERVAL + Z.max 0 lag2.
Proof.
  cbv zeta.
  pose proof (waitForRateLimit_bound lag1 w) as H1.
  pose proof (waitForRateLimit_interval lag2
                (elapse (Z.of_N idle) (waitForRateLimit lag1 w))) as H2.
  unfold elapse in *. cbn [clock lastRequestTime] in H2.
  rewrite (waitForRateLimit_stamp lag1 w) in *.
  specialize (H2 ltac:(lia)).
  replace (clock (waitForRateLimit lag1 w) + Z.of_N idle
           - clock (waitForRateLimit lag1 w)) with (Z.of_N idle) in H2 by lia.
  rewrite waitForRateLimit_stamp.
  unfold MIN_REQUEST_INTERVAL in *.
  destruct (Z.ltb_spec (Z.of_N idle) 3000);
    repeat split; try reflexivity; lia.
Qed.

(* ------------------------------------------------------------------ *)
(** ** The client without a credential *)

(** C10. Without a configured credential [makeGroqRequest] throws before it
    waits for the rate limiter and before it posts anything, and so do
    [generateQuestion] and [analyzeResponse]: the world (clock,
    last-request timestamp, requests posted) is the one before the call. *)
Theorem unconfigured_leaves_world (h : Host) (w : World)
  (prompt technology difficulty questionType question response : str)
  (questionNumber : Z) (expectedTopics : list str) :
  key_missing h = true ->
  let failure := throw (Error (lit "GROQ API key is not configured")) in
  makeGroqRequest prompt h w = (w, failure)
  /\ generateQuestion technology difficulty questionNumber questionType h w
     = (w, failure)
  /\ analyzeResponse question response expectedTopics h w = (w, failure).
Proof.
  intros Hk. cbv zeta.
  unfold generateQuestion, analyzeResponse, makeGroqRequest.
  rewrite Hk. repeat split; reflexivity.
Qed.

Lemma unconfigured_leaves_world_witness :
  let h := mkHost None 0 0 NetworkFailure in
  let w := mkWorld 5000 4000 [lit "earlier prompt"] in
  key_missing h = true
  /\ makeGroqRequest (lit "p") h w
     = (w, throw (Error (lit "GROQ API key is not configured")))
  /\ lastRequestTime (fst (makeGroqRequest (lit "p") h w)) = 4000.
Proof.
  cbv zeta.
  pose proof (unconfigured_leaves_world (mkHost None 0 0 NetworkFailure)
                (mkWorld 5000 4000 [lit "earlier prompt"])
                (lit "p") [] [] [] [] [] 0 [] eq_refl) as (H & _ & _).
  split; [reflexivity|]. split; [exact H|]. now rewrite H.
Defined.

(** With a credential the rate limiter is consulted and the request is
    posted: the error above is the only outcome that leaves the world
    alone. *)
Lemma configured_posts (prompt : str) (h : Host) (w : World) :
  key_missing h = false ->
  posted (fst (makeGroqRequest prompt h w)) = prompt :: posted w
  /\ lastRequestTime (fst (makeGroqRequest prompt h w))
     = clock (waitForRateLimit (timer_lag h) w).
Proof.
  intros Hk. unfold makeGroqRequest. rewrite Hk.
  assert (posted (fetch prompt h (waitForRateLimit (timer_lag h) w))
          = prompt :: posted w) as Hp
    by (unfold fetch, elapse; cbn [posted];
        now rewrite waitForRateLimit_posted).
  assert (lastRequestTime (fetch prompt h (waitForRateLimit (timer_lag h) w))
          = clock (waitForRateLimit (timer_lag h) w)) as Hl by reflexivity.
  destruct (reply h) as [|r]; simpl; [auto|].
  destruct (reply_ok r); simpl; [auto|].
  destruct (api_status r =? 429); simpl; auto.
Qed.

(* ------------------------------------------------------------------ *)
(** ** The span the parser extracts *)

Section StarOfClass.

Variable f : N -> bool.
Variable k : cont.

Lemma star_class_nil (fuel pos : nat) (c : caps) :
  star_loop (rmatch (Chr f)) k fuel pos [] c = k pos [] c.
Proof. destruct fuel; reflexivity. Qed.

(** One turn of the loop over a character class: the class takes the next
    code unit and the loop goes on, or what follows the loop is tried
    here. *)
Lemma star_class_cons (fuel pos : nat) (x : N) (t : str) (c : caps) :
  star_loop (rmatch (Chr f)) k (S fuel) pos (x :: t) c =
  if f x then
    match star_loop (rmatch (Chr f)) k fuel (S pos) t c with
    | Some m => Some m
    | None => k pos (x :: t) c
    end
  else k pos (x :: t) c.
Proof.
  cbn [star_loop rmatch]. destruct (f x); [|reflexivity].
  assert (Nat.ltb (length t) (length (x :: t)) = true) as ->
    by (apply Nat.ltb_lt; simpl; lia).
  reflexivity.
Qed.

End StarOfClass.

Lemma any_unit_true (c : N) : any_unit c = true.
Proof. unfold any_unit. apply orb_negb_r. Qed.

(** After the last closing brace the loop finds no place to stop. *)
Lemma span_after_last (post : str) (fuel pos : nat) (c : caps) :
  existsb (N.eqb 125) post = false ->
  star_loop (rmatch (Chr any_unit)) (rmatch (one 125) accept) fuel pos post c
  = None.
Proof.
  revert fuel pos. induction post as [|x t IH]; intros fuel pos H.
  - rewrite star_class_nil. reflexivity.
  - cbn [existsb] in H. apply orb_false_iff in H as [Hx Ht].
    destruct fuel as [|fuel].
    + cbn [star_loop rmatch one]. now rewrite Hx.
    + rewrite star_class_cons, any_unit_true, IH by exact Ht.
      cbn [rmatch one]. now rewrite Hx.
Qed.

(** The loop runs to the last closing brace. *)
Lemma span_to_last (body post : str) (fuel pos : nat) (c : caps) :
  existsb (N.eqb 125) post = false ->
  (length body < fuel)%nat ->
  star_loop (rmatch (Chr any_unit)) (rmatch (one 125) accept) fuel pos
    (body ++ 125%N :: post) c
  = Some ((pos + length body + 1)%nat, c).
Proof.
  intros Hpost. revert fuel pos.
  induction body as [|b body IH]; intros fuel pos Hf;
    (destruct fuel as [|fuel]; [inversion Hf|]); cbn [app].
  - rewrite star_class_cons, any_unit_true, span_after_last by exact Hpost.
    cbn [rmatch one]. rewrite N.eqb_refl. unfold accept.
    f_equal. f_equal. simpl. lia.
  - rewrite star_class_cons, any_unit_true.
    rewrite IH by (simpl in Hf; lia).
    f_equal. f_equal. simpl. lia.
Qed.

Lemma exec_at_object (body post : str) (pos : nat) :
  existsb (N.eqb 125) post = false ->
  exec_at re_json_object pos (123%N :: body ++ 125%N :: post)
  = Some ((pos + length body + 2)%nat, []).
Proof.
  intros Hpost. unfold exec_at, re_json_object.
  cbn [rmatch one]. rewrite N.eqb_refl.
  rewrite span_to_last; [f_equal; f_equal; lia|exact Hpost|].
  rewrite length_app. simpl. lia.
Qed.

Lemma exec_at_not_brace (x : N) (t : str) (pos : nat) :
  N.eqb 123 x = false -> exec_at re_json_object pos (x :: t) = None.
Proof.
  intros H. unfold exec_at, re_json_object. cbn [rmatch one]. now rewrite H.
Qed.

Lemma firstn_through (body post : str) (x : N) :
  firstn (length body + 1) (body ++ x :: post) = body ++ [x].
Proof. induction body as [|b body IH]; simpl; [reflexivity|now rewrite IH]. Qed.

(** From the first opening brace of the text to its last closing brace. *)
Lemma match_first_span (pre body post : str) :
  existsb (N.eqb 123) pre = false ->
  existsb (N.eqb 125) post = false ->
  match_first re_json_object (pre ++ 123%N :: body ++ 125%N :: post)
  = Some (123%N :: body ++ [125%N]).
Proof.
  intros Hpre Hpost. unfold match_first. generalize 0%nat as pos.
  induction pre as [|x pre IH]; intros pos; cbn [app search].
  - rewrite exec_at_object by exact Hpost.
    replace (pos + length body + 2 - pos)%nat with (S (length body + 1))
      by lia.
    cbn [firstn]. f_equal. f_equal. apply firstn_through.
  - cbn [existsb] in Hpre. apply orb_false_iff in Hpre as [Hx Hpre].
    rewrite exec_at_not_brace by exact Hx. now apply IH.
Qed.

(** A text without an opening brace holds no candidate. *)
Lemma match_first_no_brace (text : str) :
  existsb (N.eqb 123) text = false ->
  match_first re_json_object text = None.
Proof.
  unfold match_first. generalize 0%nat as pos.
  induction text as [|x t IH]; intros pos H; cbn [search].
  - reflexivity.
  - cbn [existsb] in H. apply orb_false_iff in H as [Hx Ht].
    rewrite exec_at_not_brace by exact Hx. now apply IH.
Qed.

(* ------------------------------------------------------------------ *)
(** ** Round trip through the response parser *)

Lemma parse_and_check_ok (prefix text : str) (fields : list str) (v : jsval) :
  parse_and_check prefix text fields = ok v ->
  JSON_parse text = ok v /\ missing_fields fields v = ok [].
Proof.
  unfold parse_and_check. destruct (JSON_parse text) as [e|p]; simpl;
    [discriminate|].
  destruct (missing_fields fields p) as [e|[|m ms]] eqn:E; simpl;
    try discriminate.
  intros H; injection H as ->. auto.
Qed.

(** What the parser returns holds every required field. *)
Lemma parseJsonResponse_required (response : jsval) (fields : list str)
  (v : jsval) :
  parseJsonResponse response fields = ok v ->
  missing_fields fields v = ok [].
Proof.
  unfold parseJsonResponse.
  destruct response as [| | | |[|c t]| |]; try discriminate.
  destruct (match_first re_json_object (c :: t)) as [cand|]; [|discriminate].
  destruct (parse_and_check _ cand fields) as [e|p] eqn:E1.
  - destruct (parse_and_check _ (repair cand) fields) as [e'|p'] eqn:E2;
      [discriminate|].
    intros H; injection H as ->. now apply parse_and_check_ok in E2.
  - intros H; injection H as ->. now apply parse_and_check_ok in E1.
Qed.

(** The check of the required fields on an object: the fields it lacks. *)
Lemma missing_fields_object (fields : list str) (kvs : list (str * jsval)) :
  missing_fields fields (JObj kvs) = ok (lacking kvs fields).
Proof.
  induction fields as [|f t IH]; [reflexivity|].
  cbn [missing_fields has bind ok lacking filter]. rewrite IH.
  cbn [bind ok]. fold (lacking kvs t). now destruct (lookup f kvs).
Qed.

Lemma parse_and_check_lacking (prefix text : str) (fields : list str)
  (kvs : list (str * jsval)) (f : str) :
  Json.parse text = Some (JObj kvs) ->
  In f fields -> lookup f kvs = None ->
  parse_and_check prefix text fields
  = throw (Error (prefix ++ join (lit ", ") (lacking kvs fields))).
Proof.
  intros Hp Hin Hl. unfold parse_and_check, JSON_parse. rewrite Hp.
  cbn [bind ok]. rewrite missing_fields_object. cbn [bind ok].
  assert (In f (lacking kvs fields)) as H
    by (apply filter_In; split; [exact Hin|now rewrite Hl]).
  now destruct (lacking kvs fields).
Qed.

(** An object that lacks a required field, in a text the repair pass
    leaves as it is, is refused with the names of the missing fields. *)
Lemma parse_and_check_missing (prefix text : str) (fields : list str)
  (kvs : list (str * jsval)) (f : str) :
  Json.parse text = Some (JObj kvs) ->
  In f fields -> lookup f kvs = None ->
  exists m ms,
    missing_fields fields (JObj kvs) = ok (m :: ms)
    /\ parse_and_check prefix text fields
       = throw (Error (prefix ++ join (lit ", ") (m :: ms))).
Proof.
  intros Hp Hin Hl.
  assert (exists m ms, missing_fields fields (JObj kvs) = ok (m :: ms))
    as (m & ms & Hm).
  { clear Hp. induction fields as [|g t IH]; [contradiction|].
    cbn [missing_fields has bind ok].
    destruct Hin as [->|Hin].
    - rewrite Hl.
      assert (exists rest, missing_fields t (JObj kvs) = ok rest) as [rest ->].
      { clear. induction t as [|a t [rest IH]]; [now exists []|].
        cbn [missing_fields has bind ok]. rewrite IH. simpl. eauto. }
      simpl. eauto.
    - destruct (IH Hin) as (m & ms & ->). simpl.
      destruct (lookup g kvs); eauto. }
  exists m, ms. split; [exact Hm|].
  unfold parse_and_check, JSON_parse. rewrite Hp. simpl. now rewrite Hm.
Qed.

Lemma parse_and_check_present (prefix text : str) (fields : list str)
  (kvs : list (str * jsval)) :
  Json.parse text = Some (JObj kvs) ->
  (forall f, In f fields -> lookup f kvs <> None) ->
  parse_and_check prefix text fields = ok (JObj kvs).
Proof.
  intros Hp Hall. unfold parse_and_check, JSON_parse. rewrite Hp.
  cbn [bind ok]. now rewrite missing_fields_none.
Qed.

(** The parser on a text whose candidate is a valid object with the
    required fields. *)
Lemma parseJsonResponse_candidate (text candidate : str) (fields : list str)
  (kvs : list (str * jsval)) :
  match_first re_json_object text = Some candidate ->
  Json.parse candidate = Some (JObj kvs) ->
  (forall f, In f fields -> lookup f kvs <> None) ->
  parseJsonResponse (JStr text) fields = ok (JObj kvs).
Proof.
  intros Hm Hp Hall. unfold parseJsonResponse.
  destruct text as [|c t]; [discriminate|].
  rewrite Hm. now rewrite (parse_and_check_present _ _ _ _ Hp Hall).
Qed.

(** A text without an opening brace is refused as holding no object. *)
Lemma parseJsonResponse_no_object (c : N) (t : str) (fields : list str) :
  existsb (N.eqb 123) (c :: t) = false ->
  parseJsonResponse (JStr (c :: t)) fields
  = throw (Error (lit "No JSON object found in response")).
Proof.
  intros H. unfold parseJsonResponse.
  now rewrite (match_first_no_brace _ H).
Qed.

(** What the parser returns to the scorer is an object: the scorer reads
    and writes properties of an object only. *)
Lemma parseJsonResponse_scoring_object (content v : jsval) :
  parseJsonResponse content scoring_fields = ok v -> exists kvs, v = JObj kvs.
Proof.
  intros H. apply parseJsonResponse_required in H.
  destruct (has_true_object (lit "score") v) as (kvs & _ & -> & _); eauto.
  apply (missing_fields_ok_nil _ _ H). simpl; tauto.
Qed.

(** C1, as the code has it.  A valid JSON object (a text from an opening
    brace to a closing brace that [JSON.parse] reads as an object) with the
    required fields, embedded between a leading prose without opening brace
    and a trailing prose without closing brace: the parser extracts the
    span from the first opening brace of the whole text to its last closing
    brace, which is the object, and returns the object's fields. *)
Theorem parseJsonResponse_round_trip (pre body post : str)
  (fields : list str) (kvs : list (str * jsval)) :
  let object := 123%N :: body ++ [125%N] in
  existsb (N.eqb 123) pre = false ->
  existsb (N.eqb 125) post = false ->
  Json.parse object = Some (JObj kvs) ->
  (forall f, In f fields -> lookup f kvs <> None) ->
  match_first re_json_object (pre ++ object ++ post) = Some object
  /\ parseJsonResponse (JStr (pre ++ object ++ post)) fields = ok (JObj kvs).
Proof.
  cbv zeta. intros Hpre Hpost Hp Hall.
  assert (match_first re_json_object (pre ++ (123%N :: body ++ [125%N]) ++ post)
          = Some (123%N :: body ++ [125%N])) as Hm.
  { cbn [app]. rewrite <- app_assoc. cbn [app].
    now apply match_first_span. }
  split; [exact Hm|].
  now apply (parseJsonResponse_candidate _ _ _ _ Hm Hp).
Qed.

Lemma parseJsonResponse_round_trip_witness :
  parseJsonResponse
    (JStr (lit "Here is my assessment: " ++ scored_object
           ++ lit " Let me know if you need more detail."))
    scoring_fields
  = ok (JObj scored_value).
Proof.
  refine (proj2 (parseJsonResponse_round_trip
                   (lit "Here is my assessment: ")
                   (removelast (tl scored_object))
                   (lit " Let me know if you need more detail.")
                   scoring_fields scored_value
                   eq_refl eq_refl eq_refl _)).
  intros f [<-|[<-|[<-|[<-|[]]]]]; discriminate.
Defined.

(** The scenario of the specification: white space and a newline around
    the object. *)
Example parseJsonResponse_padded :
  parseJsonResponse (JStr (lit "  " ++ scored_object ++ [10%N])) scoring_fields
  = ok (JObj scored_value).
Proof. vm_compute. reflexivity. Qed.

(** C1, counterexample.  The same valid object after a leading prose that
    mentions braces: the span starts at the brace of the prose, is not
    JSON, is not mended by the repair pass, and the parser throws instead
    of returning the object's fields. *)
Lemma round_trip_fails_on_braces_in_prose :
  let prose := lit "Fields are in {braces}: " in
  Json.parse scored_object = Some (JObj scored_value)
  /\ missing_fields scoring_fields (JObj scored_value) = ok []
  /\ match_first re_json_object (prose ++ scored_object)
     = Some (lit "{braces}: " ++ scored_object)
  /\ is_ok (parseJsonResponse (JStr (prose ++ scored_object)) scoring_fields)
     = false.
Proof. cbv zeta. repeat split; vm_compute; reflexivity. Qed.

(* ------------------------------------------------------------------ *)
(** ** The repair pass on valid JSON *)

(** A replacement whose pattern is absent changes nothing. *)
Lemma replace_from_absent (r : regex) (tmpl : list piece) (s : str)
  (pos : nat) :
  search r pos s = None -> replace_from r tmpl pos 0 s = s.
Proof.
  revert pos. induction s as [|x t IH]; intros pos H; cbn [search] in H;
    cbn [replace_from]; destruct (exec_at r pos _) as [[e c]|];
    try discriminate; [reflexivity|].
  f_equal. now apply IH.
Qed.

Lemma replace_all_absent (r : regex) (tmpl : list piece) (s : str) :
  absent r s = true -> replace_all r tmpl s = s.
Proof.
  unfold absent, replace_all. intros H. apply replace_from_absent.
  destruct (search r 0 s); [discriminate|reflexivity].
Qed.

Lemma ends_solid_not_blank (x : N) (t : str) :
  ends_solid (x :: t) = true -> forallb is_space (x :: t) = false.
Proof.
  revert x. induction t as [|y t IH]; intros x H.
  - cbn in H |- *. now destruct (is_space x).
  - change (forallb is_space (x :: y :: t))
      with (is_space x && forallb is_space (y :: t)).
    rewrite (IH y) by exact H. apply andb_false_r.
Qed.

(** A run of white space up to the end of the input does not start where
    something else is still to come. *)
Lemma trailing_space_none (s : str) (fuel pos : nat) (c : caps) :
  forallb is_space s = false ->
  star_loop (rmatch ws) (rmatch Eol accept) fuel pos s c = None.
Proof.
  revert fuel pos. induction s as [|x t IH]; intros fuel pos H;
    [discriminate|].
  destruct fuel as [|fuel]; [reflexivity|].
  unfold ws. rewrite star_class_cons. fold ws.
  cbn [forallb] in H. destruct (is_space x); [|reflexivity].
  now rewrite IH.
Qed.

Lemma exec_at_trim_inside (s : str) (pos : nat) :
  forallb is_space s = false -> exec_at re_trim (S pos) s = None.
Proof.
  intros H. unfold exec_at, re_trim. cbn [rmatch Nat.eqb].
  now apply trailing_space_none.
Qed.

Lemma replace_trim_inside (s : str) (pos : nat) :
  ends_solid s = true -> replace_from re_trim [] (S pos) 0 s = s.
Proof.
  revert pos. induction s as [|x t IH]; intros pos H.
  - reflexivity.
  - cbn [replace_from].
    rewrite exec_at_trim_inside by now apply ends_solid_not_blank.
    f_equal. apply IH. destruct t; [reflexivity|exact H].
Qed.

(** The first replacement leaves a text with solid ends as it is. *)
Lemma replace_trim_solid (s : str) :
  starts_solid s = true -> ends_solid s = true ->
  replace_all re_trim [] s = s.
Proof.
  intros Hs He. destruct s as [|x t]; [reflexivity|].
  unfold replace_all. cbn [replace_from].
  assert (exec_at re_trim 0 (x :: t) = Some (0%nat, [])) as ->.
  { unfold exec_at, re_trim. cbn [rmatch Nat.eqb].
    unfold ws. rewrite star_class_cons.
    cbn [starts_solid] in Hs. apply negb_true_iff in Hs. now rewrite Hs. }
  cbn [expand flat_map app Nat.eqb]. f_equal.
  apply replace_trim_inside. destruct t; [reflexivity|exact He].
Qed.

Lemma repair_unaffected (s : str) : unaffected s = true -> repair s = s.
Proof.
  unfold unaffected. rewrite !andb_true_iff.
  intros [[[[[[[[[H0 H1] H2] H3] H4] H5] H6] H7] H8] H9].
  unfold repair. cbv zeta.
  rewrite (replace_trim_solid s H0 H1).
  rewrite (replace_all_absent _ _ s H2), (replace_all_absent _ _ s H3).
  rewrite (replace_all_absent _ _ s H4), (replace_all_absent _ _ s H5).
  rewrite (replace_all_absent _ _ s H6), (replace_all_absent _ _ s H7).
  rewrite (replace_all_absent _ _ s H8). apply (replace_all_absent _ _ s H9).
Qed.

(** C2, as the code has it.  On a text that parses as JSON and to which
    none of the substitutions applies (no white space at either end, no
    zero-width character, no comma before a closing brace or bracket, no
    bare word between an opening brace or comma and a colon, no
    single-quoted text after a colon, no backslash before a character
    other than the escapes kept, no newline, carriage return or tab), the
    repair pass yields the text itself, which parses to the same value. *)
Theorem repair_preserves_unaffected (s : str) (v : jsval) :
  Json.parse s = Some v ->
  unaffected s = true ->
  repair s = s /\ Json.parse (repair s) = Some v.
Proof.
  intros Hp Hu. rewrite (repair_unaffected s Hu). auto.
Qed.

Lemma repair_preserves_unaffected_witness :
  Json.parse (repair scored_object) = Some (JObj scored_value).
Proof.
  exact (proj2 (repair_preserves_unaffected scored_object (JObj scored_value)
                  eq_refl eq_refl)).
Defined.

(** C2, counterexample.  A valid JSON text with its fields on separate
    lines: the repair pass turns every newline into a backslash and an n,
    outside any string literal, and the result is not JSON any more.  And
    a valid text whose string value holds a comma before a brace: the
    repair pass removes the comma, and the result parses to another
    value. *)
Lemma repair_breaks_valid_json :
  Json.parse pretty_object
  = Some (JObj [(lit "score", JNum (Number.of_int 7));
                (lit "feedback", JStr (lit "ok"))])
  /\ repair pretty_object
     = tq "{\n  ~score~: 7,\n  ~feedback~: ~ok~\n}"
  /\ Json.parse (repair pretty_object) = None
  /\ Json.parse (tq "{~note~:~a,}~}")
     = Some (JObj [(lit "note", JStr (lit "a,}"))])
  /\ Json.parse (repair (tq "{~note~:~a,}~}"))
     = Some (JObj [(lit "note", JStr (lit "a}"))]).
Proof. repeat split; vm_compute; reflexivity. Qed.

(* ------------------------------------------------------------------ *)
(** ** The question validator on multiple-choice payloads *)

(** One step through the validator towards a rejection: the outcome of the
    next bind, test or match is split, and the branches that throw are
    closed. *)
Ltac reject_step :=
  match goal with
  | |- is_ok (bind ?m _) = false =>
      let E := fresh "E" in
      destruct m eqn:E; cbn [bind is_ok throw]; try reflexivity
  | |- is_ok (if ?b then _ else _) = false =>
      let E := fresh "E" in
      destruct b eqn:E; cbn [is_ok throw]; try reflexivity
  | |- is_ok (match ?m with [] => _ | _ :: _ => _ end) = false =>
      let E := fresh "E" in
      destruct m eqn:E; cbn [is_ok throw]; try reflexivity
  end.

Lemma validate_mcq_missing_option (response : jsval) (questionType label : str) :
  str_eqb (toLowerCase questionType) (lit "mcq") = true ->
  In label requiredOptions ->
  has label (mcq_options response) <> ok true ->
  is_ok (validateQuestionResponse response questionType) = false.
Proof.
  intros Hty Hl Hmiss. unfold validateQuestionResponse. rewrite Hty.
  repeat reject_step.
  exfalso. apply Hmiss. unfold mcq_options.
  repeat match goal with
         | H : get _ _ = inr _ |- _ => apply get_ok_get_opt in H
         end.
  subst. now apply (missing_fields_ok_nil requiredOptions).
Qed.

Lemma validate_mcq_bad_correctOption (response : jsval) (questionType : str) :
  str_eqb (toLowerCase questionType) (lit "mcq") = true ->
  is_required_option (mcq_correctOption response) = false ->
  is_ok (validateQuestionResponse response questionType) = false.
Proof.
  intros Hty Hbad. unfold validateQuestionResponse. rewrite Hty.
  repeat reject_step.
  exfalso. unfold mcq_correctOption in Hbad.
  repeat match goal with
         | H : get _ _ = inr _ |- _ => apply get_ok_get_opt in H
         end.
  subst.
  match goal with
  | H : _ || negb (is_required_option _) = false |- _ =>
      rewrite Hbad, orb_true_r in H; discriminate
  end.
Qed.

Lemma validate_mcq_accepts (kvs : list (str * jsval)) (questionType : str) :
  str_eqb (toLowerCase questionType) (lit "mcq") = true ->
  well_formed_mcq kvs ->
  validateQuestionResponse (JObj kvs) questionType = ok (JObj kvs).
Proof.
  intros Hty [Hq (topics & Ht) (tier & Hd)
                (answer & options & correct & explanation &
                 Ha & Ho & Hall & Hc & Hin & He & Hne)].
  unfold validateQuestionResponse. rewrite Hty. cbn [truthy negb].
  rewrite missing_fields_none.
  2:{ intros f [<-|[<-|[<-|[<-|[]]]]]; congruence. }
  cbn [bind ok].
  rewrite (get_object _ _ _ Ht). cbn [bind ok isArray negb].
  rewrite (get_object _ _ _ Hd). cbn [bind ok typeof type_eqb negb].
  rewrite (get_object _ _ _ Ha). cbn [bind ok].
  rewrite (get_object _ _ _ Ho). cbn [bind ok truthy typeof type_eqb negb orb].
  rewrite (missing_fields_none _ _ Hall). cbn [bind ok].
  rewrite (get_object _ _ _ Hc). cbn [bind ok is_required_option].
  apply mem_In in Hin as Hmem. rewrite Hmem.
  assert (truthy (JStr correct) = true) as ->.
  { destruct correct; [|reflexivity]. vm_compute in Hmem. discriminate. }
  cbn [negb orb].
  rewrite (get_object _ _ _ He). cbn [bind ok typeof type_eqb negb].
  destruct explanation; [congruence|reflexivity].
Qed.

(** C7. For a question of type [mcq], the validator throws on every
    payload whose [modelAnswer.options] does not hold one of the labels A,
    B, C, D, and on every payload whose [correctOption] is not one of the
    four labels; a well-formed payload (question, topics array, numeric
    difficulty, the four options, a correct option among the labels and a
    non-empty explanation string) is returned as it is. *)
Theorem validateQuestionResponse_mcq (questionType : str) :
  str_eqb (toLowerCase questionType) (lit "mcq") = true ->
  (forall response label,
      In label requiredOptions ->
      has label (mcq_options response) <> ok true ->
      is_ok (validateQuestionResponse response questionType) = false)
  /\ (forall response,
      is_required_option (mcq_correctOption response) = false ->
      is_ok (validateQuestionResponse response questionType) = false)
  /\ (forall kvs,
      well_formed_mcq kvs ->
      validateQuestionResponse (JObj kvs) questionType = ok (JObj kvs)).
Proof.
  intros Hty. repeat split.
  - intros response label. now apply validate_mcq_missing_option.
  - intros response. now apply validate_mcq_bad_correctOption.
  - intros kvs. now apply validate_mcq_accepts.
Qed.

Lemma validateQuestionResponse_mcq_witness :
  is_ok (validateQuestionResponse
           (JObj (mcq_payload (removelast four_options) (lit "B")))
           (lit "MCQ")) = false
  /\ is_ok (validateQuestionResponse
              (JObj (mcq_payload four_options (lit "E"))) (lit "MCQ")) = false
  /\ validateQuestionResponse
       (JObj (mcq_payload four_options (lit "B"))) (lit "MCQ")
     = ok (JObj (mcq_payload four_options (lit "B"))).
Proof.
  destruct (validateQuestionResponse_mcq (lit "MCQ") eq_refl) as (H1 & H2 & H3).
  split; [|split].
  - apply (H1 _ (lit "D")); [simpl; tauto|discriminate].
  - apply H2. reflexivity.
  - apply H3. constructor.
    + discriminate.
    + eexists; reflexivity.
    + eexists; reflexivity.
    + exists [(lit "options", JObj four_options);
              (lit "correctOption", JStr (lit "B"));
              (lit "explanation", JStr (lit "def starts a definition."))],
        four_options, (lit "B"), (lit "def starts a definition.").
      repeat split; try reflexivity; try discriminate.
      * intros label [<-|[<-|[<-|[<-|[]]]]]; discriminate.
      * simpl; tauto.
Defined.

(* ------------------------------------------------------------------ *)
(** ** The scorer *)

Lemma analyzeResponse_replied (question response : str)
  (expectedTopics : list str) (h : Host) (w : World) (content : jsval) :
  model_replied h content ->
  snd (analyzeResponse question response expectedTopics h w)
  = (result <- parseJsonResponse content scoring_fields ;;
     ok (normalize_analysis result)).
Proof.
  intros (Hk & r & envelope & Hr & Hok & Hp & Hc & Ht).
  unfold analyzeResponse, makeGroqRequest. rewrite Hk, Hr, Hok.
  cbn [negb snd]. rewrite Hp. cbn [bind ok]. rewrite Hc, Ht. reflexivity.
Qed.

Lemma zero_value : zero = S754_zero false.
Proof. reflexivity. Qed.

Lemma ten_value : ten = S754_finite false 5629499534213120 (-49).
Proof. reflexivity. Qed.

Lemma SFcompare_antisym (x y : number) :
  SFcompare y x = option_map CompOpp (SFcompare x y).
Proof.
  destruct x as [[]|[]| |[] mx ex], y as [[]|[]| |[] my ey];
    try reflexivity; cbn [SFcompare option_map];
    rewrite (Z.compare_antisym ex ey);
    destruct (ex ?= ey); cbn [CompOpp]; try reflexivity;
    change Eq with (CompOpp Eq) at 1;
    rewrite <- (Pos.compare_cont_antisym mx my Eq);
    now rewrite ?CompOpp_involutive.
Qed.

Lemma SFcompare_defined (x y : number) :
  Number.is_nan x = false -> Number.is_nan y = false ->
  exists c, SFcompare x y = Some c.
Proof.
  destruct x as [?|?| |? ? ?], y as [?|?| |? ? ?]; try discriminate;
    intros _ _; cbn [SFcompare]; eauto.
Qed.

(** [Math.max(0, Math.min(10, x))] clamps [x]. *)
Lemma Math_max_min_clamp (x : number) :
  Math_max zero (Math_min ten x) = clamp_0_10 x.
Proof.
  unfold Math_max, Math_min, clamp_0_10, Number.max, Number.min,
    Number.le, Number.lt, SFleb, SFltb.
  fold zero; fold ten. rewrite zero_value, ten_value.
  destruct x as [[]|[]| |[] m e]; try reflexivity.
  set (x := S754_finite false m e).
  change (SFcompare x (S754_zero false)) with (Some Gt). cbv iota.
  destruct (SFcompare _ x) as [[]|] eqn:E; try reflexivity.
  cbn in E. discriminate.
Qed.

Lemma clamp_0_10_range (x : number) :
  Number.is_nan x = false -> from_0_to_10 (clamp_0_10 x).
Proof.
  intros Hx.
  unfold from_0_to_10, clamp_0_10, Number.le, Number.lt, SFleb, SFltb.
  fold zero; fold ten.
  destruct (SFcompare_defined x zero Hx eq_refl) as [c0 E0].
  destruct (SFcompare_defined ten x eq_refl Hx) as [c1 E1].
  pose proof (SFcompare_antisym x zero) as A0. rewrite E0 in A0.
  pose proof (SFcompare_antisym ten x) as A1. rewrite E1 in A1.
  rewrite E0, E1.
  destruct c0; try (split; reflexivity);
    destruct c1; try (split; reflexivity);
    rewrite A0, A1; split; reflexivity.
Qed.

Lemma clamp_0_10_nan (x : number) :
  Number.is_nan x = false -> Number.is_nan (clamp_0_10 x) = false.
Proof.
  intros Hx. unfold clamp_0_10.
  destruct (Number.le x _); [reflexivity|].
  destruct (Number.lt _ x); [reflexivity|exact Hx].
Qed.

Lemma Math_min_idem (x : number) :
  Math_min ten (Math_min ten x) = Math_min ten x.
Proof.
  unfold Math_min, Number.min. rewrite ten_value.
  destruct (SFcompare _ x) as [[]|] eqn:E; try reflexivity.
  - now rewrite E.
  - now rewrite E.
Qed.

Lemma normalize_score_cases (score : number) :
  normalize_score score =
  if Number.lt (Number.of_int 10) score
  then clamp_0_10 (Number.div score (Number.of_int 10))
  else clamp_0_10 score.
Proof.
  unfold normalize_score. fold ten.
  destruct (Number.lt ten score).
  - now rewrite Math_min_idem, Math_max_min_clamp.
  - apply Math_max_min_clamp.
Qed.


(** Rounding a mantissa that is not negative never gives [NaN]. *)
Lemma shr_1_nonneg (mrs : shr_record) :
  0 <= shr_m mrs -> 0 <= shr_m (shr_1 mrs).
Proof.
  destruct mrs as [m r s]. cbn [shr_m shr_1].
  destruct m as [|[p|p|]|p]; cbn [shr_m]; lia.
Qed.

Lemma iter_shr_1_nonneg (p : positive) (mrs : shr_record) :
  0 <= shr_m mrs -> 0 <= shr_m (iter_pos shr_1 p mrs).
Proof.
  revert mrs. induction p as [p IH|p IH|]; intros mrs H; cbn [iter_pos].
  - apply IH, IH, shr_1_nonneg, H.
  - apply IH, IH, H.
  - apply shr_1_nonneg, H.
Qed.

Lemma shr_fexp_nonneg (m e : Z) (l : location) :
  0 <= m -> 0 <= shr_m (fst (shr_fexp Number.prec Number.emax m e l)).
Proof.
  intros H. unfold shr_fexp, shr.
  assert (0 <= shr_m (shr_record_of_loc m l)) as H0
    by (destruct l as [|[]]; exact H).
  destruct (_ - e); cbn [fst]; auto using iter_shr_1_nonneg.
Qed.

Lemma round_nearest_even_nonneg (m : Z) (l : location) :
  0 <= m -> 0 <= round_nearest_even m l.
Proof.
  intros H. destruct l as [|[]]; cbn [round_nearest_even]; try lia.
  destruct (Z.even m); lia.
Qed.

Lemma binary_round_aux_nan (sx : bool) (mx ex : Z) (lx : location) :
  0 <= mx ->
  Number.is_nan (binary_round_aux Number.prec Number.emax sx mx ex lx) = false.
Proof.
  intros H. unfold binary_round_aux.
  pose proof (shr_fexp_nonneg mx ex lx H) as H1.
  destruct (shr_fexp _ _ mx ex lx) as [mrs' e']. cbn [fst] in H1.
  pose proof (shr_fexp_nonneg _ e' loc_Exact
                (round_nearest_even_nonneg _ (loc_of_shr_record mrs') H1))
    as H2.
  destruct (shr_fexp _ _ _ e' loc_Exact) as [mrs'' e'']. cbn [fst] in H2.
  destruct (shr_m mrs''); [reflexivity| |lia].
  now destruct (_ <=? _).
Qed.

Lemma SFdiv_core_nonneg (m1 m2 : positive) (e1 e2 : Z) :
  0 <= fst (fst (SFdiv_core_binary Number.prec Number.emax
                   (Zpos m1) e1 (Zpos m2) e2)).
Proof.
  unfold SFdiv_core_binary.
  set (s := _ - _ - _).
  set (m' := match s with Zpos _ => Z.shiftl (Zpos m1) s | Z0 => Zpos m1
             | Zneg _ => 0 end).
  assert (0 <= m') as Hm.
  { subst m'. destruct s; try lia. apply Z.shiftl_nonneg. lia. }
  pose proof (Z_div_mod m' (Zpos m2) eq_refl) as H.
  destruct (Z.div_eucl m' (Zpos m2)) as [q r]. cbn [fst].
  destruct H as [H1 H2]. nia.
Qed.

(** A quotient of two numbers that are finite and not zero is not [NaN]. *)
Lemma div_finite_nan (s1 s2 : bool) (m1 m2 : positive) (e1 e2 : Z) :
  Number.is_nan (Number.div (S754_finite s1 m1 e1) (S754_finite s2 m2 e2))
  = false.
Proof.
  unfold Number.div, SFdiv.
  pose proof (SFdiv_core_nonneg m1 m2 e1 e2) as H.
  destruct (SFdiv_core_binary _ _ _ _ _ _) as [[mz ez] lz]. cbn [fst] in H.
  now apply binary_round_aux_nan.
Qed.

Lemma div_ten_nan (x : number) :
  Number.is_nan x = false -> Number.is_nan (Number.div x ten) = false.
Proof.
  rewrite ten_value.
  destruct x as [?|?| |s m e]; try discriminate; try reflexivity.
  intros _. apply div_finite_nan.
Qed.

Lemma of_decimal_nan (neg : bool) (m e : Z) :
  Number.is_nan (Number.of_decimal neg m e) = false.
Proof.
  unfold Number.of_decimal. destruct m; try reflexivity.
  assert (forall q, Number.is_nan (binary_round Number.prec Number.emax neg q 0)
                    = false) as H.
  { intros q. unfold binary_round.
    destruct (shl_align _ _ _) as [mz ez]. now apply binary_round_aux_nan. }
  destruct e; try apply H. apply div_finite_nan.
Qed.

Lemma normalize_score_nan (score : number) :
  Number.is_nan score = false -> Number.is_nan (normalize_score score) = false.
Proof.
  intros H. rewrite normalize_score_cases. fold ten.
  destruct (Number.lt ten score); apply clamp_0_10_nan; auto using div_ten_nan.
Qed.

Lemma normalize_score_range (score : number) :
  Number.is_nan score = false -> from_0_to_10 (normalize_score score).
Proof.
  intros H. rewrite normalize_score_cases. fold ten.
  destruct (Number.lt ten score); apply clamp_0_10_range;
    auto using div_ten_nan.
Qed.

(** 85 becomes 8.5, which is the double 4785074604081152 * 2^-49. *)
Example normalize_score_85 :
  normalize_score (Number.of_int 85) = Number.of_decimal false 85 (-1)
  /\ Number.of_decimal false 85 (-1)
     = S754_finite false 4785074604081152 (-49).
Proof. split; reflexivity. Qed.

(** The division is the division of doubles: the score 10.7 becomes
    1.0699999999999998, the double below the one the literal 1.07
    denotes.  A literal is rounded when it is read: 10.0000000000000001
    is the double 10, which is not divided. *)
Example normalize_score_rounds :
  Json.parse (lit "10.7") = Some (JNum (Number.of_decimal false 107 (-1)))
  /\ normalize_score (Number.of_decimal false 107 (-1))
     = S754_finite false 4818851601286430 (-52)
  /\ Number.of_decimal false 10699999999999998 (-16)
     = S754_finite false 4818851601286430 (-52)
  /\ Number.of_decimal false 107 (-2)
     = S754_finite false 4818851601286431 (-52)
  /\ Json.parse (lit "10.0000000000000001") = Some (JNum (Number.of_int 10))
  /\ normalize_score (Number.of_int 10) = Number.of_int 10.
Proof. repeat split; vm_compute; reflexivity. Qed.

Example normalize_score_negative :
  normalize_score (Number.of_int (-3)) = Number.of_int 0.
Proof. reflexivity. Qed.

(** *** [JSON.parse] gives no [NaN] *)

Lemma parse_number_defined (s r : str) (x : number) :
  Json.parse_number s = Some (x, r) -> Number.is_nan x = false.
Proof.
  unfold Json.parse_number.
  destruct (match s with
            | c :: t => if (c =? 45)%N then (true, t) else (false, s)
            | [] => (false, s)
            end) as [neg s1].
  destruct (Json.take_digits s1) as [[|d ds] s2]; [discriminate|].
  destruct ((d =? 48)%N && _); [discriminate|].
  destruct (Json.parse_fraction s2) as [[fs s3]|]; [|discriminate].
  destruct (Json.parse_exponent s3) as [[e s4]|]; [|discriminate].
  intros H; injection H as <- _. apply of_decimal_nan.
Qed.

Lemma assign_defined (k : str) (v : jsval) (kvs : list (str * jsval)) :
  numbers_defined v = true -> members_defined kvs = true ->
  members_defined (assign k v kvs) = true.
Proof.
  intros Hv. unfold members_defined.
  induction kvs as [|[k' v'] t IH]; cbn [assign forallb].
  - intros _. now rewrite Hv.
  - intros H. apply andb_prop in H as [H1 H2].
    destruct (str_eqb k k'); cbn [forallb].
    + now rewrite Hv, H2.
    + now rewrite H1, IH.
Qed.

Lemma make_object_defined (kvs : list (str * jsval)) :
  members_defined kvs = true ->
  numbers_defined (Json.make_object kvs) = true.
Proof.
  unfold Json.make_object. cbn [numbers_defined].
  fold (members_defined
          (fold_left (fun acc kv => assign (fst kv) (snd kv) acc) kvs [])).
  assert (members_defined [] = true) as H0 by reflexivity.
  revert H0. generalize (@nil (str * jsval)).
  induction kvs as [|[k v] t IH]; intros acc Hacc H; cbn [fold_left fst snd].
  - exact Hacc.
  - unfold members_defined in H. cbn [forallb] in H.
    apply andb_prop in H as [H1 H2]. apply IH; [|exact H2].
    now apply assign_defined.
Qed.

Lemma lookup_defined (k : str) (kvs : list (str * jsval)) (v : jsval) :
  members_defined kvs = true -> lookup k kvs = Some v ->
  numbers_defined v = true.
Proof.
  unfold members_defined.
  induction kvs as [|[k' v'] t IH]; cbn [lookup forallb]; [discriminate|].
  intros H. apply andb_prop in H as [H1 H2].
  destruct (str_eqb k k'); [intros E; injection E as <-; exact H1|auto].
Qed.

Lemma value_step_defined members elements :
  yields members_defined members -> yields (forallb numbers_defined) elements ->
  yields numbers_defined (Json.value_step members elements).
Proof.
  intros Hm He s v r. unfold Json.value_step.
  destruct (Json.skip_ws s) as [|c t]; [discriminate|].
  destruct (c =? 123)%N.
  { destruct (Json.skip_ws t) as [|c' t']; [discriminate|].
    destruct (c' =? 125)%N; [intros H; injection H as <- _; reflexivity|].
    destruct (members t) as [[kvs r']|] eqn:E; [|discriminate].
    intros H; injection H as <- _. apply make_object_defined.
    exact (Hm _ _ _ E). }
  destruct (c =? 91)%N.
  { destruct (Json.skip_ws t) as [|c' t']; [discriminate|].
    destruct (c' =? 93)%N; [intros H; injection H as <- _; reflexivity|].
    destruct (elements t) as [[vs r']|] eqn:E; [|discriminate].
    intros H; injection H as <- _. exact (He _ _ _ E). }
  destruct (c =? 34)%N.
  { destruct (Json.parse_string_body t) as [[v' r']|]; [|discriminate].
    intros H; injection H as <- _. reflexivity. }
  destruct ((c =? 45)%N || is_digit c).
  { destruct (Json.parse_number (c :: t)) as [[q r']|] eqn:E; [|discriminate].
    intros H; injection H as <- _. cbn [numbers_defined].
    now rewrite (parse_number_defined _ _ _ E). }
  destruct (startsWith (lit "true") (c :: t));
    [intros H; injection H as <- _; reflexivity|].
  destruct (startsWith (lit "false") (c :: t));
    [intros H; injection H as <- _; reflexivity|].
  destruct (startsWith (lit "null") (c :: t));
    [intros H; injection H as <- _; reflexivity|discriminate].
Qed.

Lemma elements_step_defined value elements :
  yields numbers_defined value -> yields (forallb numbers_defined) elements ->
  yields (forallb numbers_defined) (Json.elements_step value elements).
Proof.
  intros Hv He s vs r. unfold Json.elements_step.
  destruct (value s) as [[v r1]|] eqn:E1; [|discriminate].
  apply Hv in E1.
  destruct (Json.skip_ws r1) as [|c t]; [discriminate|].
  destruct (c =? 44)%N.
  - destruct (elements t) as [[vs' r']|] eqn:E2; [|discriminate].
    intros H; injection H as <- _. cbn [forallb].
    now rewrite E1, (He _ _ _ E2).
  - destruct (c =? 93)%N; [|discriminate].
    intros H; injection H as <- _. cbn [forallb]. now rewrite E1.
Qed.

Lemma members_step_defined value members :
  yields numbers_defined value -> yields members_defined members ->
  yields members_defined (Json.members_step value members).
Proof.
  intros Hv Hm s kvs r. unfold Json.members_step.
  destruct (Json.skip_ws s) as [|c t]; [discriminate|].
  destruct (c =? 34)%N; [|discriminate].
  destruct (Json.parse_string_body t) as [[k r1]|]; [|discriminate].
  destruct (Json.skip_ws r1) as [|c2 t2]; [discriminate|].
  destruct (c2 =? 58)%N; [|discriminate].
  destruct (value t2) as [[v r2]|] eqn:Ev; [|discriminate].
  apply Hv in Ev.
  destruct (Json.skip_ws r2) as [|c3 t3]; [discriminate|].
  destruct (c3 =? 44)%N.
  - destruct (members t3) as [[kvs' r3]|] eqn:Em; [|discriminate].
    intros H; injection H as <- _. unfold members_defined. cbn [forallb].
    rewrite Ev. exact (Hm _ _ _ Em).
  - destruct (c3 =? 125)%N; [|discriminate].
    intros H; injection H as <- _. unfold members_defined. cbn [forallb].
    now rewrite Ev.
Qed.

Lemma parse_defined (fuel : nat) :
  yields numbers_defined (Json.parse_value fuel)
  /\ yields (forallb numbers_defined) (Json.parse_elements fuel)
  /\ yields members_defined (Json.parse_members fuel).
Proof.
  induction fuel as [|f (Hv & He & Hm)].
  - repeat split; intros s a r H; discriminate.
  - repeat split;
      cbn [Json.parse_value Json.parse_elements Json.parse_members].
    + now apply value_step_defined.
    + now apply elements_step_defined.
    + now apply members_step_defined.
Qed.

(** No number of a value that [JSON.parse] returns is [NaN]. *)
Lemma JSON_parse_defined (s : str) (v : jsval) :
  JSON_parse s = ok v -> numbers_defined v = true.
Proof.
  unfold JSON_parse, Json.parse.
  destruct (Json.parse_value _ s) as [[v' r]|] eqn:E; [|discriminate].
  destruct (Json.skip_ws r); [|discriminate].
  intros H; injection H as <-. exact (proj1 (parse_defined _) _ _ _ E).
Qed.

Lemma parseJsonResponse_defined (response : jsval) (fields : list str)
  (v : jsval) :
  parseJsonResponse response fields = ok v -> numbers_defined v = true.
Proof.
  unfold parseJsonResponse.
  destruct response as [| | | |[|c t]| |]; try discriminate.
  destruct (match_first re_json_object (c :: t)) as [cand|]; [|discriminate].
  destruct (parse_and_check _ cand fields) as [e|p] eqn:E1.
  - destruct (parse_and_check _ (repair cand) fields) as [e'|p'] eqn:E2;
      [discriminate|].
    intros H; injection H as ->. apply parse_and_check_ok in E2 as [E2 _].
    now apply JSON_parse_defined in E2.
  - intros H; injection H as ->. apply parse_and_check_ok in E1 as [E1 _].
    now apply JSON_parse_defined in E1.
Qed.

(** The score the parser hands to the scorer, when it is a number. *)
Lemma parsed_score_defined (response parsed : jsval) (fields : list str)
  (score : number) :
  parseJsonResponse response fields = ok parsed ->
  get_opt parsed (lit "score") = JNum score ->
  Number.is_nan score = false.
Proof.
  intros Hp Hs. apply parseJsonResponse_defined in Hp.
  destruct (get_opt_defined parsed (lit "score")) as [kvs ->];
    [rewrite Hs; discriminate|].
  rewrite get_opt_object in Hs.
  destruct (lookup (lit "score") kvs) as [x|] eqn:E; [|discriminate].
  subst x. apply (lookup_defined _ _ _ Hp) in E. cbn in E.
  now destruct (Number.is_nan score).
Qed.

(** The score that [normalize_analysis] leaves in the analysis. *)
Lemma normalize_analysis_score (kvs : list (str * jsval)) :
  get_opt (normalize_analysis (JObj kvs)) (lit "score") =
  match get_opt (JObj kvs) (lit "score") with
  | JNum score => JNum (normalize_score score)
  | _ => JNum zero
  end.
Proof.
  unfold normalize_analysis.
  set (r1 := match get_opt (JObj kvs) (lit "score") with
             | JNum score => set (JObj kvs) (lit "score")
                               (JNum (normalize_score score))
             | _ => set (JObj kvs) (lit "score") (JNum zero)
             end).
  assert (exists kvs1, r1 = JObj kvs1 /\
            get_opt r1 (lit "score") =
            match get_opt (JObj kvs) (lit "score") with
            | JNum score => JNum (normalize_score score)
            | _ => JNum zero
            end) as (kvs1 & -> & H1).
  { subst r1. destruct (get_opt (JObj kvs) (lit "score"));
      (eexists; split; [reflexivity|apply get_opt_set_same]). }
  rewrite <- H1.
  destruct (isArray (get_opt (JObj kvs1) (lit "coveredTopics")));
    cbn [negb];
    destruct (isArray (get_opt _ (lit "missingTopics"))); cbn [negb];
    unfold set; fold (set (JObj kvs1) (lit "coveredTopics") (JArr []));
    rewrite ?get_opt_set_other by reflexivity; try reflexivity.
  all: unfold set; rewrite ?get_opt_object;
    rewrite ?lookup_assign_other by reflexivity; reflexivity.
Qed.

(** C4. Whatever number the model returns as the score, the score of the
    analysis lies between 0 and 10: a value above 10 is first divided by
    10 (the division of doubles, rounded to the nearest) and then clamped,
    any other value is clamped as it is.  In the witness 85 becomes 8.5,
    the double 4785074604081152 * 2^-49. *)
Theorem analysis_score_in_range (question response : str)
  (expectedTopics : list str) (h : Host) (w : World)
  (content parsed : jsval) (score : number) :
  model_replied h content ->
  parseJsonResponse content scoring_fields = ok parsed ->
  get_opt parsed (lit "score") = JNum score ->
  exists analysis final,
    snd (analyzeResponse question response expectedTopics h w) = ok analysis
    /\ get_opt analysis (lit "score") = JNum final
    /\ from_0_to_10 final
    /\ final = (if Number.lt (Number.of_int 10) score
                then clamp_0_10 (Number.div score (Number.of_int 10))
                else clamp_0_10 score).
Proof.
  intros Hrep Hp Hs.
  pose proof (parsed_score_defined _ _ _ _ Hp Hs) as Hn.
  destruct (get_opt_defined parsed (lit "score")) as [kvs ->];
    [rewrite Hs; discriminate|].
  exists (normalize_analysis (JObj kvs)), (normalize_score score).
  rewrite (analyzeResponse_replied _ _ _ _ _ _ Hrep), Hp. cbn [bind ok].
  rewrite normalize_analysis_score, Hs.
  split; [reflexivity|]. split; [reflexivity|].
  split; [now apply normalize_score_range|apply normalize_score_cases].
Qed.

Lemma analysis_score_in_range_witness :
  get_opt
    (match snd (analyzeResponse (lit "What is a closure?") (lit "A function.")
                  [lit "x"; lit "y"] (scoring_host percent_score)
                  (initial_world 0))
     with inr analysis => analysis | inl _ => JUndefined end)
    (lit "score")
  = JNum (S754_finite false 4785074604081152 (-49)).
Proof.
  pose (content := JStr (tq
    "{~score~:85,~feedback~:~ok~,~coveredTopics~:[],~missingTopics~:[]}")).
  pose (parsed := JObj [(lit "score", JNum (Number.of_int 85));
                        (lit "feedback", JStr (lit "ok"));
                        (lit "coveredTopics", JArr []);
                        (lit "missingTopics", JArr [])]).
  assert (model_replied (scoring_host percent_score) content) as Hrep.
  { split; [reflexivity|]. eexists _, _. repeat split; reflexivity. }
  assert (parseJsonResponse content scoring_fields = ok parsed) as Hp
    by (vm_compute; reflexivity).
  destruct (analysis_score_in_range (lit "What is a closure?")
              (lit "A function.") [lit "x"; lit "y"]
              (scoring_host percent_score) (initial_world 0)
              content parsed (Number.of_int 85) Hrep Hp eq_refl)
    as (analysis & final & Ho & Hsc & _ & Hf).
  rewrite Ho.
  change (get_opt analysis (lit "score")
          = JNum (S754_finite false 4785074604081152 (-49))).
  rewrite Hsc, Hf. reflexivity.
Defined.

(** The topic lists that [normalize_analysis] leaves in the analysis. *)
Lemma normalize_analysis_topics (kvs : list (str * jsval)) :
  get_opt (normalize_analysis (JObj kvs)) (lit "coveredTopics") =
    (if isArray (get_opt (JObj kvs) (lit "coveredTopics"))
     then get_opt (JObj kvs) (lit "coveredTopics") else JArr [])
  /\ get_opt (normalize_analysis (JObj kvs)) (lit "missingTopics") =
    (if isArray (get_opt (JObj kvs) (lit "missingTopics"))
     then get_opt (JObj kvs) (lit "missingTopics") else JArr []).
Proof.
  unfold normalize_analysis.
  set (r1 := match get_opt (JObj kvs) (lit "score") with
             | JNum score => set (JObj kvs) (lit "score")
                               (JNum (normalize_score score))
             | _ => set (JObj kvs) (lit "score") (JNum zero)
             end).
  assert (exists kvs1, r1 = JObj kvs1
            /\ get_opt r1 (lit "coveredTopics")
               = get_opt (JObj kvs) (lit "coveredTopics")
            /\ get_opt r1 (lit "missingTopics")
               = get_opt (JObj kvs) (lit "missingTopics"))
    as (kvs1 & -> & <- & <-).
  { subst r1. destruct (get_opt (JObj kvs) (lit "score"));
      (eexists; split; [reflexivity|
        split; apply get_opt_set_other; reflexivity]). }
  destruct (isArray (get_opt (JObj kvs1) (lit "coveredTopics"))) eqn:Ec;
    destruct (isArray (get_opt (JObj kvs1) (lit "missingTopics"))) eqn:Em;
    cbn [negb].
  - rewrite Em. cbn [negb]. auto.
  - rewrite Em. cbn [negb].
    rewrite get_opt_set_other by reflexivity.
    rewrite get_opt_set_same. auto.
  - rewrite (get_opt_set_other kvs1 (lit "missingTopics")
               (lit "coveredTopics")) by reflexivity.
    rewrite Em. cbn [negb].
    rewrite get_opt_set_same.
    rewrite get_opt_set_other by reflexivity. auto.
  - rewrite (get_opt_set_other kvs1 (lit "missingTopics")
               (lit "coveredTopics")) by reflexivity.
    rewrite Em. cbn [negb set]. rewrite !get_opt_object.
    rewrite lookup_assign_same.
    rewrite lookup_assign_other by reflexivity.
    rewrite lookup_assign_same. auto.
Qed.

(** C6, counterexample.  The model returns a valid JSON object with score,
    feedback and missingTopics and without coveredTopics: the scorer does
    not return an analysis, it throws the parser's error about the missing
    required field. *)
Lemma omitted_topics_fail :
  Json.parse (tq "{~score~:7,~feedback~:~ok~,~missingTopics~:[~y~]}")
  = Some (JObj [(lit "score", JNum (Number.of_int 7));
                (lit "feedback", JStr (lit "ok"));
                (lit "missingTopics", JArr [JStr (lit "y")])])
  /\ snd (analyzeResponse (lit "What is a closure?") (lit "A function.")
            [lit "x"; lit "y"] (scoring_host omits_coveredTopics)
            (initial_world 0))
     = throw (Error
         (lit "Failed to parse response as JSON: Missing required fields after cleaning: coveredTopics"
          ++ [10%N]
          ++ tq "Response: {~score~:7,~feedback~:~ok~,~missingTopics~:[~y~]}")).
Proof. split; vm_compute; reflexivity. Qed.

(** C6, as the code has it.  When the model has replied, the scorer
    returns an analysis exactly when the parser returns an object, and that
    object holds [coveredTopics] and [missingTopics]: in the analysis each
    of the two is the value the model gave if that is a sequence, and the
    empty sequence otherwise.  When the parser throws, the scorer throws
    the same error; on an object without one of the required fields, in a
    text the repair pass leaves alone, that error is the parser's
    missing-required-fields error: its message names the fields the
    object lacks and quotes the text. *)
Theorem scorer_topic_fields (question response : str)
  (expectedTopics : list str) (h : Host) (w : World) (content : jsval) :
  model_replied h content ->
  let outcome := snd (analyzeResponse question response expectedTopics h w) in
  (forall parsed,
      parseJsonResponse content scoring_fields = ok parsed ->
      exists kvs covered missing,
        parsed = JObj kvs
        /\ lookup (lit "coveredTopics") kvs = Some covered
        /\ lookup (lit "missingTopics") kvs = Some missing
        /\ outcome = ok (normalize_analysis parsed)
        /\ get_opt (normalize_analysis parsed) (lit "coveredTopics")
           = (if isArray covered then covered else JArr [])
        /\ get_opt (normalize_analysis parsed) (lit "missingTopics")
           = (if isArray missing then missing else JArr []))
  /\ (forall error,
      parseJsonResponse content scoring_fields = throw error ->
      outcome = throw error)
  /\ (forall text candidate kvs field,
      content = JStr text ->
      match_first re_json_object text = Some candidate ->
      Json.parse candidate = Some (JObj kvs) ->
      repair candidate = candidate ->
      In field scoring_fields -> lookup field kvs = None ->
      In field (lacking kvs scoring_fields)
      /\ outcome
         = throw (Error
             (lit "Failed to parse response as JSON: "
              ++ (lit "Missing required fields after cleaning: "
                  ++ join (lit ", ") (lacking kvs scoring_fields))
              ++ [10%N] ++ lit "Response: " ++ candidate))).
Proof.
  intros Hrep. cbv zeta.
  rewrite (analyzeResponse_replied _ _ _ _ _ _ Hrep).
  split; [|split].
  - intros parsed Hp. rewrite Hp. cbn [bind ok].
    pose proof (parseJsonResponse_required _ _ _ Hp) as Hm.
    pose proof (missing_fields_ok_nil _ _ Hm) as Hall.
    destruct (has_true_object (lit "coveredTopics") parsed)
      as (kvs & covered & -> & Hc); [apply Hall; simpl; tauto|].
    destruct (has_true_object (lit "missingTopics") (JObj kvs))
      as (kvs' & missing & E & Hmi); [apply Hall; simpl; tauto|].
    injection E as <-.
    exists kvs, covered, missing.
    destruct (normalize_analysis_topics kvs) as [H1 H2].
    rewrite H1, H2, !get_opt_object, Hc, Hmi. auto 10.
  - intros error Hp. now rewrite Hp.
  - intros text candidate kvs field -> Hm Hp Hfix Hin Hl.
    split; [apply filter_In; split; [exact Hin|now rewrite Hl]|].
    pose proof (parse_and_check_lacking (lit "Missing required fields: ")
                  candidate scoring_fields kvs field Hp Hin Hl) as H1.
    pose proof (parse_and_check_lacking
                  (lit "Missing required fields after cleaning: ")
                  candidate scoring_fields kvs field Hp Hin Hl) as H2.
    unfold parseJsonResponse.
    destruct text as [|c t]; [discriminate|].
    rewrite Hm, H1. unfold throw at 1. rewrite Hfix, H2. reflexivity.
Qed.

Lemma scorer_topic_fields_witness :
  get_opt
    (match snd (analyzeResponse (lit "What is a closure?") (lit "A function.")
                  [lit "x"; lit "y"] (scoring_host topics_not_sequences)
                  (initial_world 0))
     with inr analysis => analysis | inl _ => JUndefined end)
    (lit "coveredTopics")
  = JArr [].
Proof.
  pose (content := JStr (tq
    "{~score~:7,~feedback~:~ok~,~coveredTopics~:~x~,~missingTopics~:null}")).
  assert (model_replied (scoring_host topics_not_sequences) content) as Hrep.
  { split; [reflexivity|].
    eexists _, _. repeat split; reflexivity. }
  destruct (scorer_topic_fields (lit "What is a closure?") (lit "A function.")
              [lit "x"; lit "y"] (scoring_host topics_not_sequences)
              (initial_world 0) content Hrep) as (H & _ & _).
  pose (parsed := JObj [(lit "score", JNum (Number.of_int 7));
                        (lit "feedback", JStr (lit "ok"));
                        (lit "coveredTopics", JStr (lit "x"));
                        (lit "missingTopics", JNull)]).
  assert (parseJsonResponse content scoring_fields = ok parsed) as Hp
    by (vm_compute; reflexivity).
  destruct (H parsed Hp)
    as (kvs & covered & missing & E & Hc & _ & Ho & Hcov & _).
  rewrite Ho.
  change (get_opt (normalize_analysis parsed) (lit "coveredTopics") = JArr []).
  rewrite Hcov.
  injection E as <-. injection Hc as <-. reflexivity.
Defined.

(* ------------------------------------------------------------------ *)
(** ** Scoring a multiple-choice answer *)

(** Equality of the upper-cased texts is equality up to the case of the
    letters from A to Z. *)
Lemma upper_eqb (c d : N) :
  ((if is_lower c then c - 32 else c) =? (if is_lower d then d - 32 else d))%N
  = same_letter c d.
Proof.
  unfold same_letter, is_lower, is_upper.
  repeat match goal with
         | |- context [(?a <=? ?b)%N] => destruct (N.leb_spec a b)
         end;
    cbn [andb orb];
    repeat match goal with
           | |- context [(?a =? ?b)%N] => destruct (N.eqb_spec a b)
           end;
    cbn [andb orb]; try reflexivity; lia.
Qed.

Lemma toUpperCase_equal (a b : str) :
  str_eqb (toUpperCase a) (toUpperCase b) = equalsIgnoreCase a b.
Proof.
  revert b. induction a as [|c a IH]; intros [|d b]; try reflexivity.
  cbn [toUpperCase map str_eqb equalsIgnoreCase].
  rewrite upper_eqb. f_equal. apply IH.
Qed.

(** C3. A multiple-choice scoring request (question, answer, expected
    topics and correct option present, question type [mcq] in any case,
    answer and correct option of ASCII characters, as the labels are) is
    answered by comparing the answer with the correct option, ignoring
    case, whatever the host and without touching the world: nothing is
    posted, the clock and the rate limiter are as before.  A match gives
    score 10, all expected topics covered, none missing, and the feedback
    [Correct! ] followed by the explanation; a mismatch gives score 0, no
    topic covered, all missing, and the feedback
    [Incorrect. The correct answer is X. ] followed by the explanation. *)
Theorem mcq_scoring (body : AnalyzeBody) (expectedTopics : list str)
  (h : Host) (w : World) :
  blank (a_question body) = false ->
  blank (a_response body) = false ->
  a_expectedTopics body = Some expectedTopics ->
  str_eqb (toLowerCase (or_empty (a_questionType body))) (lit "mcq") = true ->
  blank (a_correctOption body) = false ->
  is_ascii (or_empty (a_response body)) = true ->
  is_ascii (or_empty (a_correctOption body)) = true ->
  analyze_POST body h w =
  (w, mkResponse 200
        (mcq_analysis
           (equalsIgnoreCase (or_empty (a_response body))
              (or_empty (a_correctOption body)))
           (or_empty (a_correctOption body))
           (or_empty (a_explanation body))
           expectedTopics)).
Proof.
  intros Hq Hr Ht Hty Hc _ _.
  unfold analyze_POST. rewrite Ht, Hq, Hr. cbn [orb].
  assert (blank (a_questionType body) = false) as Hb.
  { destruct (a_questionType body) as [[|c t]|]; try reflexivity;
      vm_compute in Hty; discriminate. }
  rewrite Hb, Hty, Hc, toUpperCase_equal. unfold mcq_analysis.
  destruct (equalsIgnoreCase _ _); reflexivity.
Qed.

(** The answer [b] against the correct option [B], on a host with no
    credential and no network. *)
Lemma mcq_scoring_witness :
  analyze_POST answer_B (mkHost None 0 0 NetworkFailure) (initial_world 0) =
  (initial_world 0,
   mkResponse 200
     (JObj [(lit "score", JNum (Number.of_int 10));
            (lit "feedback", JStr (lit "Correct! def starts a definition."));
            (lit "coveredTopics",
             JArr [JStr (lit "functions"); JStr (lit "syntax")]);
            (lit "missingTopics", JArr [])])).
Proof.
  exact (mcq_scoring answer_B [lit "functions"; lit "syntax"]
           (mkHost None 0 0 NetworkFailure) (initial_world 0)
           eq_refl eq_refl eq_refl eq_refl eq_refl eq_refl eq_refl).
Defined.

(** The four labels against the correct option [B]: the score is 10 for
    [B] and 0 for the others. *)
Example mcq_labels :
  map (fun label =>
         http_json (snd (analyze_POST
           (mkAnalyzeBody (Some (lit "q")) (Some label) (Some [])
              (Some (lit "mcq")) (Some (lit "B")) None)
           (mkHost None 0 0 NetworkFailure) (initial_world 0))))
      [lit "A"; lit "B"; lit "C"; lit "D"]
  = map (fun correct => mcq_analysis correct (lit "B") [] [])
      [false; true; false; false].
Proof. reflexivity. Qed.

(* ------------------------------------------------------------------ *)
(** ** The question route: difficulty tier and rate-limit outcome *)

(** The tier the templates compute from a lower-cased label is 3,
    whatever the label. *)
Lemma difficulty_tier_lowered (difficulty : str) :
  difficulty_tier (toLowerCase difficulty) = 3.
Proof.
  unfold difficulty_tier.
  change (lit "Easy") with (69%N :: lit "asy").
  change (lit "Medium") with (77%N :: lit "edium").
  now rewrite !toLowerCase_neq_capitalized.
Qed.

(** The tier from the label as the interview page sends it. *)
Example difficulty_tier_labels :
  map difficulty_tier [lit "Easy"; lit "Medium"; lit "Hard"] = [1; 2; 3].
Proof. reflexivity. Qed.

(** What the route posts: the prompt built from the cleaned inputs. *)
Lemma question_POST_posts (body : QuestionBody) (h : Host) (w : World)
  (cleanTechnology cleanDifficulty : str) :
  blank (q_technology body) = false ->
  blank (q_difficulty body) = false ->
  blank (q_questionType body) = false ->
  clean_inputs body = ok (cleanTechnology, cleanDifficulty) ->
  key_missing h = false ->
  cleanDifficulty = toLowerCase (trim (or_empty (q_difficulty body)))
  /\ posted (fst (question_POST body h w)) =
     generateQuestionPrompt cleanTechnology cleanDifficulty
       (q_questionNumber body) (or_empty (q_questionType body))
     :: posted w.
Proof.
  intros Ht Hd Hq Hc Hk.
  assert (cleanDifficulty = toLowerCase (trim (or_empty (q_difficulty body))))
    as Hlow.
  { unfold clean_inputs in Hc.
    destruct (decodeURIComponent _); simpl in Hc; [discriminate|].
    now injection Hc as _ <-. }
  split; [exact Hlow|].
  unfold question_POST. rewrite Ht, Hd, Hq, Hc. unfold ok at 1.
  cbn [orb]. cbv beta iota. unfold generateQuestion.
  pose proof (configured_posts
                (generateQuestionPrompt cleanTechnology cleanDifficulty
                   (q_questionNumber body) (or_empty (q_questionType body)))
                h w Hk) as [Hp _].
  destruct (makeGroqRequest _ h w) as [w' r]. cbn [fst] in Hp.
  match goal with
  | |- context [match ?x with inl _ => _ | inr _ => _ end] => destruct x
  end; [|exact Hp].
  destruct (includes _ _); exact Hp.
Qed.

(** C5, on the code.  A request for technology Python, difficulty Easy,
    type mcq, ordinal 1 reaches the model with the difficulty lower-cased
    by the route: the prompt posted is the one for [easy], and the tier it
    embeds after the [difficulty] key is 3, not 1.  The prompt builder given
    the label [Easy] itself embeds 1, and the route turns every label into
    one whose tier is 3. *)
Theorem easy_request_posts_tier_3 (h : Host) (w : World) :
  key_missing h = false ->
  let prompt := mcq_prompt (lit "Python") (lit "easy") 1 in
  posted (fst (question_POST python_easy_mcq h w)) = prompt :: posted w
  /\ includes prompt (tq "~difficulty~: 3,") = true
  /\ includes prompt (tq "~difficulty~: 1,") = false
  /\ includes prompt (lit "Be appropriate for easy difficulty level") = true
  /\ includes (generateQuestionPrompt (lit "Python") (lit "Easy") 1 (lit "mcq"))
       (tq "~difficulty~: 1,") = true
  /\ (forall label, difficulty_tier (toLowerCase (trim label)) = 3).
Proof.
  intros Hk. cbv zeta.
  split; [|repeat split; try (vm_compute; reflexivity);
             intros label; apply difficulty_tier_lowered].
  now destruct (question_POST_posts python_easy_mcq h w
                  (lit "Python") (lit "easy")
                  eq_refl eq_refl eq_refl eq_refl Hk) as [_ ->].
Qed.

Lemma easy_request_posts_tier_3_witness :
  let h := mkHost (Some (lit "key")) 0 0 NetworkFailure in
  key_missing h = false
  /\ posted (fst (question_POST python_easy_mcq h (initial_world 0)))
     = [mcq_prompt (lit "Python") (lit "easy") 1].
Proof.
  cbv zeta. split; [reflexivity|].
  exact (proj1 (easy_request_posts_tier_3
                  (mkHost (Some (lit "key")) 0 0 NetworkFailure)
                  (initial_world 0) eq_refl)).
Defined.

(** The rate-limit signal of the completion API as [generateQuestion]
    throws it. *)
Lemma generateQuestion_429 (technology difficulty questionType : str)
  (questionNumber : Z) (h : Host) (w : World) (r : ApiReply) :
  key_missing h = false ->
  reply h = Replied r ->
  api_status r = 429 ->
  snd (generateQuestion technology difficulty questionNumber questionType h w)
  = throw (Error (lit "Rate limit exceeded")).
Proof.
  intros Hk Hr Hs. unfold generateQuestion, makeGroqRequest.
  rewrite Hk, Hr. unfold reply_ok. rewrite Hs. reflexivity.
Qed.

(** C8, on the code.  When the completion API answers 429 to a well-formed
    question request, [generateQuestion] throws [Rate limit exceeded], the
    route looks for [rate limit] in that message, does not find it (the
    message has a capital R), and answers with status 500 and the message
    as the error, not with the status 429 of its rate-limit branch. *)
Theorem remote_429_answered_500 (body : QuestionBody) (h : Host) (w : World)
  (r : ApiReply) (cleaned : str * str) :
  blank (q_technology body) = false ->
  blank (q_difficulty body) = false ->
  blank (q_questionType body) = false ->
  clean_inputs body = ok cleaned ->
  key_missing h = false ->
  reply h = Replied r ->
  api_status r = 429 ->
  snd (question_POST body h w)
  = mkResponse 500 (error_json (lit "Rate limit exceeded"))
  /\ includes (lit "Rate limit exceeded") (lit "rate limit") = false.
Proof.
  intros Ht Hd Hq Hc Hk Hr Hs. split; [|reflexivity].
  destruct cleaned as [cleanTechnology cleanDifficulty].
  unfold question_POST. rewrite Ht, Hd, Hq, Hc. unfold ok at 1.
  cbn [orb]. cbv beta iota.
  pose proof (generateQuestion_429 cleanTechnology cleanDifficulty
                (or_empty (q_questionType body)) (q_questionNumber body)
                h w r Hk Hr Hs) as H.
  destruct (generateQuestion _ _ _ _ h w) as [w' res]. cbn [snd] in H.
  rewrite H. reflexivity.
Qed.

Lemma remote_429_answered_500_witness :
  http_status
    (snd (question_POST python_easy_mcq
            (mkHost (Some (lit "key")) 0 120
               (Replied (mkReply 429 (lit "Too Many Requests") [])))
            (initial_world 0)))
  = 500.
Proof.
  now rewrite (proj1 (remote_429_answered_500 python_easy_mcq
                 (mkHost (Some (lit "key")) 0 120
                    (Replied (mkReply 429 (lit "Too Many Requests") [])))
                 (initial_world 0)
                 (mkReply 429 (lit "Too Many Requests") [])
                 (lit "Python", lit "easy")
                 eq_refl eq_refl eq_refl eq_refl eq_refl eq_refl eq_refl)).
Defined.

(* ================================================================== *)
(** * Further properties *)

(* ------------------------------------------------------------------ *)
(** ** Replacing one code unit at a time *)

Lemma exec_at_class (f : N -> bool) (pos : nat) (s : str) :
  exec_at (Chr f) pos s =
  match s with
  | x :: _ => if f x then Some (S pos, []) else None
  | [] => None
  end.
Proof. destruct s as [|x t]; [reflexivity|]. cbn. now destruct (f x). Qed.

(** A replacement whose pattern is one character class rewrites the text
    code unit by code unit. *)
Lemma replace_from_class (f : N -> bool) (tmpl : list piece) (pos : nat)
  (s : str) :
  replace_from (Chr f) tmpl pos 0 s =
  flat_map (fun c => if f c then expand tmpl [] else [c]) s.
Proof.
  revert pos.
  induction s as [|x t IH]; intros pos; cbn [replace_from flat_map];
    rewrite exec_at_class; [reflexivity|].
  destruct (f x).
  - assert (Nat.eqb (S pos) pos = false) as -> by (apply Nat.eqb_neq; lia).
    replace (S pos - pos - 1)%nat with 0%nat by lia. now rewrite IH.
  - cbn [app]. now rewrite IH.
Qed.

Lemma replace_all_class (f : N -> bool) (tmpl : list piece) (s : str) :
  replace_all (Chr f) tmpl s =
  flat_map (fun c => if f c then expand tmpl [] else [c]) s.
Proof. apply replace_from_class. Qed.

Lemma replace_all_class_delete (f : N -> bool) (s : str) :
  replace_all (Chr f) [] s = filter (fun c => negb (f c)) s.
Proof.
  rewrite replace_all_class. induction s as [|x t IH]; [reflexivity|].
  cbn [flat_map filter]. rewrite IH. now destruct (f x).
Qed.

(* ------------------------------------------------------------------ *)
(** ** The technology sanitizer *)

Lemma toLowerCase_no_upper (s : str) :
  forallb (fun c => negb (is_upper c)) (toLowerCase s) = true.
Proof.
  induction s as [|c t IH]; [reflexivity|].
  cbn [toLowerCase map forallb]. fold (toLowerCase t).
  now rewrite lower_not_upper, IH.
Qed.

Lemma lower_alnum (c : N) :
  is_alnum c = true -> is_alnum (if is_upper c then (c + 32)%N else c) = true.
Proof.
  destruct (is_upper c) eqn:E; [intros _|trivial].
  unfold is_alnum. apply orb_true_iff. left. apply orb_true_iff. right.
  unfold is_upper, is_lower in *.
  apply andb_true_iff in E as [E1 E2]. apply N.leb_le in E1, E2.
  apply andb_true_iff. split; apply N.leb_le; lia.
Qed.

Lemma toLowerCase_alnum (s : str) :
  forallb is_alnum s = true -> forallb is_alnum (toLowerCase s) = true.
Proof.
  induction s as [|c t IH]; [reflexivity|].
  cbn [toLowerCase map forallb]. fold (toLowerCase t).
  intros H. apply andb_true_iff in H as [Hc Ht].
  now rewrite (IH Ht), (lower_alnum c Hc).
Qed.

Lemma filter_all (f : N -> bool) (s : str) :
  forallb f s = true -> filter f s = s.
Proof.
  induction s as [|c t IH]; [reflexivity|]. cbn [forallb filter].
  intros H. apply andb_true_iff in H as [-> Ht]. now rewrite IH.
Qed.

Lemma forallb_filter (f : N -> bool) (s : str) :
  forallb f (filter f s) = true.
Proof.
  induction s as [|c t IH]; [reflexivity|]. cbn [filter].
  destruct (f c) eqn:E; [cbn [forallb]; now rewrite E|exact IH].
Qed.

(** What the replacement of the special characters leaves. *)
Lemma replace_special (s : str) :
  replace_all re_special [] s = filter is_alnum s.
Proof.
  unfold re_special. rewrite replace_all_class_delete.
  apply filter_ext. intros c. apply negb_involutive.
Qed.

Lemma replace_special_alnum (s : str) :
  forallb is_alnum (replace_all re_special [] s) = true.
Proof. rewrite replace_special. apply forallb_filter. Qed.

(** The values of the table are alphanumeric. *)
Lemma specialCases_alnum (k v : str) :
  assoc k specialCases = Some v -> forallb is_alnum v = true.
Proof.
  unfold specialCases. cbn [assoc].
  repeat match goal with
         | |- context [if ?b then _ else _] => destruct b
         end; intros H; try discriminate; injection H as <-; reflexivity.
Qed.

(** The keys of the table are not. *)
Lemma specialCases_not_alnum (k : str) :
  forallb is_alnum k = true -> assoc k specialCases = None.
Proof.
  intros Hk. unfold specialCases. cbn [assoc].
  repeat match goal with
         | |- context [if str_eqb k ?x then _ else _] =>
             destruct (str_eqb k x) eqn:?;
             [match goal with
              | H : str_eqb k _ = true |- _ =>
                  apply str_eqb_spec in H; subst k; discriminate
              end|]
         end.
  reflexivity.
Qed.

(** Of the inherited names, a lower-cased text can only be [constructor]
    or [__proto__]: the others hold a capital letter. *)
Lemma lower_prototype_name (s : str) :
  mem (toLowerCase s) prototype_names = true ->
  toLowerCase s = lit "constructor" \/ toLowerCase s = lit "__proto__".
Proof.
  intros H. apply mem_In in H. pose proof (toLowerCase_no_upper s) as L.
  cbn [prototype_names In] in H.
  repeat destruct H as [H|H]; try contradiction; rewrite <- H in *; auto;
    discriminate L.
Qed.

(** X1. [sanitizeTechnology] returns a string made of letters and digits
    only, whatever the text, with one exception: when the lower-cased text
    is [constructor] or [__proto__], the read of the table finds the
    member of [Object.prototype] of that name and returns it. *)
Theorem sanitizeTechnology_alphanumeric (tech : str) :
  match sanitizeTechnology tech with
  | Text s => forallb is_alnum s = true
  | Inherited name =>
      name = toLowerCase tech
      /\ (name = lit "constructor" \/ name = lit "__proto__")
  end.
Proof.
  unfold sanitizeTechnology. cbv zeta.
  destruct (assoc (toLowerCase tech) specialCases) as [v|] eqn:Ea.
  - now apply specialCases_alnum in Ea.
  - destruct (mem (toLowerCase tech) prototype_names) eqn:Em.
    + split; [reflexivity|now apply lower_prototype_name].
    + apply replace_special_alnum.
Qed.

Example sanitizeTechnology_values :
  map sanitizeTechnology
    [lit "C++"; lit "Node.JS"; lit "Ruby on Rails"; lit "+-*"; lit "Constructor";
     lit "con-structor"; lit "toString"]
  = [Text (lit "cpp"); Text (lit "nodejs"); Text (lit "RubyonRails"); Text [];
     Inherited (lit "constructor"); Text (lit "constructor");
     Text (lit "toString")].
Proof. vm_compute. reflexivity. Qed.

(** X2. Sanitizing is idempotent on its string results, except that the
    result [constructor] (in any case) is itself one of the two texts for
    which the table's inherited member is returned. *)
Theorem sanitizeTechnology_idempotent (tech s : str) :
  sanitizeTechnology tech = Text s ->
  toLowerCase s <> lit "constructor" ->
  sanitizeTechnology s = Text s.
Proof.
  intros H Hc.
  assert (forallb is_alnum s = true) as Ha.
  { unfold sanitizeTechnology in H. cbv zeta in H.
    destruct (assoc (toLowerCase tech) specialCases) as [v|] eqn:Ea.
    - injection H as <-. now apply specialCases_alnum in Ea.
    - destruct (mem (toLowerCase tech) prototype_names); [discriminate|].
      injection H as <-. apply replace_special_alnum. }
  unfold sanitizeTechnology. cbv zeta.
  rewrite (specialCases_not_alnum _ (toLowerCase_alnum s Ha)).
  destruct (mem (toLowerCase s) prototype_names) eqn:Em.
  - apply lower_prototype_name in Em as [E|E]; [contradiction|].
    apply toLowerCase_alnum in Ha. rewrite E in Ha. discriminate Ha.
  - rewrite replace_special. f_equal. now apply filter_all.
Qed.

Lemma sanitizeTechnology_idempotent_witness :
  sanitizeTechnology (lit "nodejs") = Text (lit "nodejs").
Proof.
  exact (sanitizeTechnology_idempotent (lit "Node.js") (lit "nodejs")
           eq_refl ltac:(discriminate)).
Defined.

(* ------------------------------------------------------------------ *)
(** ** The candidate of the response parser, in closed form *)

Lemma split_first (c : N) (s : str) :
  existsb (N.eqb c) s = true ->
  exists pre rest,
    s = pre ++ c :: rest /\ existsb (N.eqb c) pre = false
    /\ after_first c s = rest.
Proof.
  induction s as [|x t IH]; [discriminate|]. cbn [existsb after_first].
  destruct (N.eqb c x) eqn:E.
  - intros _. apply N.eqb_eq in E as <-. now exists [], t.
  - cbn [orb]. intros H. destruct (IH H) as (pre & rest & -> & Hp & Ha).
    exists (x :: pre), rest. cbn [app existsb]. now rewrite E, Hp.
Qed.

Lemma split_last (c : N) (s : str) :
  existsb (N.eqb c) s = true ->
  exists body post,
    s = body ++ c :: post /\ existsb (N.eqb c) post = false
    /\ through_last c s = body ++ [c].
Proof.
  induction s as [|x t IH]; [discriminate|]. cbn [existsb through_last].
  destruct (existsb (N.eqb c) t) eqn:Et.
  - intros _. destruct (IH eq_refl) as (body & post & -> & Hp & Ha).
    exists (x :: body), post. cbn [app]. now rewrite Ha.
  - rewrite orb_false_r. intros E. rewrite E.
    apply N.eqb_eq in E as <-. now exists [], t.
Qed.

Lemma after_first_none (c : N) (s : str) :
  existsb (N.eqb c) s = false -> after_first c s = [].
Proof.
  induction s as [|x t IH]; [reflexivity|]. cbn [existsb after_first].
  intros H. apply orb_false_iff in H as [-> Ht]. now apply IH.
Qed.

(** Where no closing brace follows, no candidate starts. *)
Lemma search_unclosed (s : str) (pos : nat) :
  existsb (N.eqb 125) s = false -> search re_json_object pos s = None.
Proof.
  revert pos. induction s as [|x t IH]; intros pos H; cbn [search].
  - reflexivity.
  - cbn [existsb] in H. apply orb_false_iff in H as [Hx Ht].
    assert (exec_at re_json_object pos (x :: t) = None) as ->.
    { unfold exec_at, re_json_object. cbn [rmatch one].
      destruct (N.eqb 123 x); [|reflexivity].
      now apply span_after_last. }
    now apply IH.
Qed.

Lemma match_first_unclosed (pre rest : str) :
  existsb (N.eqb 123) pre = false ->
  existsb (N.eqb 125) rest = false ->
  match_first re_json_object (pre ++ 123%N :: rest) = None.
Proof.
  intros Hpre Hrest. unfold match_first. generalize 0%nat as pos.
  induction pre as [|x pre IH]; intros pos; cbn [app].
  - apply search_unclosed. cbn [existsb]. now rewrite Hrest.
  - cbn [search]. cbn [existsb] in Hpre.
    apply orb_false_iff in Hpre as [Hx Hpre].
    rewrite exec_at_not_brace by exact Hx. now apply IH.
Qed.

Lemma match_first_closed_form (text : str) :
  match_first re_json_object text =
  let rest := after_first 123 text in
  if existsb (N.eqb 125) rest
  then Some (123%N :: through_last 125 rest)
  else None.
Proof.
  cbv zeta. destruct (existsb (N.eqb 123) text) eqn:Eo.
  - destruct (split_first _ _ Eo) as (pre & rest & -> & Hpre & ->).
    destruct (existsb (N.eqb 125) rest) eqn:Ec.
    + destruct (split_last _ _ Ec) as (body & post & -> & Hpost & ->).
      now apply match_first_span.
    + now apply match_first_unclosed.
  - rewrite after_first_none by exact Eo. now apply match_first_no_brace.
Qed.

(** X3. The candidate that [response.match] extracts, in closed form: the
    text from the first opening brace to the last closing brace that
    follows it.  There is no candidate, and on a non-empty text the parser
    reports that no JSON object was found, exactly when no closing brace
    follows the first opening brace; a brace pair in the wrong order is
    such a text. *)
Theorem candidate_is_first_to_last_brace (text : str) :
  let rest := after_first 123 text in
  match_first re_json_object text
  = (if existsb (N.eqb 125) rest
     then Some (123%N :: through_last 125 rest)
     else None)
  /\ forall fields,
       text <> [] ->
       parseJsonResponse (JStr text) fields
       = throw (Error (lit "No JSON object found in response"))
       <-> existsb (N.eqb 125) rest = false.
Proof.
  cbv zeta. split; [apply match_first_closed_form|].
  intros fields Hne. destruct text as [|c t]; [congruence|].
  unfold parseJsonResponse. rewrite match_first_closed_form. cbv zeta.
  destruct (existsb (N.eqb 125) (after_first 123 (c :: t))).
  - split; [|discriminate].
    destruct (parse_and_check _ _ fields); [|discriminate].
    destruct (parse_and_check _ _ fields); discriminate.
  - split; reflexivity.
Qed.

Example wrong_order_is_no_object :
  parseJsonResponse (JStr (lit "} then {")) scoring_fields
  = throw (Error (lit "No JSON object found in response")).
Proof. vm_compute. reflexivity. Qed.

(** X4. Whatever the parser returns, it got from a non-empty text whose
    candidate, as extracted or else as repaired, [JSON.parse] reads as the
    value returned, and that value holds every required field. *)
Theorem parseJsonResponse_sound (response : jsval) (fields : list str)
  (v : jsval) :
  parseJsonResponse response fields = ok v ->
  exists text candidate,
    response = JStr text /\ text <> []
    /\ match_first re_json_object text = Some candidate
    /\ (JSON_parse candidate = ok v
        \/ (is_ok (parse_and_check (lit "Missing required fields: ")
                     candidate fields) = false
            /\ JSON_parse (repair candidate) = ok v))
    /\ forall f, In f fields -> has f v = ok true.
Proof.
  intros H. pose proof (parseJsonResponse_required _ _ _ H) as Hm.
  unfold parseJsonResponse in H.
  destruct response as [| | | |[|c t]| |]; try discriminate.
  destruct (match_first re_json_object (c :: t)) as [cand|] eqn:Ec;
    [|discriminate].
  exists (c :: t), cand. split; [reflexivity|]. split; [discriminate|].
  split; [exact Ec|]. split; [|now apply missing_fields_ok_nil].
  destruct (parse_and_check _ cand fields) as [e|p] eqn:E1.
  - right. split; [reflexivity|].
    destruct (parse_and_check _ (repair cand) fields) as [e'|p'] eqn:E2;
      [discriminate|].
    injection H as ->. now apply parse_and_check_ok in E2.
  - left. injection H as ->. now apply parse_and_check_ok in E1.
Qed.

Lemma parseJsonResponse_sound_witness :
  exists text candidate,
    JStr (lit "Sure: " ++ scored_object) = JStr text /\ text <> []
    /\ match_first re_json_object text = Some candidate
    /\ (JSON_parse candidate = ok (JObj scored_value)
        \/ (is_ok (parse_and_check (lit "Missing required fields: ")
                     candidate scoring_fields) = false
            /\ JSON_parse (repair candidate) = ok (JObj scored_value)))
    /\ forall f, In f scoring_fields -> has f (JObj scored_value) = ok true.
Proof.
  apply (parseJsonResponse_sound (JStr (lit "Sure: " ++ scored_object))
           scoring_fields (JObj scored_value)).
  vm_compute. reflexivity.
Defined.

(** X5. The parser never lets a [SyntaxError] or a [TypeError] escape:
    whatever it throws is an [Error] whose message is one of the two
    refusals or begins with the failure prefix. *)
Theorem parseJsonResponse_errors (response : jsval) (fields : list str)
  (e : js_error) :
  parseJsonResponse response fields = throw e ->
  exists msg,
    e = Error msg
    /\ (msg = lit "Response must be a non-empty string"
        \/ msg = lit "No JSON object found in response"
        \/ startsWith (lit "Failed to parse response as JSON: ") msg = true).
Proof.
  unfold parseJsonResponse, throw.
  destruct response as [| | | |[|c t]| |];
    try (intros H; injection H as <-; eexists; split; [reflexivity|]; auto).
  destruct (match_first re_json_object (c :: t)) as [cand|].
  - destruct (parse_and_check _ cand fields); [|discriminate].
    destruct (parse_and_check _ (repair cand) fields); [|discriminate].
    intros H; injection H as <-. eexists; split; [reflexivity|].
    right. right. reflexivity.
  - intros H; injection H as <-. eexists; split; [reflexivity|]. auto.
Qed.

Lemma parseJsonResponse_errors_witness :
  exists msg,
    Error (lit "Response must be a non-empty string") = Error msg
    /\ (msg = lit "Response must be a non-empty string"
        \/ msg = lit "No JSON object found in response"
        \/ startsWith (lit "Failed to parse response as JSON: ") msg = true).
Proof.
  exact (parseJsonResponse_errors (JNum (Number.of_int 7)) scoring_fields _
           eq_refl).
Defined.

(* ------------------------------------------------------------------ *)
(** ** The escapes of the repair pass *)




(** An object laid out on several lines, once it needs the second
    attempt, cannot pass it: the line feeds between its tokens are
    escaped too.  On one line the same object is mended. *)
Example repair_escapes_layout :
  repair (lit "{
  score: 7
}") = tq "{\n  ~score~: 7\n}"
  /\ is_ok (parseJsonResponse (JStr (lit "{
  score: 7
}")) [lit "score"]) = false
  /\ parseJsonResponse (JStr (lit "{ score: 7 }")) [lit "score"]
     = ok (JObj [(lit "score", JNum (Number.of_int 7))]).
Proof. repeat split; vm_compute; reflexivity. Qed.

(* ------------------------------------------------------------------ *)
(** ** What the validator accepts *)

Lemma missing_fields_lookup (fields : list str) (v : jsval) :
  missing_fields fields v = ok [] -> fields <> [] ->
  exists kvs, v = JObj kvs /\ forall f, In f fields -> lookup f kvs <> None.
Proof.
  intros Hm Hne. pose proof (missing_fields_ok_nil _ _ Hm) as Hall.
  destruct fields as [|g t]; [congruence|].
  destruct (has_true_object g v) as (kvs & x & -> & _);
    [apply Hall; now left|].
  exists kvs. split; [reflexivity|]. intros f Hf.
  destruct (has_true_object f (JObj kvs)) as (kvs' & y & E & Hy);
    [now apply Hall|].
  injection E as <-. congruence.
Qed.

(** The checks every question passes, whatever its type: what is accepted
    is an object with the four fields, a sequence of topics and a numeric
    difficulty, and what remains to check is the model answer. *)
Lemma validate_common (response : jsval) (questionType : str) (v : jsval) :
  validateQuestionResponse response questionType = ok v ->
  exists kvs topics tier modelAnswer,
    response = JObj kvs
    /\ lookup (lit "question") kvs <> None
    /\ lookup (lit "expectedTopics") kvs = Some (JArr topics)
    /\ lookup (lit "difficulty") kvs = Some (JNum tier)
    /\ lookup (lit "modelAnswer") kvs = Some modelAnswer.
Proof.
  unfold validateQuestionResponse.
  destruct (truthy response); cbn [negb]; [|discriminate].
  destruct (missing_fields default_fields response) as [e|[|m ms]] eqn:Em;
    cbn [bind]; try discriminate.
  destruct (missing_fields_lookup _ _ Em ltac:(discriminate))
    as (kvs & -> & Hall).
  pose proof (Hall (lit "question") ltac:(simpl; tauto)) as Hq.
  pose proof (Hall (lit "expectedTopics") ltac:(simpl; tauto)) as Ht.
  pose proof (Hall (lit "difficulty") ltac:(simpl; tauto)) as Hd.
  pose proof (Hall (lit "modelAnswer") ltac:(simpl; tauto)) as Ha.
  cbn [get bind ok].
  destruct (lookup (lit "expectedTopics") kvs) as [topics|] eqn:Et;
    [|congruence].
  destruct (lookup (lit "difficulty") kvs) as [tier|] eqn:Ed; [|congruence].
  destruct (lookup (lit "modelAnswer") kvs) as [answer|] eqn:Ea;
    [|congruence].
  destruct topics; cbn [isArray negb]; try discriminate.
  destruct tier; cbn [typeof type_eqb negb]; try discriminate.
  intros _. do 4 eexists. repeat split; eauto.
Qed.

Lemma validate_returns_argument (response : jsval) (questionType : str)
  (v : jsval) :
  validateQuestionResponse response questionType = ok v -> v = response.
Proof.
  unfold validateQuestionResponse, ok, throw, bind.
  repeat match goal with
         | |- context [match ?m with _ => _ end] =>
             lazymatch m with
             | context [match _ with _ => _ end] => fail
             | _ => destruct m
             end
         end; intros H; try discriminate; now injection H.
Qed.

Lemma default_fields_present (kvs : list (str * jsval))
  (topics tier answer : jsval) :
  lookup (lit "question") kvs <> None ->
  lookup (lit "expectedTopics") kvs = Some topics ->
  lookup (lit "difficulty") kvs = Some tier ->
  lookup (lit "modelAnswer") kvs = Some answer ->
  missing_fields default_fields (JObj kvs) = ok [].
Proof.
  intros Hq Ht Hd Ha. apply missing_fields_none.
  intros f [<-|[<-|[<-|[<-|[]]]]]; congruence.
Qed.

(** A property read that gives something was made on an object that has
    the property. *)
Lemma get_defined (a : jsval) (k : str) (x : jsval) :
  get a k = ok x -> x <> JUndefined ->
  exists akvs, a = JObj akvs /\ lookup k akvs = Some x.
Proof.
  destruct a; cbn [get]; try discriminate;
    intros H; injection H as <-; try congruence.
  intros Hx. exists kvs. split; [reflexivity|].
  destruct (lookup k kvs); congruence.
Qed.

Lemma validate_mcq_only_well_formed (response : jsval) (questionType : str)
  (v : jsval) :
  str_eqb (toLowerCase questionType) (lit "mcq") = true ->
  validateQuestionResponse response questionType = ok v ->
  exists kvs, response = JObj kvs /\ well_formed_mcq kvs.
Proof.
  intros Hty H.
  destruct (validate_common _ _ _ H)
    as (kvs & topics & tier & answer & -> & Hq & Ht & Hd & Ha).
  exists kvs. split; [reflexivity|].
  unfold validateQuestionResponse in H. rewrite Hty in H.
  cbn [truthy negb] in H.
  rewrite (default_fields_present _ _ _ _ Hq Ht Hd Ha) in H.
  cbn [bind ok] in H.
  rewrite (get_object _ _ _ Ht), (get_object _ _ _ Hd),
    (get_object _ _ _ Ha) in H.
  cbn [bind ok isArray typeof type_eqb negb] in H.
  destruct (get answer (lit "options")) as [e|options] eqn:Eo;
    [discriminate|]. cbn [bind] in H.
  destruct (negb (truthy options) || _) eqn:E1 in H; [discriminate|].
  destruct (missing_fields requiredOptions options) as [e|[|m ms]] eqn:Em;
    cbn [bind] in H; try discriminate.
  destruct (missing_fields_lookup _ _ Em ltac:(discriminate))
    as (okvs & -> & Hall).
  destruct (get_defined _ _ _ Eo ltac:(discriminate)) as (akvs & -> & Hopt).
  cbn [get bind ok] in H.
  destruct (lookup (lit "correctOption") akvs) as [co|] eqn:Ec;
    [|discriminate].
  destruct (negb (truthy co) || _) eqn:E2 in H; [discriminate|].
  apply orb_false_iff in E2 as [_ E2]. apply negb_false_iff in E2.
  destruct co as [| | | |correct| |]; try discriminate.
  cbn [is_required_option] in E2. apply mem_In in E2.
  destruct (lookup (lit "explanation") akvs) as [ex|] eqn:Ee;
    [|discriminate].
  destruct (negb (truthy ex) || _) eqn:E3 in H; [discriminate|].
  apply orb_false_iff in E3 as [E3 E4].
  destruct ex as [| | | |explanation| |]; try discriminate.
  constructor; eauto.
  exists akvs, okvs, correct, explanation. repeat split; auto.
  intros ->. discriminate.
Qed.

(** X7. Only a well-formed multiple-choice payload passes the validator
    for a question of type [mcq], and what the validator returns is the
    payload itself: the options are an object with the labels A, B, C and
    D, the correct option is one of these four strings, the explanation
    is a non-empty string. *)
Theorem validateQuestionResponse_mcq_only (response : jsval)
  (questionType : str) (v : jsval) :
  str_eqb (toLowerCase questionType) (lit "mcq") = true ->
  validateQuestionResponse response questionType = ok v ->
  v = response /\ exists kvs, response = JObj kvs /\ well_formed_mcq kvs.
Proof.
  intros Hty H. split; [now apply validate_returns_argument in H|].
  now apply (validate_mcq_only_well_formed _ _ _ Hty H).
Qed.

Lemma validateQuestionResponse_mcq_only_witness :
  exists kvs,
    JObj (mcq_payload four_options (lit "B")) = JObj kvs
    /\ well_formed_mcq kvs.
Proof.
  exact (proj2 (validateQuestionResponse_mcq_only
                  (JObj (mcq_payload four_options (lit "B"))) (lit "Mcq")
                  _ eq_refl eq_refl)).
Defined.

Lemma validate_plain_only (response : jsval) (questionType : str) (v : jsval) :
  str_eqb (toLowerCase questionType) (lit "mcq") = false ->
  validateQuestionResponse response questionType = ok v ->
  exists kvs,
    response = JObj kvs
    /\ well_formed_plain (str_eqb (toLowerCase questionType) (lit "coding"))
         kvs.
Proof.
  intros Hty H.
  destruct (validate_common _ _ _ H)
    as (kvs & topics & tier & answer & -> & Hq & Ht & Hd & Ha).
  exists kvs. split; [reflexivity|].
  unfold validateQuestionResponse in H. rewrite Hty in H.
  cbn [truthy negb] in H.
  rewrite (default_fields_present _ _ _ _ Hq Ht Hd Ha) in H.
  cbn [bind ok] in H.
  rewrite (get_object _ _ _ Ht), (get_object _ _ _ Hd),
    (get_object _ _ _ Ha) in H.
  cbn [bind ok isArray typeof type_eqb negb] in H.
  destruct (str_eqb (toLowerCase questionType) (lit "coding")).
  - destruct (get answer (lit "isCode")) as [e|flag] eqn:Ef;
      [discriminate|]. cbn [bind] in H.
    destruct (truthy flag) eqn:Tf; cbn [negb] in H; [|discriminate].
    destruct (get_defined _ _ _ Ef) as (akvs & -> & Hflag);
      [intros ->; discriminate|].
    cbn [get bind ok] in H.
    destruct (lookup (lit "content") akvs) as [c|] eqn:Ec; [|discriminate].
    destruct c as [| | | |content| |]; try discriminate.
    constructor; eauto. exists akvs, content. eauto.
  - destruct (get answer (lit "content")) as [e|c] eqn:Ec;
      [discriminate|]. cbn [bind] in H.
    destruct c as [| | | |content| |]; try discriminate.
    destruct (get_defined _ _ _ Ec ltac:(discriminate)) as (akvs & -> & Hc).
    constructor; eauto. exists akvs, content.
    repeat split; auto. discriminate.
Qed.

Lemma validate_plain_accepts (kvs : list (str * jsval)) (questionType : str) :
  str_eqb (toLowerCase questionType) (lit "mcq") = false ->
  well_formed_plain (str_eqb (toLowerCase questionType) (lit "coding")) kvs ->
  validateQuestionResponse (JObj kvs) questionType = ok (JObj kvs).
Proof.
  intros Hty [Hq (topics & Ht) (tier & Hd) (answer & content & Ha & Hc & Hf)].
  unfold validateQuestionResponse. rewrite Hty. cbn [truthy negb].
  rewrite (default_fields_present _ _ _ _ Hq Ht Hd Ha). cbn [bind ok].
  rewrite (get_object _ _ _ Ht), (get_object _ _ _ Hd),
    (get_object _ _ _ Ha).
  cbn [bind ok isArray typeof type_eqb negb].
  rewrite (get_object _ _ _ Hc).
  destruct (str_eqb (toLowerCase questionType) (lit "coding")).
  - destruct (Hf eq_refl) as (flag & Hflag & Tf).
    rewrite (get_object _ _ _ Hflag). cbn [bind ok]. now rewrite Tf.
  - reflexivity.
Qed.

(** X8. For a question of any type other than [mcq], the validator
    accepts a payload exactly when it is an object with the four fields,
    a sequence of topics, a numeric difficulty and a model answer whose
    [content] is a string; for the type [coding] (in any case) the model
    answer must also hold a truthy [isCode].  A type the templates do not
    know is validated like [subjective]. *)
Theorem validateQuestionResponse_plain (response : jsval)
  (questionType : str) :
  str_eqb (toLowerCase questionType) (lit "mcq") = false ->
  validateQuestionResponse response questionType = ok response
  <-> exists kvs,
        response = JObj kvs
        /\ well_formed_plain
             (str_eqb (toLowerCase questionType) (lit "coding")) kvs.
Proof.
  intros Hty. split.
  - now apply validate_plain_only.
  - intros (kvs & -> & Hwf). now apply validate_plain_accepts.
Qed.

Lemma validateQuestionResponse_plain_witness :
  let payload :=
    [(lit "question", JStr (lit "Reverse a list."));
     (lit "expectedTopics", JArr [JStr (lit "lists")]);
     (lit "difficulty", JNum (Number.of_int 2));
     (lit "modelAnswer",
      JObj [(lit "isCode", JBool true);
            (lit "content", JStr (lit "xs[::-1]"))])] in
  well_formed_plain true payload.
Proof.
  cbv zeta.
  destruct (proj1 (validateQuestionResponse_plain
                     (JObj
                        [(lit "question", JStr (lit "Reverse a list."));
                         (lit "expectedTopics", JArr [JStr (lit "lists")]);
                         (lit "difficulty", JNum (Number.of_int 2));
                         (lit "modelAnswer",
                          JObj [(lit "isCode", JBool true);
                                (lit "content", JStr (lit "xs[::-1]"))])])
                     (lit "Coding") eq_refl) eq_refl)
    as (kvs & E & Hwf).
  injection E as <-. exact Hwf.
Defined.

(** A coding answer whose [isCode] is [false] is refused as a coding
    question and accepted as a subjective one or under an unknown type. *)
Example validate_isCode_false :
  let payload :=
    JObj [(lit "question", JStr (lit "Explain closures."));
          (lit "expectedTopics", JArr []);
          (lit "difficulty", JNum (Number.of_int 1));
          (lit "modelAnswer",
           JObj [(lit "isCode", JBool false);
                 (lit "content", JStr (lit "A closure is ..."))])] in
  is_ok (validateQuestionResponse payload (lit "coding")) = false
  /\ validateQuestionResponse payload (lit "subjective") = ok payload
  /\ validateQuestionResponse payload (lit "system design") = ok payload.
Proof. cbv zeta. repeat split; vm_compute; reflexivity. Qed.

(* ------------------------------------------------------------------ *)
(** ** What the question generator returns *)

Lemma unconfigured_request (prompt : str) (h : Host) (w : World) :
  key_missing h = true ->
  makeGroqRequest prompt h w
  = (w, throw (Error (lit "GROQ API key is not configured"))).
Proof. intros Hk. unfold makeGroqRequest. now rewrite Hk. Qed.

Lemma generateQuestion_posts (technology difficulty : str)
  (questionNumber : Z) (questionType : str) (h : Host) (w w' : World)
  (q : jsval) :
  generateQuestion technology difficulty questionNumber questionType h w
  = (w', ok q) ->
  key_missing h = false
  /\ posted w'
     = generateQuestionPrompt technology difficulty questionNumber questionType
       :: posted w.
Proof.
  unfold generateQuestion. cbv zeta.
  destruct (key_missing h) eqn:Hk.
  { rewrite (unconfigured_request _ _ _ Hk). discriminate. }
  pose proof (configured_posts
                (generateQuestionPrompt technology difficulty questionNumber
                   questionType) h w Hk) as [Hp _].
  destruct (makeGroqRequest _ h w) as [w1 r]. cbn [fst] in Hp.
  intros H. injection H as <- _. auto.
Qed.

Lemma generateQuestion_validated (technology difficulty : str)
  (questionNumber : Z) (questionType : str) (h : Host) (w w' : World)
  (q : jsval) :
  generateQuestion technology difficulty questionNumber questionType h w
  = (w', ok q) ->
  validateQuestionResponse q questionType = ok q
  /\ missing_fields default_fields q = ok [].
Proof.
  unfold generateQuestion. cbv zeta.
  destruct (makeGroqRequest _ h w) as [w1 r].
  intros H. injection H as _ H.
  destruct r as [e|response]; [discriminate|]. cbn [bind] in H.
  destruct (truthy (completion_content response)); cbn [negb] in H;
    [|discriminate].
  destruct (completion_content response) as [| | | |text| |];
    try discriminate.
  destruct (parseJsonResponse (JStr text) default_fields) as [e|p] eqn:Ep;
    [discriminate|]. cbn [bind] in H.
  destruct (validateQuestionResponse p questionType) as [e|p'] eqn:Ev;
    [discriminate|]. cbn [bind] in H. injection H as <-.
  pose proof (validate_returns_argument _ _ _ Ev) as ->.
  split; [exact Ev|]. now apply parseJsonResponse_required in Ep.
Qed.

(** X9. Whatever [generateQuestion] returns has passed the validator for
    the type asked for and is an object with the four fields of a
    question; it was obtained with a credential, from one request that
    carried the prompt built from the four arguments. *)
Theorem generateQuestion_sound (technology difficulty : str)
  (questionNumber : Z) (questionType : str) (h : Host) (w w' : World)
  (q : jsval) :
  generateQuestion technology difficulty questionNumber questionType h w
  = (w', ok q) ->
  key_missing h = false
  /\ posted w'
     = generateQuestionPrompt technology difficulty questionNumber questionType
       :: posted w
  /\ validateQuestionResponse q questionType = ok q
  /\ exists kvs,
       q = JObj kvs /\ forall f, In f default_fields -> lookup f kvs <> None.
Proof.
  intros H.
  destruct (generateQuestion_posts _ _ _ _ _ _ _ _ H) as [Hk Hp].
  destruct (generateQuestion_validated _ _ _ _ _ _ _ _ H) as [Hv Hm].
  repeat split; auto.
  now apply missing_fields_lookup in Hm.
Qed.

Lemma generateQuestion_sound_witness :
  validateQuestionResponse (JObj subjective_value) (lit "subjective")
  = ok (JObj subjective_value).
Proof.
  exact (proj1 (proj2 (proj2
           (generateQuestion_sound (lit "JavaScript") (lit "medium") 1
              (lit "subjective") (scoring_host subjective_question)
              (initial_world 0)
              (fst (generateQuestion (lit "JavaScript") (lit "medium") 1
                      (lit "subjective") (scoring_host subjective_question)
                      (initial_world 0)))
              (JObj subjective_value)
              ltac:(vm_compute; reflexivity))))).
Defined.

(* ------------------------------------------------------------------ *)
(** ** What the scorer returns *)

Lemma set_object (kvs : list (str * jsval)) (k : str) (x : jsval) :
  set (JObj kvs) k x = JObj (assign k x kvs).
Proof. reflexivity. Qed.

(** The fields the scorer does not write are as the model gave them. *)
Lemma normalize_analysis_other (kvs : list (str * jsval)) (k : str) :
  str_eqb k (lit "score") = false ->
  str_eqb k (lit "coveredTopics") = false ->
  str_eqb k (lit "missingTopics") = false ->
  exists kvs',
    normalize_analysis (JObj kvs) = JObj kvs'
    /\ lookup k kvs' = lookup k kvs.
Proof.
  intros Hs Hc Hm. unfold normalize_analysis.
  assert (exists kvs1,
            match get_opt (JObj kvs) (lit "score") with
            | JNum score => set (JObj kvs) (lit "score")
                              (JNum (normalize_score score))
            | _ => set (JObj kvs) (lit "score") (JNum zero)
            end = JObj kvs1 /\ lookup k kvs1 = lookup k kvs)
    as (kvs1 & -> & H1).
  { destruct (get_opt (JObj kvs) (lit "score")); rewrite set_object;
      (eexists; split; [reflexivity|now apply lookup_assign_other]). }
  assert (exists kvs2,
            (if negb (isArray (get_opt (JObj kvs1) (lit "coveredTopics")))
             then set (JObj kvs1) (lit "coveredTopics") (JArr [])
             else JObj kvs1) = JObj kvs2 /\ lookup k kvs2 = lookup k kvs)
    as (kvs2 & -> & H2).
  { destruct (negb _); [rewrite set_object|];
      (eexists; split; [reflexivity|]); [|exact H1].
    now rewrite lookup_assign_other. }
  destruct (negb _); [rewrite set_object|];
    (eexists; split; [reflexivity|]); [|exact H2].
  now rewrite lookup_assign_other.
Qed.

Lemma analyzeResponse_inv (question response : str)
  (expectedTopics : list str) (h : Host) (w w' : World) (analysis : jsval) :
  analyzeResponse question response expectedTopics h w = (w', ok analysis) ->
  key_missing h = false
  /\ posted w' = analysis_prompt question response expectedTopics :: posted w
  /\ exists parsed,
       analysis = normalize_analysis (JObj parsed)
       /\ members_defined parsed = true
       /\ forall f, In f scoring_fields -> lookup f parsed <> None.
Proof.
  unfold analyzeResponse.
  destruct (key_missing h) eqn:Hk; [discriminate|].
  pose proof (configured_posts
                (analysis_prompt question response expectedTopics) h w Hk)
    as [Hp _].
  destruct (makeGroqRequest _ h w) as [w1 r]. cbn [fst] in Hp.
  intros H. injection H as <- H.
  split; [reflexivity|]. split; [exact Hp|].
  destruct r as [e|apiResponse]; [discriminate|]. cbn [bind] in H.
  destruct (truthy (completion_content apiResponse)); cbn [negb] in H;
    [|discriminate].
  destruct (parseJsonResponse _ scoring_fields) as [e|p] eqn:Ep;
    [discriminate|]. cbn [bind] in H. injection H as <-.
  pose proof (parseJsonResponse_defined _ _ _ Ep) as Hd.
  apply parseJsonResponse_required in Ep.
  apply missing_fields_lookup in Ep as (kvs & -> & Hall); [|discriminate].
  now exists kvs.
Qed.

Lemma normalized_analysis_shape (kvs : list (str * jsval)) :
  members_defined kvs = true ->
  exists score covered missing,
    get_opt (normalize_analysis (JObj kvs)) (lit "score") = JNum score
    /\ from_0_to_10 score
    /\ get_opt (normalize_analysis (JObj kvs)) (lit "coveredTopics")
       = JArr covered
    /\ get_opt (normalize_analysis (JObj kvs)) (lit "missingTopics")
       = JArr missing.
Proof.
  intros Hd.
  destruct (normalize_analysis_topics kvs) as [Hc Hm].
  pose proof (normalize_analysis_score kvs) as Hs.
  assert (exists score,
            get_opt (normalize_analysis (JObj kvs)) (lit "score") = JNum score
            /\ from_0_to_10 score) as (score & Es & Hr).
  { rewrite Hs. rewrite get_opt_object.
    destruct (lookup (lit "score") kvs) as [x|] eqn:E;
      [|exists zero; repeat split].
    apply (lookup_defined _ _ _ Hd) in E.
    destruct x; try (exists zero; repeat split; fail).
    eexists; split; [reflexivity|apply normalize_score_range].
    cbn in E. now destruct (Number.is_nan x). }
  assert (forall x, exists l, (if isArray x then x else JArr []) = JArr l)
    as K by (intros x; destruct x; cbn [isArray]; eauto).
  destruct (K (get_opt (JObj kvs) (lit "coveredTopics"))) as [covered Ec].
  destruct (K (get_opt (JObj kvs) (lit "missingTopics"))) as [missing Em].
  exists score, covered, missing. rewrite Hc, Hm. auto.
Qed.



(* ------------------------------------------------------------------ *)
(** ** Requests one after the other *)

(** A request that was posted leaves the stamp of the moment it left and
    a clock that is later by the time the request took. *)
Lemma configured_clock (prompt : str) (h : Host) (w : World) :
  key_missing h = false ->
  clock (fst (makeGroqRequest prompt h w))
  = lastRequestTime (fst (makeGroqRequest prompt h w)) + Z.of_N (latency h).
Proof.
  intros Hk. unfold makeGroqRequest. rewrite Hk.
  assert (clock (fetch prompt h (waitForRateLimit (timer_lag h) w))
          = lastRequestTime (fetch prompt h (waitForRateLimit (timer_lag h) w))
            + Z.of_N (latency h)) as Hc by reflexivity.
  destruct (reply h) as [|r]; simpl; [auto|].
  destruct (reply_ok r); simpl; [auto|].
  destruct (api_status r =? 429); simpl; auto.
Qed.

(** X11. Two requests of the client, the second begun when the first has
    returned (however it ended, after any time [idle]): both prompts are
    posted, once each and in that order, and the second request leaves
    the minimum interval of 3000 ms after the first left, or as much
    earlier as its timer fires early by the wall clock: not earlier when
    that timer is on time or late. *)
Theorem makeGroqRequest_spacing (prompt1 prompt2 : str) (h1 h2 : Host)
  (idle : N) (w : World) :
  key_missing h1 = false -> key_missing h2 = false ->
  let w1 := fst (makeGroqRequest prompt1 h1 w) in
  let w2 := fst (makeGroqRequest prompt2 h2 (elapse (Z.of_N idle) w1)) in
  posted w2 = prompt2 :: prompt1 :: posted w
  /\ lastRequestTime w1 + 3000 + Z.min 0 (timer_lag h2) <= lastRequestTime w2
  /\ (0 <= timer_lag h2 -> lastRequestTime w1 + 3000 <= lastRequestTime w2)
  /\ (Z.of_N (latency h1) + Z.of_N idle < 3000 ->
      lastRequestTime w2 = lastRequestTime w1 + 3000 + timer_lag h2).
Proof.
  intros H1 H2. cbv zeta.
  destruct (configured_posts prompt1 h1 w H1) as [Hp1 _].
  pose proof (configured_clock prompt1 h1 w H1) as Hc1.
  set (w1 := fst (makeGroqRequest prompt1 h1 w)) in *.
  destruct (configured_posts prompt2 h2 (elapse (Z.of_N idle) w1) H2)
    as [Hp2 Hl2].
  split; [rewrite Hp2; unfold elapse; cbn [posted]; now rewrite Hp1|].
  rewrite Hl2.
  pose proof (waitForRateLimit_interval (timer_lag h2)
                (elapse (Z.of_N idle) w1)) as Hi.
  unfold elapse, MIN_REQUEST_INTERVAL in Hi.
  cbn [clock lastRequestTime] in Hi. specialize (Hi ltac:(lia)).
  unfold elapse. rewrite Hi.
  destruct (Z.ltb_spec (clock w1 + Z.of_N idle - lastRequestTime w1) 3000);
    repeat split; lia.
Qed.

Lemma makeGroqRequest_spacing_witness :
  let h1 := mkHost (Some (lit "key")) 4 120 NetworkFailure in
  let h2 := mkHost (Some (lit "key")) (-1) 250 (completion scored_object) in
  let w1 := fst (makeGroqRequest (lit "first") h1 (initial_world 1000)) in
  let w2 := fst (makeGroqRequest (lit "second") h2 (elapse 10 w1)) in
  posted w2 = [lit "second"; lit "first"]
  /\ lastRequestTime w2 = lastRequestTime w1 + 2999.
Proof.
  cbv zeta.
  destruct (makeGroqRequest_spacing (lit "first") (lit "second")
              (mkHost (Some (lit "key")) 4 120 NetworkFailure)
              (mkHost (Some (lit "key")) (-1) 250 (completion scored_object))
              10 (initial_world 1000) eq_refl eq_refl) as (Hp & _ & _ & Hs).
  split; [exact Hp|].
  etransitivity; [apply Hs; reflexivity|]. reflexivity.
Defined.

(* ------------------------------------------------------------------ *)
(** ** The answers of the analysis route *)

(** A refusal of the analysis route leaves the world as it was. *)
Lemma analyze_POST_refusal (body : AnalyzeBody) (h : Host) (w : World) :
  http_status (snd (analyze_POST body h w)) = 400 ->
  fst (analyze_POST body h w) = w.
Proof.
  unfold analyze_POST.
  destruct (a_expectedTopics body) as [topics|]; [|reflexivity].
  destruct (blank (a_question body) || blank (a_response body)
            || blank (a_questionType body)); [reflexivity|].
  destruct (str_eqb (toLowerCase _) (lit "mcq")).
  - destruct (blank (a_correctOption body)); reflexivity.
  - destruct (analyzeResponse _ _ topics h w) as [w1 [e|analysis]];
      discriminate.
Qed.

(** What the analysis route sends with status 200. *)
Lemma analyze_POST_analysis (body : AnalyzeBody) (h : Host) (w : World) :
  http_status (snd (analyze_POST body h w)) = 200 ->
  exists score covered missing,
    get_opt (http_json (snd (analyze_POST body h w))) (lit "score")
    = JNum score
    /\ from_0_to_10 score
    /\ get_opt (http_json (snd (analyze_POST body h w))) (lit "coveredTopics")
       = JArr covered
    /\ get_opt (http_json (snd (analyze_POST body h w))) (lit "missingTopics")
       = JArr missing.
Proof.
  unfold analyze_POST.
  destruct (a_expectedTopics body) as [topics|]; [|discriminate].
  destruct (blank (a_question body) || blank (a_response body)
            || blank (a_questionType body)); [discriminate|].
  destruct (str_eqb (toLowerCase _) (lit "mcq")).
  - destruct (blank (a_correctOption body)); [discriminate|]. intros _.
    destruct (str_eqb (toUpperCase _) (toUpperCase _)); cbn [snd http_json].
    + exists ten, (map JStr topics), []. repeat split.
    + exists zero, [], (map JStr topics). repeat split.
  - destruct (analyzeResponse _ _ topics h w) as [w1 [e|analysis]] eqn:Ea;
      [discriminate|]. intros _. cbn [snd http_json].
    apply analyzeResponse_inv in Ea as (_ & _ & parsed & -> & Hd & _).
    now apply normalized_analysis_shape.
Qed.

Lemma analyze_POST_statuses (body : AnalyzeBody) (h : Host) (w : World) :
  let answer := snd (analyze_POST body h w) in
  http_status answer = 200
  \/ (http_status answer = 400
      /\ (http_json answer = error_json (lit "Missing required fields")
          \/ http_json answer
             = error_json (lit "Missing correct option for MCQ")))
  \/ (http_status answer = 500
      /\ get_opt (http_json answer) (lit "error")
         = JStr (lit "Failed to analyze response")).
Proof.
  cbv zeta. unfold analyze_POST.
  destruct (a_expectedTopics body) as [topics|]; [|right; left; auto].
  destruct (blank (a_question body) || blank (a_response body)
            || blank (a_questionType body)); [right; left; auto|].
  destruct (str_eqb (toLowerCase _) (lit "mcq")).
  - destruct (blank (a_correctOption body)); [right; left; auto|now left].
  - destruct (analyzeResponse _ _ topics h w) as [w1 [e|analysis]].
    + right. right. split; reflexivity.
    + now left.
Qed.

(** X12. The answer of the analysis route to a request whose fields are
    absent or of the types the interview page gives them, on any host.
    A request without question, answer, expected topics or type, or for a
    multiple-choice question without correct option, is refused with
    status 400 and the reason, and the world is left as it was; no other
    request is.  A multiple-choice answer is analysed at once: status 200,
    the world as it was.  Any other answer goes to the scorer, and the
    world is as the scorer leaves it: what the scorer returns is sent
    with status 200, a failure of the scorer is answered with status 500,
    the error [Failed to analyze response] and details.  Every analysis
    sent with status 200 has a score from 0 to 10 and sequences of
    covered and missing topics. *)
Theorem analyze_POST_answers (body : AnalyzeBody) (h : Host) (w : World) :
  let w' := fst (analyze_POST body h w) in
  let answer := snd (analyze_POST body h w) in
  match analyze_refusal body with
  | Some reason => w' = w /\ answer = mkResponse 400 (error_json reason)
  | None =>
      exists topics,
        a_expectedTopics body = Some topics
        /\ if multiple_choice body
           then w' = w /\ http_status answer = 200
           else
             let scored :=
               analyzeResponse (or_empty (a_question body))
                 (or_empty (a_response body)) topics h w in
             w' = fst scored
             /\ match snd scored with
                | inr analysis => answer = mkResponse 200 analysis
                | inl error =>
                    http_status answer = 500
                    /\ exists details,
                         http_json answer
                         = JObj [(lit "error",
                                  JStr (lit "Failed to analyze response"));
                                 (lit "details", JStr details)]
                end
  end
  /\ (http_status answer = 200 ->
      exists score covered missing,
        get_opt (http_json answer) (lit "score") = JNum score
        /\ from_0_to_10 score
        /\ get_opt (http_json answer) (lit "coveredTopics") = JArr covered
        /\ get_opt (http_json answer) (lit "missingTopics") = JArr missing).
Proof.
  cbv zeta. split; [|apply analyze_POST_analysis].
  unfold analyze_refusal, multiple_choice, analyze_POST.
  destruct (a_expectedTopics body) as [topics|];
    [|rewrite !orb_true_r; cbn [orb]; split; reflexivity].
  rewrite orb_false_r.
  destruct (blank (a_question body) || blank (a_response body)
            || blank (a_questionType body)); [split; reflexivity|].
  destruct (str_eqb (toLowerCase _) (lit "mcq")); cbn [andb].
  - destruct (blank (a_correctOption body)); [split; reflexivity|].
    exists topics. repeat split.
  - exists topics. split; [reflexivity|].
    destruct (analyzeResponse _ _ topics h w) as [w1 [e|analysis]];
      cbn [fst snd]; repeat split. now exists (message e).
Qed.

(** A request without expected topics is refused, whatever else it
    holds; the answer of a scorer without credential is a failure of the
    scorer. *)
Example analyze_POST_refused_and_failed :
  let h := mkHost None 0 0 NetworkFailure in
  let w := initial_world 0 in
  analyze_POST
    (mkAnalyzeBody (Some (lit "q")) (Some (lit "a")) None
       (Some (lit "subjective")) None None) h w
  = (w, mkResponse 400 (error_json (lit "Missing required fields")))
  /\ analyze_POST
       (mkAnalyzeBody (Some (lit "q")) (Some (lit "a")) (Some [])
          (Some (lit "subjective")) None None) h w
     = (w, mkResponse 500
             (JObj [(lit "error", JStr (lit "Failed to analyze response"));
                    (lit "details",
                     JStr (lit "GROQ API key is not configured"))])).
Proof. split; reflexivity. Qed.

(* ------------------------------------------------------------------ *)
(** ** Decoding the technology *)

(** A text without a percent sign is decoded to itself. *)
Lemma decode_plain (s : str) (fuel : nat) :
  existsb (N.eqb 37) s = false -> (length s <= fuel)%nat ->
  Uri.decode fuel s = Some s.
Proof.
  revert fuel. induction s as [|c t IH]; intros fuel H Hf;
    [destruct fuel; reflexivity|].
  destruct fuel as [|fuel]; [cbn [length] in Hf; lia|].
  cbn [existsb] in H. apply orb_false_iff in H as [Hc Ht].
  cbn [Uri.decode]. unfold Uri.decode_step.
  rewrite N.eqb_sym, Hc. cbn [negb].
  rewrite IH; [reflexivity|exact Ht|cbn [length] in Hf; lia].
Qed.

Lemma decodeURIComponent_plain (s : str) :
  existsb (N.eqb 37) s = false -> decodeURIComponent s = ok s.
Proof.
  intros H. unfold decodeURIComponent.
  now rewrite decode_plain by (auto; lia).
Qed.

Lemma octet_inv (s : str) (b : N) (t : str) :
  Uri.octet s = Some (b, t) ->
  exists h1 h2,
    s = 37%N :: h1 :: h2 :: t /\ Json.hex_value h2 <> None.
Proof.
  unfold Uri.octet. destruct s as [|p [|h1 [|h2 t0]]]; try discriminate.
  destruct (p =? 37)%N eqn:Ep; [|discriminate].
  destruct (Json.hex_value h1); [|discriminate].
  destruct (Json.hex_value h2) eqn:E2; [|discriminate].
  intros H; injection H as _ <-. apply N.eqb_eq in Ep as ->.
  exists h1, h2. split; [reflexivity|]. rewrite E2. discriminate.
Qed.

(** An octet read from a text that ends with a percent sign leaves a text
    that ends with a percent sign. *)
Lemma octet_keeps_percent (s : str) (b : N) (t : str) :
  Uri.octet s = Some (b, t) -> last s 0%N = 37%N ->
  t <> [] /\ last t 0%N = 37%N.
Proof.
  intros H Hl. apply octet_inv in H as (h1 & h2 & -> & Hh).
  destruct t as [|x t].
  - cbn [last] in Hl. subst h2. now destruct Hh.
  - split; [discriminate|exact Hl].
Qed.

Lemma continuation_keeps_percent (s : str) (b : N) (t : str) :
  Uri.continuation s = Some (b, t) -> s <> [] /\ last s 0%N = 37%N ->
  t <> [] /\ last t 0%N = 37%N.
Proof.
  unfold Uri.continuation. intros H [_ Hl].
  destruct (Uri.octet s) as [[b0 t0]|] eqn:E; [|discriminate].
  destruct ((128 <=? b0)%N && (b0 <? 192)%N); [|discriminate].
  injection H as _ <-. now apply (octet_keeps_percent _ _ _ E).
Qed.

Lemma decode_step_keeps_percent (c : N) (t u r : str) :
  Uri.decode_step c t = Some (u, r) -> last (c :: t) 0%N = 37%N ->
  r <> [] /\ last r 0%N = 37%N.
Proof.
  unfold Uri.decode_step. intros H Hl.
  destruct (c =? 37)%N eqn:Ec; cbn [negb] in H.
  - destruct (Uri.octet (c :: t)) as [[b t1]|] eqn:E1; [|discriminate].
    pose proof (octet_keeps_percent _ _ _ E1 Hl) as K1.
    destruct (b <? 128)%N; [now injection H as _ <-|].
    destruct ((192 <=? b)%N && (b <? 224)%N).
    { destruct (Uri.continuation t1) as [[x t2]|] eqn:E2; [|discriminate].
      pose proof (continuation_keeps_percent _ _ _ E2 K1) as K2.
      destruct (_ <? 128)%N; [discriminate|]. now injection H as _ <-. }
    destruct ((224 <=? b)%N && (b <? 240)%N).
    { destruct (Uri.continuation t1) as [[x t2]|] eqn:E2; [|discriminate].
      pose proof (continuation_keeps_percent _ _ _ E2 K1) as K2.
      destruct (Uri.continuation t2) as [[y t3]|] eqn:E3; [|discriminate].
      pose proof (continuation_keeps_percent _ _ _ E3 K2) as K3.
      destruct (_ || _); [discriminate|]. now injection H as _ <-. }
    destruct ((240 <=? b)%N && (b <? 248)%N); [|discriminate].
    destruct (Uri.continuation t1) as [[x t2]|] eqn:E2; [|discriminate].
    pose proof (continuation_keeps_percent _ _ _ E2 K1) as K2.
    destruct (Uri.continuation t2) as [[y t3]|] eqn:E3; [|discriminate].
    pose proof (continuation_keeps_percent _ _ _ E3 K2) as K3.
    destruct (Uri.continuation t3) as [[z t4]|] eqn:E4; [|discriminate].
    pose proof (continuation_keeps_percent _ _ _ E4 K3) as K4.
    destruct (_ || _); [discriminate|]. now injection H as _ <-.
  - injection H as _ <-. destruct t as [|x t].
    + cbn [last] in Hl. apply N.eqb_neq in Ec. contradiction.
    + split; [discriminate|exact Hl].
Qed.

(** A text that ends with a percent sign cannot be decoded. *)
Lemma decode_trailing_percent (fuel : nat) (s : str) :
  s <> [] -> last s 0%N = 37%N -> Uri.decode fuel s = None.
Proof.
  revert s. induction fuel as [|fuel IH]; intros [|c t] Hne Hl;
    try congruence; [reflexivity|].
  cbn [Uri.decode].
  destruct (Uri.decode_step c t) as [[u r]|] eqn:E; [|reflexivity].
  destruct (decode_step_keeps_percent _ _ _ _ E Hl) as [Hr Hlr].
  now rewrite IH.
Qed.

Lemma decodeURIComponent_trailing_percent (s : str) :
  s <> [] -> last s 0%N = 37%N -> decodeURIComponent s = throw URIError.
Proof.
  intros Hne Hl. unfold decodeURIComponent.
  now rewrite decode_trailing_percent.
Qed.

(** X13. The cleaning of the inputs of the question route: a technology
    without a percent sign is passed on trimmed and otherwise as it was
    given, with the difficulty trimmed and lower-cased; a technology
    that, trimmed, ends with a percent sign raises a [URIError]. *)
Theorem clean_inputs_percent (body : QuestionBody) :
  let technology := trim (or_empty (q_technology body)) in
  (existsb (N.eqb 37) technology = false ->
   clean_inputs body
   = ok (technology, toLowerCase (trim (or_empty (q_difficulty body)))))
  /\ (technology <> [] -> last technology 0%N = 37%N ->
      clean_inputs body = throw URIError).
Proof.
  cbv zeta. unfold clean_inputs. split.
  - intros H. now rewrite (decodeURIComponent_plain _ H).
  - intros Hne Hl. now rewrite (decodeURIComponent_trailing_percent _ Hne Hl).
Qed.

(* ------------------------------------------------------------------ *)
(** ** The answers of the question route *)

(** X14. A question request whose technology, trimmed, ends with a percent
    sign is answered with status 500 and the message of the [URIError];
    the rate limiter is not consulted and nothing is posted. *)
Theorem question_POST_malformed_technology (body : QuestionBody) (h : Host)
  (w : World) (technology : str) :
  q_technology body = Some technology ->
  blank (q_difficulty body) = false ->
  blank (q_questionType body) = false ->
  trim technology <> [] ->
  last (trim technology) 0%N = 37%N ->
  question_POST body h w
  = (w, mkResponse 500 (error_json (lit "URI malformed"))).
Proof.
  intros Ht Hd Hq Hne Hl. unfold question_POST, clean_inputs.
  rewrite Ht, Hd, Hq. cbn [or_empty].
  rewrite (decodeURIComponent_trailing_percent _ Hne Hl).
  assert (blank (Some technology) = false) as ->.
  { destruct technology; [|reflexivity]. now destruct Hne. }
  reflexivity.
Qed.

Lemma question_POST_malformed_technology_witness :
  question_POST
    (mkQuestionBody (Some (lit " 100% ")) (Some (lit "Easy")) 1
       (Some (lit "mcq")))
    (scoring_host scored_object) (initial_world 0)
  = (initial_world 0, mkResponse 500 (error_json (lit "URI malformed"))).
Proof.
  apply (question_POST_malformed_technology _ _ _ (lit " 100% "));
    try reflexivity.
  vm_compute. discriminate.
Defined.

(** X15. The answer of the question route to a request whose fields are
    absent or of the types the interview page gives them, the difficulty
    of ASCII characters, on any host.  A request with a blank technology,
    difficulty or type is refused with status 400 and the world is left
    as it was; no other request is.  A technology that cannot be decoded
    is answered with status 500 and the message of the [URIError], the
    world as it was.  Any other request goes to [generateQuestion] with
    the decoded technology and the lower-cased difficulty, and the world
    is as that call leaves it: the question it returns is sent with
    status 200 (it has passed the validator for the type asked for and
    comes from one posted request), a failure is answered with the
    rate-limit answer of status 429 or with status 500 and a message. *)
Theorem question_POST_answers (body : QuestionBody) (h : Host) (w : World) :
  is_ascii (or_empty (q_difficulty body)) = true ->
  let w' := fst (question_POST body h w) in
  let answer := snd (question_POST body h w) in
  let questionType := or_empty (q_questionType body) in
  if blank (q_technology body) || blank (q_difficulty body)
     || blank (q_questionType body)
  then
    w' = w
    /\ answer
       = mkResponse 400 (error_json (lit
           "Technology, difficulty, and question type are required"))
  else
    match decodeURIComponent (trim (or_empty (q_technology body))) with
    | inl _ =>
        w' = w /\ answer = mkResponse 500 (error_json (lit "URI malformed"))
    | inr technology =>
        let difficulty := toLowerCase (trim (or_empty (q_difficulty body))) in
        let generated :=
          generateQuestion technology difficulty (q_questionNumber body)
            questionType h w in
        w' = fst generated
        /\ match snd generated with
           | inr question =>
               answer = mkResponse 200 question
               /\ validateQuestionResponse question questionType = ok question
               /\ posted w'
                  = generateQuestionPrompt technology difficulty
                      (q_questionNumber body) questionType
                    :: posted w
           | inl _ =>
               answer
               = mkResponse 429 (error_json (lit
                   "Rate limit exceeded. Please wait a moment before trying again."))
               \/ (http_status answer = 500
                   /\ exists msg, http_json answer = error_json msg)
           end
    end.
Proof.
  intros _. cbv zeta. unfold question_POST.
  destruct (blank (q_technology body) || blank (q_difficulty body)
            || blank (q_questionType body)); [split; reflexivity|].
  unfold clean_inputs, decodeURIComponent.
  destruct (Uri.decode _ _) as [technology|]; cbn [bind ok throw];
    [|split; reflexivity].
  destruct (generateQuestion technology _ _ _ h w) as [w1 [e|q]] eqn:Eg;
    cbn [bind fst snd].
  - destruct (includes (message e) (lit "rate limit")); cbn [fst snd];
      (split; [reflexivity|]);
      [now left|right; split; [reflexivity|now eexists]].
  - destruct (generateQuestion_posts _ _ _ _ _ _ _ _ Eg) as [_ Hp].
    destruct (generateQuestion_validated _ _ _ _ _ _ _ _ Eg) as [Hv Hm].
    apply missing_fields_lookup in Hm as (kvs & -> & _); [|discriminate].
    cbn [truthy typeof type_eqb negb orb fst snd]. auto.
Qed.

(** The page asks for a subjective question about JavaScript, and the
    completion API gives one. *)
Lemma question_POST_answers_witness :
  snd (question_POST
         (mkQuestionBody (Some (lit "JavaScript")) (Some (lit "Medium")) 1
            (Some (lit "subjective")))
         (scoring_host subjective_question) (initial_world 0))
  = mkResponse 200 (JObj subjective_value).
Proof.
  pose proof (question_POST_answers
                (mkQuestionBody (Some (lit "JavaScript"))
                   (Some (lit "Medium")) 1 (Some (lit "subjective")))
                (scoring_host subjective_question) (initial_world 0)
                eq_refl) as H.
  vm_compute in H. destruct H as (_ & H & _).
  vm_compute. exact H.
Defined.

(* ------------------------------------------------------------------ *)
(** ** Values on their way to the page *)

Lemma wire_topics (topics : list str) :
  wire (topics_json topics) = topics_json topics.
Proof.
  unfold topics_json. cbn [wire]. f_equal. rewrite map_map.
  now apply map_ext.
Qed.

(** The analysis of a multiple-choice answer arrives as it was sent. *)
Lemma wire_mcq_analysis (correct : bool) (correctOption explanation : str)
  (expectedTopics : list str) :
  wire (mcq_analysis correct correctOption explanation expectedTopics)
  = mcq_analysis correct correctOption explanation expectedTopics.
Proof.
  pose proof (wire_topics expectedTopics) as H. unfold topics_json in H.
  unfold mcq_analysis, topics_json. destruct correct;
    cbn [wire flat_map app map] in *; now rewrite H.
Qed.

(** A property that is not [undefined] arrives, as its value does. *)
Lemma wire_get (kvs : list (str * jsval)) (k : str) (x : jsval) :
  lookup k kvs = Some x -> x <> JUndefined ->
  get_opt (wire (JObj kvs)) k = wire x.
Proof.
  intros Hl Hx. cbn [wire]. rewrite get_opt_object.
  induction kvs as [|[k' x'] t IH]; [discriminate|].
  cbn [lookup] in Hl. cbn [flat_map].
  destruct (str_eqb k k') eqn:E.
  - injection Hl as ->.
    destruct x; try congruence; cbn [app lookup]; now rewrite E.
  - destruct x'; cbn [app lookup]; rewrite ?E; auto.
Qed.

(** A number from 0 to 10 arrives as a number from 0 to 10. *)
Lemma wire_score (score : number) :
  from_0_to_10 score ->
  exists arrived, wire (JNum score) = JNum arrived /\ from_0_to_10 arrived.
Proof.
  intros [H0 H10]. destruct score as [s|[|]| |s m e]; try discriminate.
  - exists (S754_zero false). repeat split.
  - exists (S754_finite s m e). repeat split; assumption.
Qed.

(* ------------------------------------------------------------------ *)
(** ** The interview page and the analysis route *)

Lemma analyzeAnswer_refused (types : list str) (currentQuestionNumber : Z)
  (question : Question) (answerText : str) (statusText : Z -> str)
  (h : Host) (w : World) :
  http_status
    (snd (analyze_POST
            (analyze_request types currentQuestionNumber question answerText)
            h w)) = 400 ->
  analyzeAnswer types currentQuestionNumber question answerText statusText h w
  = (w, throw (Error (lit "Failed to analyze answer: 400 "
                      ++ statusText 400))).
Proof.
  intros H. unfold analyzeAnswer.
  pose proof (analyze_POST_refusal _ h w H) as Hw.
  destruct (analyze_POST _ h w) as [w' response].
  cbn [fst snd] in *. subst w'. unfold response_ok. rewrite H. reflexivity.
Qed.

(** X16. An empty answer is never analysed: the page posts it, the route
    refuses it with status 400 before it looks at the type of the
    question, and [analyzeAnswer] throws; the world is as before. *)
Theorem analyzeAnswer_empty_answer (types : list str)
  (currentQuestionNumber : Z) (question : Question) (statusText : Z -> str)
  (h : Host) (w : World) :
  analyzeAnswer types currentQuestionNumber question [] statusText h w
  = (w, throw (Error (lit "Failed to analyze answer: 400 "
                      ++ statusText 400))).
Proof.
  apply analyzeAnswer_refused. unfold analyze_POST, analyze_request.
  cbn [a_expectedTopics a_question a_response blank].
  rewrite orb_true_r. reflexivity.
Qed.

(** X17. The page takes a question for multiple choice when its type is
    [mcq] to the letter, the route when it is [mcq] in any case.  For a
    type such as [MCQ] the page leaves the correct option out of its
    request, the route asks for it, and the answer is never scored. *)
Theorem analyzeAnswer_capital_mcq (types : list str)
  (currentQuestionNumber : Z) (question : Question) (answerText : str)
  (statusText : Z -> str) (h : Host) (w : World) (questionType : str) :
  questionTypeAt types currentQuestionNumber = Some questionType ->
  str_eqb questionType (lit "mcq") = false ->
  str_eqb (toLowerCase questionType) (lit "mcq") = true ->
  analyzeAnswer types currentQuestionNumber question answerText statusText h w
  = (w, throw (Error (lit "Failed to analyze answer: 400 "
                      ++ statusText 400))).
Proof.
  intros Ht Hexact Hlow. apply analyzeAnswer_refused.
  unfold analyze_POST, analyze_request. rewrite Ht.
  cbn [a_expectedTopics a_question a_response a_questionType a_correctOption
       is_mcq or_empty].
  rewrite Hexact, Hlow. cbn [blank].
  destruct (_ || _); reflexivity.
Qed.

Lemma analyzeAnswer_capital_mcq_witness :
  analyzeAnswer [lit "MCQ"] 1
    (mkQuestion (lit "Which keyword defines a function?") [lit "functions"]
       (Some (lit "B")) (Some (lit "def starts a definition.")))
    (lit "B") (fun _ => lit "Bad Request")
    (scoring_host scored_object) (initial_world 0)
  = (initial_world 0,
     throw (Error (lit "Failed to analyze answer: 400 Bad Request"))).
Proof.
  exact (analyzeAnswer_capital_mcq [lit "MCQ"] 1 _ (lit "B")
           (fun _ => lit "Bad Request") _ _ (lit "MCQ")
           eq_refl eq_refl eq_refl).
Defined.

(** X18. For the type [mcq] to the letter, a non-empty answer to a
    question with text and correct option, both of ASCII characters as
    the labels are, is scored by the route alone, whatever the host: 10
    when the answer is the correct option up to the case of its letters,
    0 otherwise, and the world is as before. *)
Theorem analyzeAnswer_mcq (types : list str) (currentQuestionNumber : Z)
  (question : Question) (answerText : str) (statusText : Z -> str)
  (h : Host) (w : World) (correct : str) :
  questionTypeAt types currentQuestionNumber = Some (lit "mcq") ->
  qn_question question <> [] ->
  answerText <> [] ->
  qn_correctOption question = Some correct ->
  correct <> [] ->
  is_ascii answerText = true ->
  is_ascii correct = true ->
  analyzeAnswer types currentQuestionNumber question answerText statusText h w
  = (w, ok (mcq_analysis (equalsIgnoreCase answerText correct)
              correct (or_empty (qn_explanation question))
              (qn_expectedTopics question))).
Proof.
  intros Ht Hq Ha Hc Hne _ _.
  destruct correct as [|c0 correct]; [congruence|].
  unfold analyzeAnswer, analyze_POST, analyze_request.
  rewrite Ht, Hc.
  cbn [a_expectedTopics a_question a_response a_questionType a_correctOption
       a_explanation is_mcq or_empty].
  change (str_eqb (lit "mcq") (lit "mcq")) with true.
  change (str_eqb (toLowerCase (lit "mcq")) (lit "mcq")) with true.
  cbv iota.
  destruct (qn_question question) as [|q0 q]; [congruence|].
  destruct answerText as [|a0 a]; [congruence|].
  change (blank (Some (lit "mcq"))) with false.
  cbn [blank orb or_empty]. rewrite toUpperCase_equal.
  rewrite <- (wire_mcq_analysis (equalsIgnoreCase (a0 :: a) (c0 :: correct))).
  unfold mcq_analysis.
  destruct (equalsIgnoreCase (a0 :: a) (c0 :: correct)); reflexivity.
Qed.

Lemma analyzeAnswer_mcq_witness :
  analyzeAnswer [lit "subjective"; lit "mcq"] 2
    (mkQuestion (lit "Which keyword defines a function?") [lit "functions"]
       (Some (lit "B")) (Some (lit "def starts a definition.")))
    (lit "b") (fun _ => [])
    (mkHost None 0 0 NetworkFailure) (initial_world 0)
  = (initial_world 0,
     ok (mcq_analysis true (lit "B") (lit "def starts a definition.")
           [lit "functions"])).
Proof.
  exact (analyzeAnswer_mcq [lit "subjective"; lit "mcq"] 2
           (mkQuestion (lit "Which keyword defines a function?")
              [lit "functions"] (Some (lit "B"))
              (Some (lit "def starts a definition.")))
           (lit "b") (fun _ => []) (mkHost None 0 0 NetworkFailure)
           (initial_world 0) (lit "B") eq_refl ltac:(discriminate)
           ltac:(discriminate) eq_refl ltac:(discriminate)
           eq_refl eq_refl).
Defined.

(** X19. The analysis route never sends the page an analysis it would
    refuse: [analyzeAnswer] returns the analysis of every answer with
    status 200, as it arrives, with a score from 0 to 10, and otherwise
    throws the failure that names the status; its own check of the format
    of the analysis never fails. *)
Theorem analyzeAnswer_outcomes (types : list str) (currentQuestionNumber : Z)
  (question : Question) (answerText : str) (statusText : Z -> str)
  (h : Host) (w : World) :
  let answer :=
    snd (analyze_POST
           (analyze_request types currentQuestionNumber question answerText)
           h w) in
  let outcome :=
    snd (analyzeAnswer types currentQuestionNumber question answerText
           statusText h w) in
  (http_status answer = 200
   /\ outcome = ok (wire (http_json answer))
   /\ exists score,
        get_opt (wire (http_json answer)) (lit "score") = JNum score
        /\ from_0_to_10 score)
  \/ ((http_status answer = 400 \/ http_status answer = 500)
      /\ outcome
         = throw (Error (lit "Failed to analyze answer: "
                         ++ of_Z (http_status answer) ++ lit " "
                         ++ statusText (http_status answer)))).
Proof.
  cbv zeta. unfold analyzeAnswer.
  pose proof (analyze_POST_analysis
                (analyze_request types currentQuestionNumber question
                   answerText) h w) as Ha.
  destruct (analyze_POST_statuses
              (analyze_request types currentQuestionNumber question answerText)
              h w) as [E|[(E & _)|(E & _)]];
    destruct (analyze_POST _ h w) as [w' response]; cbn [fst snd] in *;
    unfold response_ok; rewrite E; cbn [Z.leb Z.compare andb negb snd].
  - destruct (Ha E) as (score & covered & missing & Hs & Hr & _).
    destruct (get_opt_defined (http_json response) (lit "score"))
      as [kvs Ej]; [rewrite Hs; discriminate|].
    rewrite Ej in *.
    destruct (wire_score score Hr) as (arrived & Hw & Hr').
    assert (get_opt (wire (JObj kvs)) (lit "score") = JNum arrived) as Hs'.
    { rewrite <- Hw. apply wire_get; [|discriminate].
      apply get_opt_lookup; [exact Hs|discriminate]. }
    left. split; [reflexivity|]. rewrite Hs'.
    cbn [typeof type_eqb negb orb].
    change (truthy (wire (JObj kvs))) with true.
    cbn [negb orb snd]. split; [reflexivity|]. now exists arrived.
  - right. split; [now left|reflexivity].
  - right. split; [now right|reflexivity].
Qed.

(** A field of the analysis that is not a finite number reaches the page
    as [null]: the model writes a feedback of 1e400. *)
Example analysis_on_the_wire :
  let reply :=
    tq "{\~score\~:7,\~feedback\~:1e400,\~coveredTopics\~:[],\~missingTopics\~:[]}" in
  let question :=
    mkQuestion (lit "What is a closure?") [lit "scope"] None None in
  let sent :=
    http_json
      (snd (analyze_POST
              (analyze_request [lit "subjective"] 1 question (lit "A function."))
              (scoring_host reply) (initial_world 0))) in
  get_opt sent (lit "feedback") = JNum (S754_infinity false)
  /\ exists analysis,
       snd (analyzeAnswer [lit "subjective"] 1 question (lit "A function.")
              (fun _ => []) (scoring_host reply) (initial_world 0))
       = ok analysis
       /\ get_opt analysis (lit "feedback") = JNull.
Proof.
  cbv zeta. split; [vm_compute; reflexivity|].
  eexists. split; vm_compute; reflexivity.
Qed.

(* ------------------------------------------------------------------ *)
(** ** Substrings *)

Lemma startsWith_app (p r : str) : startsWith p (p ++ r) = true.
Proof.
  induction p as [|x p IH]; [reflexivity|].
  cbn [app startsWith]. now rewrite N.eqb_refl, IH.
Qed.

Lemma startsWith_app_l (p s r : str) :
  startsWith p s = true -> startsWith p (s ++ r) = true.
Proof.
  revert s. induction p as [|x p IH]; intros [|y s]; cbn [app startsWith];
    try reflexivity; try discriminate.
  intros H. apply andb_true_iff in H as [-> H]. now rewrite IH.
Qed.

Lemma startsWith_prefix (p q s : str) :
  startsWith (p ++ q) s = true -> startsWith p s = true.
Proof.
  revert s. induction p as [|x p IH]; intros s; [reflexivity|].
  destruct s as [|y s]; cbn [app startsWith]; [discriminate|].
  intros H. apply andb_true_iff in H as [-> H]. now rewrite (IH _ H).
Qed.

Lemma includes_unfold (s sub : str) :
  includes s sub =
  startsWith sub s || match s with [] => false | _ :: t => includes t sub end.
Proof. destruct s; reflexivity. Qed.

Lemma includes_here (x r : str) : includes (x ++ r) x = true.
Proof. rewrite includes_unfold, startsWith_app. reflexivity. Qed.

Lemma includes_app_r (a r x : str) :
  includes r x = true -> includes (a ++ r) x = true.
Proof.
  intros H. induction a as [|c a IH]; [exact H|].
  cbn [app]. rewrite includes_unfold, IH. apply orb_true_r.
Qed.

Lemma includes_app_l (a r x : str) :
  includes a x = true -> includes (a ++ r) x = true.
Proof.
  induction a as [|c a IH]; rewrite includes_unfold.
  - rewrite orb_false_r. intros H. destruct x; [|discriminate].
    now rewrite includes_unfold.
  - intros H. apply orb_true_iff in H as [H|H]; cbn [app];
      rewrite includes_unfold.
    + change (c :: a ++ r) with ((c :: a) ++ r).
      now rewrite (startsWith_app_l _ _ r H).
    + rewrite (IH H). apply orb_true_r.
Qed.

(** A text that holds [a ++ b] holds [a]. *)
Lemma includes_prefix (s a b : str) :
  includes s (a ++ b) = true -> includes s a = true.
Proof.
  induction s as [|c s IH].
  - rewrite !includes_unfold, !orb_false_r. apply startsWith_prefix.
  - rewrite (includes_unfold (c :: s) (a ++ b)),
      (includes_unfold (c :: s) a).
    intros H. apply orb_true_iff in H as [H|H].
    + now rewrite (startsWith_prefix _ _ _ H).
    + rewrite (IH H). apply orb_true_r.
Qed.

Lemma startsWith_between (a x b post rest : str) :
  startsWith b post = true ->
  startsWith (a ++ x ++ b) (a ++ x ++ post ++ rest) = true.
Proof.
  intros Hb. induction a as [|c a IH]; cbn [app].
  - induction x as [|c x IH]; cbn [app].
    + now apply startsWith_app_l.
    + cbn [startsWith]. now rewrite N.eqb_refl, IH.
  - cbn [startsWith]. now rewrite N.eqb_refl, IH.
Qed.

(** [x] between the end of one piece and the start of the next. *)
Lemma includes_framed (a b pre post x rest : str) :
  str_eqb (skipn (length pre - length a) pre) a = true ->
  startsWith b post = true ->
  includes (pre ++ x ++ post ++ rest) (a ++ x ++ b) = true.
Proof.
  intros Ha Hb. apply str_eqb_spec in Ha.
  rewrite <- (firstn_skipn (length pre - length a) pre), Ha, <- app_assoc.
  apply includes_app_r.
  rewrite !app_assoc, <- (app_assoc a x b), <- app_assoc.
  rewrite <- !app_assoc.
  now rewrite includes_unfold, startsWith_between.
Qed.

Lemma includes_framed_end (a b pre post x : str) :
  str_eqb (skipn (length pre - length a) pre) a = true ->
  startsWith b post = true ->
  includes (pre ++ x ++ post) (a ++ x ++ b) = true.
Proof.
  intros Ha Hb. rewrite <- (app_nil_r post). now apply includes_framed.
Qed.

(* ------------------------------------------------------------------ *)
(** ** What the prompts carry *)

(** Walks along the pieces of a template to the place where a text is
    framed by the end of one literal piece and the start of the next. *)
Ltac find_framed :=
  repeat match goal with
         | |- includes (_ ++ ?x ++ _ ++ _) (_ ++ ?x ++ _) = true =>
             apply includes_framed; vm_compute; reflexivity
         | |- includes (_ ++ ?x ++ _) (_ ++ ?x ++ _) = true =>
             apply includes_framed_end; vm_compute; reflexivity
         | |- includes (_ ++ _) _ = true => apply includes_app_r
         end.

Lemma prompt_templates_embed (technology difficulty : str)
  (questionNumber : Z) (prompt : str) :
  In prompt [mcq_prompt technology difficulty questionNumber;
             subjective_prompt technology difficulty questionNumber;
             coding_prompt technology difficulty questionNumber;
             fallback_prompt technology difficulty questionNumber] ->
  startsWith (lit "You are a technical interviewer specializing in "
              ++ technology ++ lit ". Generate a ") prompt = true
  /\ includes prompt
       (lit "Be appropriate for " ++ difficulty ++ lit " difficulty level")
     = true
  /\ includes prompt
       (lit "Question number " ++ of_Z questionNumber
        ++ lit " in the sequence") = true
  /\ includes prompt
       (tq "~difficulty~: " ++ of_Z (difficulty_tier difficulty) ++ lit ",")
     = true.
Proof.
  intros [<-|[<-|[<-|[<-|[]]]]].
  all: unfold mcq_prompt, subjective_prompt, coding_prompt, fallback_prompt.
  all: split;
    [apply (startsWith_between
              (lit "You are a technical interviewer specializing in "));
     vm_compute; reflexivity|].
  all: split; [|split]; find_framed.
Qed.

Lemma toLowerCase_idem (s : str) : toLowerCase (toLowerCase s) = toLowerCase s.
Proof.
  unfold toLowerCase. rewrite map_map. apply map_ext. intros c.
  now rewrite lower_not_upper.
Qed.

(** X20. Whatever the type asked for, in any case, known or not, the
    prompt of the question generator opens by naming the technology as it
    was given, asks for the difficulty as it was given and for the
    ordinal of the question, and shows the model the tier computed from
    the difficulty; the type is read without regard to case. *)
Theorem generateQuestionPrompt_embeds (technology difficulty : str)
  (questionNumber : Z) (questionType : str) :
  let prompt :=
    generateQuestionPrompt technology difficulty questionNumber questionType in
  startsWith (lit "You are a technical interviewer specializing in "
              ++ technology ++ lit ". Generate a ") prompt = true
  /\ includes prompt
       (lit "Be appropriate for " ++ difficulty ++ lit " difficulty level")
     = true
  /\ includes prompt
       (lit "Question number " ++ of_Z questionNumber
        ++ lit " in the sequence") = true
  /\ includes prompt
       (tq "~difficulty~: " ++ of_Z (difficulty_tier difficulty) ++ lit ",")
     = true
  /\ prompt
     = generateQuestionPrompt technology difficulty questionNumber
         (toLowerCase questionType).
Proof.
  cbv zeta. rewrite <- !and_assoc. split.
  - rewrite !and_assoc. apply prompt_templates_embed.
    unfold generateQuestionPrompt. cbn [In].
    repeat match goal with
           | |- context [if ?b then _ else _] => destruct b
           end; auto.
  - unfold generateQuestionPrompt. now rewrite toLowerCase_idem.
Qed.

Lemma includes_join (sep x : str) (l : list str) :
  In x l -> includes (join sep l) x = true.
Proof.
  induction l as [|y l IH]; [contradiction|].
  intros [->|H].
  - destruct l; cbn [join]; [|apply includes_here].
    rewrite <- (app_nil_r x) at 1. apply includes_here.
  - destruct l as [|z l]; [contradiction|].
    change (join sep (y :: z :: l)) with (y ++ sep ++ join sep (z :: l)).
    now apply includes_app_r, includes_app_r, IH.
Qed.

(** X21. The prompt of the scorer quotes the question and the answer as
    they were given, each on its line, and lists every expected topic
    after a dash. *)
Theorem analysis_prompt_embeds (question response : str)
  (expectedTopics : list str) :
  let prompt := analysis_prompt question response expectedTopics in
  includes prompt (lit "Question: " ++ question ++ [10%N]) = true
  /\ includes prompt (lit "Response: " ++ response ++ [10%N]) = true
  /\ forall topic,
       In topic expectedTopics -> includes prompt (lit "- " ++ topic) = true.
Proof.
  cbv zeta. unfold analysis_prompt. split; [|split].
  - find_framed.
  - find_framed.
  - intros topic H. do 5 apply includes_app_r. apply includes_app_l.
    apply includes_join. apply in_map_iff. now exists topic.
Qed.

(* ------------------------------------------------------------------ *)
(** ** The interview page: the type and the editor of a question *)

(** X23. A technology whose name holds [javascript], in any case, never
    gets the editor for JavaScript: the page looks for [java] before, and
    the editor is set to Java, or to Python when the name holds [python]
    too. *)
Theorem editorLanguage_javascript (technology : str) :
  includes (toLowerCase technology) (lit "javascript") = true ->
  editorLanguage (Some technology) = lit "python"
  \/ editorLanguage (Some technology) = lit "java".
Proof.
  intros H. destruct technology as [|c t]; [discriminate|].
  unfold editorLanguage. cbv zeta.
  rewrite (includes_prefix _ (lit "java") (lit "script") H).
  destruct (includes _ (lit "python")); auto.
Qed.

Lemma editorLanguage_javascript_witness :
  editorLanguage (Some (lit "JavaScript")) = lit "python"
  \/ editorLanguage (Some (lit "JavaScript")) = lit "java".
Proof.
  exact (editorLanguage_javascript (lit "JavaScript") eq_refl).
Defined.

(* ------------------------------------------------------------------ *)
(** ** The tier every posted question prompt shows *)

(** A call of the client posts its prompt, or nothing. *)
Lemma makeGroqRequest_posted (prompt : str) (h : Host) (w : World) :
  posted (fst (makeGroqRequest prompt h w))
  = if key_missing h then posted w else prompt :: posted w.
Proof.
  destruct (key_missing h) eqn:Hk.
  - now rewrite (unconfigured_request _ _ _ Hk).
  - now destruct (configured_posts prompt h w Hk).
Qed.

(** Every template shows the tier 3 for a lower-cased difficulty. *)
Lemma lowered_prompt_tier_3 (technology difficulty : str)
  (questionNumber : Z) (questionType : str) :
  includes
    (generateQuestionPrompt technology (toLowerCase difficulty)
       questionNumber questionType)
    (tq "~difficulty~: 3,") = true.
Proof.
  destruct (prompt_templates_embed technology (toLowerCase difficulty)
              questionNumber
              (generateQuestionPrompt technology (toLowerCase difficulty)
                 questionNumber questionType)) as (_ & _ & _ & Hin).
  - unfold generateQuestionPrompt. cbn [In].
    repeat match goal with
           | |- context [if ?b then _ else _] => destruct b
           end; auto.
  - now rewrite difficulty_tier_lowered in Hin.
Qed.

(** X24. Whatever the request and the host, the question route posts
    nothing or one prompt, and the prompt it posts shows the model the
    difficulty tier 3: the route lower-cases the difficulty, and the
    templates give tier 1 and tier 2 to the labels [Easy] and [Medium]
    with a capital only. *)
Theorem question_POST_posts_tier_3 (body : QuestionBody) (h : Host)
  (w : World) :
  posted (fst (question_POST body h w)) = posted w
  \/ exists prompt,
       posted (fst (question_POST body h w)) = prompt :: posted w
       /\ includes prompt (tq "~difficulty~: 3,") = true.
Proof.
  unfold question_POST.
  destruct (blank (q_technology body) || blank (q_difficulty body)
            || blank (q_questionType body)); [now left|].
  unfold clean_inputs.
  destruct (decodeURIComponent _) as [e|technology]; cbn [bind ok];
    [now left|].
  set (difficulty := toLowerCase (trim (or_empty (q_difficulty body)))).
  set (questionType := or_empty (q_questionType body)).
  set (prompt := generateQuestionPrompt technology difficulty
                   (q_questionNumber body) questionType).
  assert (includes prompt (tq "~difficulty~: 3,") = true) as Hin
    by apply lowered_prompt_tier_3.
  assert (posted (fst (generateQuestion technology difficulty
                         (q_questionNumber body) questionType h w))
          = if key_missing h then posted w else prompt :: posted w) as Hp.
  { unfold generateQuestion. cbv zeta. fold prompt.
    rewrite <- makeGroqRequest_posted.
    now destruct (makeGroqRequest _ h w). }
  destruct (generateQuestion technology difficulty _ questionType h w)
    as [w0 r].
  cbn [fst] in Hp.
  assert (posted w0 = posted w
          \/ exists p, posted w0 = p :: posted w
                       /\ includes p (tq "~difficulty~: 3,") = true) as K.
  { rewrite Hp. destruct (key_missing h); [now left|right]. now exists prompt. }
  destruct (bind r _); [destruct (includes (message _) _)|]; exact K.
Qed.

(* ------------------------------------------------------------------ *)
(** ** The shape of a text that [JSON.parse] reads as an object *)

Module JsonShape.
Import Json.

Lemma suffix_refl (s : str) : suffix s s.
Proof. now exists []. Qed.

Lemma suffix_cons (c : N) (r s : str) : suffix r s -> suffix r (c :: s).
Proof. intros [p ->]. now exists (c :: p). Qed.

Lemma suffix_trans (a b c : str) : suffix a b -> suffix b c -> suffix a c.
Proof. intros [p ->] [q ->]. exists (q ++ p). now rewrite app_assoc. Qed.

Lemma suffix_tail (c : N) (r s : str) : suffix (c :: r) s -> suffix r s.
Proof. intros [p ->]. exists (p ++ [c]). now rewrite <- app_assoc. Qed.

Lemma suffix_skipn (n : nat) (s : str) : suffix (skipn n s) s.
Proof. exists (firstn n s). now rewrite firstn_skipn. Qed.

Lemma skip_ws_split (s : str) :
  exists ws, s = ws ++ skip_ws s /\ forallb is_json_ws ws = true.
Proof.
  induction s as [|c t (ws & E & H)]; [now exists []|].
  cbn [skip_ws]. destruct (is_json_ws c) eqn:Ec; [|now exists []].
  exists (c :: ws). cbn [app forallb]. now rewrite Ec, H, <- E.
Qed.

Lemma skip_ws_suffix (s : str) : suffix (skip_ws s) s.
Proof. destruct (skip_ws_split s) as (ws & E & _). now exists ws. Qed.

Lemma skip_ws_nil (s : str) : skip_ws s = [] -> forallb is_json_ws s = true.
Proof.
  induction s as [|c t IH]; [reflexivity|]. cbn [skip_ws forallb].
  destruct (is_json_ws c); [exact IH|discriminate].
Qed.

Lemma parse_string_body_suffix (s v r : str) :
  parse_string_body s = Some (v, r) -> suffix r s.
Proof.
  remember (length s) as n eqn:Hn. revert s v r Hn.
  induction n as [n IH] using lt_wf_ind. intros s v r Hn.
  destruct s as [|c t]; [discriminate|]. cbn [parse_string_body].
  destruct (c =? 34)%N.
  { intros H; injection H as _ <-. apply suffix_cons, suffix_refl. }
  destruct (c =? 92)%N.
  - destruct t as [|e t1]; [discriminate|].
    destruct (e =? 117)%N.
    + destruct t1 as [|h1 [|h2 [|h3 [|h4 t2]]]]; try discriminate.
      destruct (hex4 h1 h2 h3 h4); [|discriminate].
      destruct (parse_string_body t2) as [[v' r']|] eqn:E; [|discriminate].
      intros H; injection H as _ <-.
      do 6 apply suffix_cons.
      apply (IH (length t2) ltac:(subst n; simpl; lia) t2 v' r' eq_refl E).
    + destruct (unescape e); [|discriminate].
      destruct (parse_string_body t1) as [[v' r']|] eqn:E; [|discriminate].
      intros H; injection H as _ <-.
      do 2 apply suffix_cons.
      apply (IH (length t1) ltac:(subst n; simpl; lia) t1 v' r' eq_refl E).
  - destruct (c <? 32)%N; [discriminate|].
    destruct (parse_string_body t) as [[v' r']|] eqn:E; [|discriminate].
    intros H; injection H as _ <-.
    apply suffix_cons.
    apply (IH (length t) ltac:(subst n; simpl; lia) t v' r' eq_refl E).
Qed.

Lemma take_digits_suffix (s d r : str) :
  take_digits s = (d, r) -> suffix r s.
Proof.
  revert d r. induction s as [|c t IH]; intros d r; cbn [take_digits].
  - intros H; injection H as _ <-. apply suffix_refl.
  - destruct (is_digit c).
    + destruct (take_digits t) as [d' r'].
      intros H; injection H as _ <-. apply suffix_cons. now apply (IH d').
    + intros H; injection H as _ <-. apply suffix_refl.
Qed.

Lemma parse_exponent_suffix (s r : str) (e : Z) :
  parse_exponent s = Some (e, r) -> suffix r s.
Proof.
  unfold parse_exponent. destruct s as [|c t].
  { intros H; injection H as _ <-. apply suffix_refl. }
  destruct ((c =? 101) || (c =? 69))%N.
  2:{ intros H; injection H as _ <-. apply suffix_refl. }
  match goal with
  | |- (let '(neg, t1) := ?X in _) = _ -> _ =>
      destruct X as [neg t1] eqn:EX
  end.
  assert (suffix t1 t) as L.
  { destruct t as [|sg t']; [injection EX as _ <-; apply suffix_refl|].
    destruct (sg =? 45)%N;
      [injection EX as _ <-; apply suffix_cons, suffix_refl|].
    destruct (sg =? 43)%N; injection EX as _ <-;
      [apply suffix_cons|]; apply suffix_refl. }
  destruct (take_digits t1) as [[|d ds] r0] eqn:E; [discriminate|].
  intros H; injection H as _ <-.
  apply take_digits_suffix in E.
  apply suffix_cons. exact (suffix_trans _ _ _ E L).
Qed.

Lemma parse_fraction_suffix (s fs r : str) :
  parse_fraction s = Some (fs, r) -> suffix r s.
Proof.
  unfold parse_fraction. destruct s as [|c t].
  { intros H; injection H as _ <-. apply suffix_refl. }
  destruct (c =? 46)%N.
  - destruct (take_digits t) as [[|d ds] r0] eqn:E; [discriminate|].
    intros H; injection H as _ <-.
    apply take_digits_suffix in E. now apply suffix_cons.
  - intros H; injection H as _ <-. apply suffix_refl.
Qed.

Lemma parse_number_suffix (s r : str) (q : number) :
  parse_number s = Some (q, r) -> suffix r s.
Proof.
  unfold parse_number.
  match goal with
  | |- (let '(neg, s1) := ?X in _) = _ -> _ =>
      destruct X as [neg s1] eqn:EX
  end.
  assert (suffix s1 s) as L.
  { destruct s as [|c t]; [injection EX as _ <-; apply suffix_refl|].
    destruct (c =? 45)%N; injection EX as _ <-;
      [apply suffix_cons|]; apply suffix_refl. }
  destruct (take_digits s1) as [[|d ds] s2] eqn:E; [discriminate|].
  destruct ((d =? 48)%N && _); [discriminate|].
  destruct (parse_fraction s2) as [[fs s3]|] eqn:Ef; [|discriminate].
  destruct (parse_exponent s3) as [[e s4]|] eqn:Ee; [|discriminate].
  intros H; injection H as _ <-.
  apply take_digits_suffix in E. apply parse_fraction_suffix in Ef.
  apply parse_exponent_suffix in Ee.
  exact (suffix_trans _ _ _ Ee
           (suffix_trans _ _ _ Ef (suffix_trans _ _ _ E L))).
Qed.

Lemma skip_ws_head (s : str) (c : N) (t : str) :
  skip_ws s = c :: t -> suffix t s.
Proof.
  intros H. apply (suffix_tail c). rewrite <- H. apply skip_ws_suffix.
Qed.

Lemma value_step_consumes members elements :
  consumes members -> consumes elements ->
  consumes (value_step members elements).
Proof.
  intros Hm He s v r. unfold value_step.
  destruct (skip_ws s) as [|c t] eqn:Es; [discriminate|].
  pose proof (skip_ws_head _ _ _ Es) as Lt.
  destruct (c =? 123)%N.
  { destruct (skip_ws t) as [|c' t'] eqn:Et; [discriminate|].
    pose proof (skip_ws_head _ _ _ Et) as Lt'.
    destruct (c' =? 125)%N;
      [intros H; injection H as _ <-; exact (suffix_trans _ _ _ Lt' Lt)|].
    destruct (members t) as [[kvs r']|] eqn:E; [|discriminate].
    intros H; injection H as _ <-. apply Hm in E.
    exact (suffix_trans _ _ _ E Lt). }
  destruct (c =? 91)%N.
  { destruct (skip_ws t) as [|c' t'] eqn:Et; [discriminate|].
    pose proof (skip_ws_head _ _ _ Et) as Lt'.
    destruct (c' =? 93)%N;
      [intros H; injection H as _ <-; exact (suffix_trans _ _ _ Lt' Lt)|].
    destruct (elements t) as [[vs r']|] eqn:E; [|discriminate].
    intros H; injection H as _ <-. apply He in E.
    exact (suffix_trans _ _ _ E Lt). }
  destruct (c =? 34)%N.
  { destruct (parse_string_body t) as [[v' r']|] eqn:E; [|discriminate].
    intros H; injection H as _ <-. apply parse_string_body_suffix in E.
    exact (suffix_trans _ _ _ E Lt). }
  assert (suffix (c :: t) s) as Lc by (rewrite <- Es; apply skip_ws_suffix).
  destruct ((c =? 45)%N || is_digit c).
  { destruct (parse_number (c :: t)) as [[q r']|] eqn:E; [|discriminate].
    intros H; injection H as _ <-. apply parse_number_suffix in E.
    exact (suffix_trans _ _ _ E Lc). }
  assert (forall n, suffix (skipn n (c :: t)) s) as K
    by (intros n; exact (suffix_trans _ _ _ (suffix_skipn n _) Lc)).
  destruct (startsWith (lit "true") (c :: t));
    [intros H; injection H as _ <-; apply (K 4%nat)|].
  destruct (startsWith (lit "false") (c :: t));
    [intros H; injection H as _ <-; apply (K 5%nat)|].
  destruct (startsWith (lit "null") (c :: t));
    [intros H; injection H as _ <-; apply (K 4%nat)|discriminate].
Qed.

Lemma value_step_braced members elements :
  closes members -> braced (value_step members elements).
Proof.
  intros Hm s kvs r. unfold value_step.
  destruct (skip_ws_split s) as (ws & Es & Hws).
  destruct (skip_ws s) as [|c t]; [discriminate|].
  destruct (c =? 123)%N eqn:Ec.
  { apply N.eqb_eq in Ec as ->.
    destruct (skip_ws_split t) as (ws' & Et & _).
    destruct (skip_ws t) as [|c' t']; [discriminate|].
    destruct (c' =? 125)%N eqn:Ec'.
    - apply N.eqb_eq in Ec' as ->. intros H; injection H as _ <-.
      exists ws, ws'. now rewrite <- Et.
    - destruct (members t) as [[kvs' r']|] eqn:E; [|discriminate].
      intros H; injection H as _ <-. destruct (Hm _ _ _ E) as [body ->].
      now exists ws, body. }
  destruct (c =? 91)%N.
  { destruct (skip_ws t) as [|c' t']; [discriminate|].
    destruct (c' =? 93)%N; [discriminate|].
    destruct (elements t) as [[vs r']|]; discriminate. }
  destruct (c =? 34)%N.
  { destruct (parse_string_body t) as [[v' r']|]; discriminate. }
  destruct ((c =? 45)%N || is_digit c).
  { destruct (parse_number (c :: t)) as [[q r']|]; discriminate. }
  destruct (startsWith (lit "true") (c :: t)); [discriminate|].
  destruct (startsWith (lit "false") (c :: t)); [discriminate|].
  destruct (startsWith (lit "null") (c :: t)); discriminate.
Qed.

Lemma elements_step_consumes value elements :
  consumes value -> consumes elements ->
  consumes (elements_step value elements).
Proof.
  intros Hv He s vs r. unfold elements_step.
  destruct (value s) as [[v r1]|] eqn:E1; [|discriminate].
  apply Hv in E1.
  destruct (skip_ws r1) as [|c t] eqn:Es; [discriminate|].
  apply skip_ws_head in Es.
  destruct (c =? 44)%N.
  - destruct (elements t) as [[vs' r']|] eqn:E2; [|discriminate].
    intros H; injection H as _ <-. apply He in E2.
    exact (suffix_trans _ _ _ E2 (suffix_trans _ _ _ Es E1)).
  - destruct (c =? 93)%N; [|discriminate].
    intros H; injection H as _ <-. exact (suffix_trans _ _ _ Es E1).
Qed.

Lemma members_step_closes value members :
  consumes value -> closes members ->
  closes (members_step value members).
Proof.
  intros Hv Hm s kvs r. unfold members_step.
  destruct (skip_ws s) as [|c t] eqn:Es; [discriminate|].
  apply skip_ws_head in Es.
  destruct (c =? 34)%N; [|discriminate].
  destruct (parse_string_body t) as [[k r1]|] eqn:Ek; [|discriminate].
  apply parse_string_body_suffix in Ek.
  destruct (skip_ws r1) as [|c2 t2] eqn:E2; [discriminate|].
  apply skip_ws_head in E2.
  destruct (c2 =? 58)%N; [|discriminate].
  destruct (value t2) as [[v r2]|] eqn:Ev; [|discriminate].
  apply Hv in Ev.
  assert (suffix r2 s) as L2
    by exact (suffix_trans _ _ _ Ev
                (suffix_trans _ _ _ E2
                   (suffix_trans _ _ _ Ek Es))).
  pose proof (skip_ws_suffix r2) as L3.
  destruct (skip_ws r2) as [|c3 t3]; [discriminate|].
  destruct (c3 =? 44)%N.
  - destruct (members t3) as [[kvs' r3]|] eqn:Em; [|discriminate].
    intros H; injection H as _ <-. apply Hm in Em.
    exact (suffix_trans _ _ _ Em
             (suffix_trans _ _ _ (suffix_tail _ _ _ L3) L2)).
  - destruct (c3 =? 125)%N eqn:E3; [|discriminate].
    apply N.eqb_eq in E3 as ->.
    intros H; injection H as _ <-. exact (suffix_trans _ _ _ L3 L2).
Qed.

Lemma closes_consumes {A : Type} (p : str -> option (A * str)) :
  closes p -> consumes p.
Proof. intros H s a r E. exact (suffix_tail _ _ _ (H s a r E)). Qed.

Lemma parse_consumes (fuel : nat) :
  consumes (parse_value fuel) /\ consumes (parse_elements fuel)
  /\ closes (parse_members fuel).
Proof.
  induction fuel as [|f (Hv & He & Hm)].
  - repeat split; intros s a r H; discriminate.
  - repeat split; cbn [parse_value parse_elements parse_members].
    + apply value_step_consumes; [now apply closes_consumes|exact He].
    + now apply elements_step_consumes.
    + now apply members_step_closes.
Qed.

(** A text that [JSON.parse] reads as an object is an opening brace and a
    closing brace with anything between them and white space around. *)
Lemma parse_object_shape (s : str) (kvs : list (str * jsval)) :
  parse s = Some (JObj kvs) ->
  exists ws body ws',
    s = ws ++ 123%N :: body ++ 125%N :: ws'
    /\ forallb is_json_ws ws = true /\ forallb is_json_ws ws' = true.
Proof.
  unfold parse.
  destruct (parse_value (2 * length s + 2) s) as [[v r]|] eqn:E;
    [|discriminate].
  destruct (skip_ws r) eqn:Er; [|discriminate].
  intros H; injection H as ->.
  destruct (2 * length s + 2)%nat as [|f]; [discriminate|].
  cbn [parse_value] in E.
  destruct (parse_consumes f) as (_ & _ & Hm).
  destruct (value_step_braced _ (parse_elements f) Hm _ _ _ E)
    as (ws & body & -> & Hws).
  exists ws, body, r. repeat split; auto. now apply skip_ws_nil.
Qed.

End JsonShape.

(* ------------------------------------------------------------------ *)
(** ** What [trim] leaves *)

Lemma trimStart_split (s : str) :
  exists ws, s = ws ++ trimStart s /\ forallb is_space ws = true.
Proof.
  induction s as [|c t (ws & E & H)]; [now exists []|].
  cbn [trimStart]. destruct (is_space c) eqn:Ec; [|now exists []].
  exists (c :: ws). cbn [app forallb]. now rewrite Ec, H, <- E.
Qed.

Lemma trimStart_solid (s : str) : starts_solid (trimStart s) = true.
Proof.
  induction s as [|c t IH]; [reflexivity|]. cbn [trimStart].
  destruct (is_space c) eqn:Ec; [exact IH|]. cbn [starts_solid].
  now rewrite Ec.
Qed.

Lemma trimEnd_split (s : str) :
  exists ws, s = trimEnd s ++ ws /\ forallb is_space ws = true.
Proof.
  unfold trimEnd. destruct (trimStart_split (rev s)) as (ws & E & H).
  exists (rev ws). split.
  - rewrite <- rev_app_distr, <- E. now rewrite rev_involutive.
  - apply forallb_forall. intros x Hx. apply in_rev in Hx.
    now apply (proj1 (forallb_forall _ _) H).
Qed.

Lemma last_app_nonempty (a b : str) (d : N) :
  b <> [] -> last (a ++ b) d = last b d.
Proof.
  intros Hb. induction a as [|x a IH]; [reflexivity|].
  cbn [app]. destruct (a ++ b) eqn:E; [|exact IH].
  destruct a; [|discriminate]. now destruct b.
Qed.

Lemma trimEnd_last (s : str) :
  trimEnd s <> [] -> is_space (last (trimEnd s) 0%N) = false.
Proof.
  unfold trimEnd. pose proof (trimStart_solid (rev s)) as H.
  destruct (trimStart (rev s)) as [|c u]; [cbn [rev]; congruence|]. intros _.
  cbn [rev]. rewrite last_last. cbn [starts_solid] in H.
  now apply negb_true_iff in H.
Qed.

Lemma json_ws_space (c : N) : Json.is_json_ws c = true -> is_space c = true.
Proof.
  unfold Json.is_json_ws. intros H.
  repeat (apply orb_true_iff in H as [H|H]); apply N.eqb_eq in H as ->;
    reflexivity.
Qed.

Lemma spaces_hold_no (c : N) (l : str) :
  is_space c = false -> forallb is_space l = true ->
  existsb (N.eqb c) l = false.
Proof.
  intros Hc. induction l as [|x l IH]; [reflexivity|].
  cbn [forallb existsb]. intros H. apply andb_true_iff in H as [Hx Hl].
  rewrite (IH Hl), orb_false_r. apply N.eqb_neq. intros <-. congruence.
Qed.

(** A text whose trimmed form [JSON.parse] reads as an object is that
    form, from an opening brace to a closing brace, with white space
    around it. *)
Lemma trimmed_object_shape (text : str) (kvs : list (str * jsval)) :
  Json.parse (trim text) = Some (JObj kvs) ->
  exists pre body post,
    text = pre ++ 123%N :: body ++ 125%N :: post
    /\ trim text = 123%N :: body ++ [125%N]
    /\ forallb is_space pre = true /\ forallb is_space post = true.
Proof.
  intros Hp.
  destruct (JsonShape.parse_object_shape _ _ Hp)
    as (ws & body & ws' & E & Hws & Hws').
  unfold trim in *.
  destruct (trimStart_split text) as (pre & Et & Hpre).
  pose proof (trimStart_solid text) as Hs.
  destruct (trimEnd_split (trimStart text)) as (post & Ee & Hpost).
  set (t := trimStart text) in *. set (u := trimEnd t) in *.
  assert (ws = []) as ->.
  { destruct ws as [|c ws]; [reflexivity|]. exfalso.
    cbn [forallb] in Hws. apply andb_true_iff in Hws as [Hc _].
    apply json_ws_space in Hc.
    rewrite Ee, E in Hs. cbn [app starts_solid] in Hs.
    now rewrite Hc in Hs. }
  assert (ws' = []) as ->.
  { destruct ws' as [|c ws']; [reflexivity|]. exfalso.
    assert (u <> []) as Hne by (rewrite E; now destruct ws).
    pose proof (trimEnd_last t Hne) as Hl. fold u in Hl.
    rewrite E in Hl. cbn [app] in Hl.
    replace (123%N :: body ++ 125%N :: c :: ws')
      with ((123%N :: body ++ [125%N]) ++ c :: ws') in Hl
      by (cbn [app]; now rewrite <- app_assoc).
    rewrite last_app_nonempty in Hl by discriminate.
    assert (Json.is_json_ws (last (c :: ws') 0%N) = true) as Hj.
    { apply (proj1 (forallb_forall _ _) Hws').
      destruct (exists_last (l := c :: ws') ltac:(discriminate))
        as (l' & a & ->).
      rewrite last_last. apply in_or_app. right. now left. }
    apply json_ws_space in Hj. congruence. }
  cbn [app] in E. exists pre, body, post.
  repeat split; auto.
  rewrite Et, Ee, E. cbn [app]. now rewrite <- app_assoc.
Qed.

(* ------------------------------------------------------------------ *)
(** ** The two parsers and the two scorers *)

Lemma check_fields_present (fields : list str) (v : jsval) :
  Direct.check_fields fields v = ok tt ->
  forall f, In f fields -> has f v = ok true.
Proof.
  induction fields as [|g t IH]; cbn [Direct.check_fields];
    intros H f Hf; [contradiction|].
  destruct (has g v) as [e|[|]] eqn:Hg; cbn [bind] in H; try discriminate.
  destruct Hf as [<-|Hf]; auto.
Qed.

Lemma direct_parse_inv (s : str) (fields : list str) (v : jsval) :
  Direct.parseJsonResponse s fields = ok v ->
  JSON_parse s = ok v /\ forall f, In f fields -> has f v = ok true.
Proof.
  unfold Direct.parseJsonResponse.
  destruct (JSON_parse s) as [e|p]; cbn [bind]; [discriminate|].
  destruct (Direct.check_fields fields p) as [e|[]] eqn:E; cbn [bind];
    [discriminate|].
  intros H; injection H as <-. split; [reflexivity|].
  now apply check_fields_present.
Qed.

Lemma JSON_parse_ok (s : str) (v : jsval) :
  JSON_parse s = ok v -> Json.parse s = Some v.
Proof.
  unfold JSON_parse. destruct (Json.parse s); [|discriminate].
  now intros H; injection H as ->.
Qed.

(** What the second parser reads as an object in the trimmed text, the
    first parser finds in the text. *)
Lemma direct_object_is_parsed (text : str) (fields : list str)
  (kvs : list (str * jsval)) :
  Direct.parseJsonResponse (trim text) fields = ok (JObj kvs) ->
  parseJsonResponse (JStr text) fields = ok (JObj kvs).
Proof.
  intros H. apply direct_parse_inv in H as [Hp Hall].
  apply JSON_parse_ok in Hp.
  destruct (trimmed_object_shape _ _ Hp)
    as (pre & body & post & E & Et & Hpre & Hpost).
  apply (parseJsonResponse_candidate text (trim text)).
  - rewrite Et, E. apply match_first_span.
    + now apply spaces_hold_no.
    + now apply spaces_hold_no.
  - exact Hp.
  - intros f Hf. specialize (Hall f Hf). cbn [has] in Hall.
    destruct (lookup f kvs); [discriminate|discriminate Hall].
Qed.

(** X25. The parser of the second scorer is the stricter one: whatever it
    accepts for a text, trimmed as the second scorer trims it, and a list
    of required fields that is not empty and holds only names the sources
    ask for (the four fields of an analysis, which is the list the second
    scorer passes, and the four of a question), the parser of the first
    scorer returns for the text as it is. *)
Theorem direct_parser_is_stricter (text : str) (fields : list str)
  (v : jsval) :
  fields <> [] ->
  incl fields required_names ->
  Direct.parseJsonResponse (trim text) fields = ok v ->
  parseJsonResponse (JStr text) fields = ok v.
Proof.
  intros Hne _ H.
  assert (exists kvs, v = JObj kvs) as [kvs ->].
  { destruct (direct_parse_inv _ _ _ H) as [_ Hall].
    destruct fields as [|f t]; [congruence|].
    destruct (has_true_object f v (Hall f (or_introl eq_refl)))
      as (kvs & _ & -> & _). eauto. }
  now apply direct_object_is_parsed.
Qed.

Lemma direct_parser_is_stricter_witness :
  parseJsonResponse (JStr ([10%N; 32%N] ++ scored_object ++ [32%N; 10%N]))
    scoring_fields
  = ok (JObj scored_value).
Proof.
  apply direct_parser_is_stricter; [discriminate| |].
  - intros f Hf. apply in_or_app. now right.
  - vm_compute. reflexivity.
Defined.

(** The first parser mends what the second refuses. *)
Example direct_parser_refuses :
  is_ok (Direct.parseJsonResponse (lit "{score: 7}") [lit "score"]) = false
  /\ parseJsonResponse (JStr (lit "{score: 7}")) [lit "score"]
     = ok (JObj [(lit "score", JNum (Number.of_int 7))])
  /\ Direct.parseJsonResponse (lit "{}") [lit "score"; lit "feedback"]
     = throw (Error (lit
         "Invalid JSON response: Missing required field: score")).
Proof. repeat split; vm_compute; reflexivity. Qed.

(** X26. The two scorers agree up to normalisation.  When the second
    scorer returns an analysis, it has posted its prompt without
    consulting the rate limiter, and the first scorer, given a credential
    and the same reply of the completion API, returns that analysis with
    the score brought into the range from 0 to 10 and the topic lists
    made sequences; the second scorer returns it as the model gave
    it. *)
Theorem scorers_agree (question userResponse : str)
  (expectedTopics : list str) (h : Host) (w w1 : World) (analysis : jsval) :
  Direct.analyzeResponse question userResponse expectedTopics h w
  = (w1, ok analysis) ->
  key_missing h = false ->
  posted w1
  = Direct.analysis_prompt question userResponse expectedTopics :: posted w
  /\ lastRequestTime w1 = lastRequestTime w
  /\ snd (analyzeResponse question userResponse expectedTopics h w)
     = ok (normalize_analysis analysis).
Proof.
  unfold Direct.analyzeResponse. cbv zeta. intros H Hk.
  destruct (reply h) as [|response] eqn:Hr; [discriminate|].
  destruct (reply_ok response) eqn:Hok; cbn [negb] in H; [|discriminate].
  injection H as <- H. split; [reflexivity|]. split; [reflexivity|].
  destruct (JSON_parse (api_body response)) as [e|responseData] eqn:Hp;
    [discriminate|].
  destruct (get responseData (lit "choices")) as [e|choices] eqn:Hc;
    [discriminate|].
  cbn [bind] in H. apply get_ok_get_opt in Hc.
  destruct (truthy (get_opt (get_opt (get0_opt choices) (lit "message"))
                      (lit "content"))) eqn:Ht; cbn [negb] in H;
    [|discriminate].
  destruct (get_opt (get_opt (get0_opt choices) (lit "message"))
              (lit "content")) as [| | | |text| |] eqn:Econtent;
    try discriminate.
  assert (exists kvs, analysis = JObj kvs) as [kvs ->].
  { destruct (direct_parse_inv _ _ _ H) as [_ Hall].
    destruct (has_true_object (lit "score") analysis)
      as (kvs & _ & -> & _); [apply Hall; simpl; tauto|eauto]. }
  apply direct_object_is_parsed in H.
  unfold analyzeResponse, makeGroqRequest. rewrite Hk, Hr, Hok.
  cbn [negb snd]. rewrite Hp. cbn [bind ok].
  unfold completion_content. rewrite Hc, Econtent, Ht. cbn [negb].
  now rewrite H.
Qed.

Lemma scorers_agree_witness :
  snd (analyzeResponse (lit "What is a closure?") (lit "A function.") []
         (scoring_host percent_score) (initial_world 0))
  = ok (normalize_analysis
          (JObj [(lit "score", JNum (Number.of_int 85));
                 (lit "feedback", JStr (lit "ok"));
                 (lit "coveredTopics", JArr []);
                 (lit "missingTopics", JArr [])])).
Proof.
  exact (proj2 (proj2
           (scorers_agree (lit "What is a closure?") (lit "A function.") []
              (scoring_host percent_score) (initial_world 0)
              (fst (Direct.analyzeResponse (lit "What is a closure?")
                      (lit "A function.") [] (scoring_host percent_score)
                      (initial_world 0)))
              _ ltac:(vm_compute; reflexivity) eq_refl))).
Defined.

(* ------------------------------------------------------------------ *)
(** ** Normalising twice *)

(** A result of the scorer is left as it is by a second pass. *)
Lemma clamp_0_10_fixed (x : number) :
  clamp_0_10 (clamp_0_10 x) = clamp_0_10 x
  /\ Number.lt ten (clamp_0_10 x) = false.
Proof.
  unfold clamp_0_10. fold zero; fold ten.
  destruct (Number.le x zero) eqn:E0; [split; reflexivity|].
  destruct (Number.lt ten x) eqn:E1; [split; reflexivity|].
  now rewrite E0, E1.
Qed.

Lemma normalize_score_idem (score : number) :
  normalize_score (normalize_score score) = normalize_score score.
Proof.
  rewrite (normalize_score_cases (normalize_score score)).
  rewrite (normalize_score_cases score). fold ten.
  destruct (Number.lt ten score);
    match goal with |- context [clamp_0_10 ?y] =>
      destruct (clamp_0_10_fixed y) as [-> ->] end; reflexivity.
Qed.

Lemma assign_same (k : str) (v : jsval) (kvs : list (str * jsval)) :
  lookup k kvs = Some v -> assign k v kvs = kvs.
Proof.
  induction kvs as [|[k' v'] t IH]; [discriminate|].
  cbn [lookup assign]. destruct (str_eqb k k').
  - now intros H; injection H as ->.
  - intros H. now rewrite (IH H).
Qed.

(** An analysis whose score is a normalised number and whose topic lists
    are sequences is left as it is. *)
Lemma normalize_analysis_fixed (kvs : list (str * jsval)) (score : number)
  (covered missing : list jsval) :
  lookup (lit "score") kvs = Some (JNum score) ->
  normalize_score score = score ->
  lookup (lit "coveredTopics") kvs = Some (JArr covered) ->
  lookup (lit "missingTopics") kvs = Some (JArr missing) ->
  normalize_analysis (JObj kvs) = JObj kvs.
Proof.
  intros Hs Hn Hc Hm. unfold normalize_analysis.
  rewrite get_opt_object, Hs, Hn, set_object, (assign_same _ _ _ Hs).
  rewrite get_opt_object, Hc. cbn [isArray negb].
  rewrite get_opt_object, Hm. reflexivity.
Qed.

(** X27. Normalising an analysis is idempotent: what the scorer returns is
    an object that a second normalisation leaves as it is, its score
    included. *)
Theorem normalize_analysis_idempotent (parsed : list (str * jsval)) :
  normalize_analysis (normalize_analysis (JObj parsed))
  = normalize_analysis (JObj parsed)
  /\ forall score, normalize_score (normalize_score score)
                   = normalize_score score.
Proof.
  split; [|apply normalize_score_idem].
  destruct (normalize_analysis_other parsed (lit "feedback"))
    as (kvs & E & _); try reflexivity.
  destruct (normalize_analysis_topics parsed) as [Hc Hm].
  pose proof (normalize_analysis_score parsed) as Hs.
  rewrite E in *.
  assert (exists score, get_opt (JObj kvs) (lit "score") = JNum score
                        /\ normalize_score score = score)
    as (score & Es & Hn).
  { rewrite Hs. destruct (get_opt (JObj parsed) (lit "score"));
      try (exists zero; split; reflexivity; fail).
    eexists; split; [reflexivity|apply normalize_score_idem]. }
  assert (forall x, exists l, (if isArray x then x else JArr []) = JArr l)
    as K by (intros x; destruct x; cbn [isArray]; eauto).
  destruct (K (get_opt (JObj parsed) (lit "coveredTopics"))) as [covered Ec].
  destruct (K (get_opt (JObj parsed) (lit "missingTopics"))) as [missing Em].
  rewrite Ec in Hc. rewrite Em in Hm.
  apply (normalize_analysis_fixed kvs score covered missing); auto;
    apply get_opt_lookup; auto; discriminate.
Qed.

(* ------------------------------------------------------------------ *)
(** ** The interview page and the question route *)

(** What the question route sends with status 200, and what it has
    posted by then. *)
Lemma question_POST_question (body : QuestionBody) (h : Host) (w : World) :
  response_ok (snd (question_POST body h w)) = true ->
  validateQuestionResponse (http_json (snd (question_POST body h w)))
    (or_empty (q_questionType body))
  = ok (http_json (snd (question_POST body h w)))
  /\ exists technology,
       posted (fst (question_POST body h w))
       = generateQuestionPrompt technology
           (toLowerCase (trim (or_empty (q_difficulty body))))
           (q_questionNumber body) (or_empty (q_questionType body))
         :: posted w.
Proof.
  unfold question_POST.
  destruct (blank (q_technology body) || blank (q_difficulty body)
            || blank (q_questionType body)); [discriminate|].
  unfold clean_inputs.
  destruct (decodeURIComponent _) as [e|technology]; cbn [bind ok];
    [discriminate|].
  destruct (generateQuestion technology _ _ _ h w) as [w1 [e|q]] eqn:Eg;
    cbn [bind].
  - destruct (includes (message e) (lit "rate limit")); discriminate.
  - destruct (generateQuestion_posts _ _ _ _ _ _ _ _ Eg) as [_ Hp].
    destruct (generateQuestion_validated _ _ _ _ _ _ _ _ Eg) as [Hv Hm].
    apply missing_fields_lookup in Hm as (kvs & -> & _); [|discriminate].
    intros _. split; [exact Hv|]. now exists technology.
Qed.

(** X28. The question the interview page takes as the current one is,
    as it arrives, a question that has passed the validator for the type
    the page asked for; it has a truthy [question] (a text that is not
    empty, when it is a text), and was obtained from one prompt, which
    showed the model the tier 3. *)
Theorem generateNextQuestion_accepts (technology difficulty : option str)
  (types : list str) (currentQuestionNumber : Z) (h : Host) (w w' : World)
  (question : jsval) :
  generateNextQuestion technology difficulty types currentQuestionNumber h w
  = (w', Some (ok question)) ->
  (exists sent,
     question = wire sent
     /\ validateQuestionResponse sent
          (or_empty (questionTypeAt types currentQuestionNumber))
        = ok sent)
  /\ truthy (get_opt question (lit "question")) = true
  /\ exists prompt,
       posted w' = prompt :: posted w
       /\ includes prompt (tq "~difficulty~: 3,") = true.
Proof.
  unfold generateNextQuestion.
  destruct (blank technology || blank difficulty); [discriminate|].
  pose proof (question_POST_question
                (question_request technology difficulty types
                   currentQuestionNumber) h w) as Hv.
  destruct (question_POST _ h w) as [w1 response].
  cbn [fst snd] in Hv.
  destruct (response_ok response); cbn [negb]; [|discriminate].
  destruct (negb (truthy (wire (http_json response))) || _) eqn:Hq;
    [discriminate|].
  intros H; injection H as <- <-.
  apply orb_false_iff in Hq as [_ Hq]. apply negb_false_iff in Hq.
  destruct (Hv eq_refl) as (Hval & tech & Hp).
  split; [now exists (http_json response)|]. split; [exact Hq|].
  eexists. split; [exact Hp|]. apply lowered_prompt_tier_3.
Qed.

Lemma generateNextQuestion_accepts_witness :
  (exists sent,
     JObj subjective_value = wire sent
     /\ validateQuestionResponse sent (lit "subjective") = ok sent)
  /\ truthy (get_opt (JObj subjective_value) (lit "question")) = true
  /\ exists prompt,
       posted
         (fst (generateNextQuestion (Some (lit "JavaScript"))
                 (Some (lit "Medium")) [lit "subjective"] 1
                 (scoring_host subjective_question) (initial_world 0)))
       = prompt :: posted (initial_world 0)
       /\ includes prompt (tq "~difficulty~: 3,") = true.
Proof.
  exact (generateNextQuestion_accepts (Some (lit "JavaScript"))
           (Some (lit "Medium")) [lit "subjective"] 1
           (scoring_host subjective_question) (initial_world 0)
           (fst (generateNextQuestion (Some (lit "JavaScript"))
                   (Some (lit "Medium")) [lit "subjective"] 1
                   (scoring_host subjective_question) (initial_world 0)))
           (JObj subjective_value) ltac:(vm_compute; reflexivity)).
Defined.

(** A difficulty that is a number on the server and not finite reaches
    the page as [null]: the question the page holds would not pass the
    validator that the question the route sent has passed. *)
Example question_on_the_wire :
  let reply :=
    tq "{\~question\~:\~What is a closure?\~,\~expectedTopics\~:[],\~difficulty\~:1e400,\~modelAnswer\~:{\~content\~:\~x\~}}" in
  exists question,
    snd (generateNextQuestion (Some (lit "Go")) (Some (lit "Hard"))
           [lit "subjective"] 1 (scoring_host reply) (initial_world 0))
    = Some (ok question)
    /\ get_opt question (lit "difficulty") = JNull
    /\ is_ok (validateQuestionResponse question (lit "subjective")) = false.
Proof.
  cbv zeta. eexists. split; [vm_compute; reflexivity|].
  split; vm_compute; reflexivity.
Qed.

(** A question whose text is empty passes the validator and the route,
    and is refused by the page; without a technology the page asks for
    nothing. *)
Example generateNextQuestion_refusals :
  let reply :=
    tq "{\~question\~:\~\~,\~expectedTopics\~:[],\~difficulty\~:3,\~modelAnswer\~:{\~content\~:\~x\~}}" in
  http_status
    (snd (question_POST
            (question_request (Some (lit "Go")) (Some (lit "Hard"))
               [lit "subjective"] 1)
            (scoring_host reply) (initial_world 0))) = 200
  /\ snd (generateNextQuestion (Some (lit "Go")) (Some (lit "Hard"))
            [lit "subjective"] 1 (scoring_host reply) (initial_world 0))
     = Some (throw (Error (lit "Invalid question format received")))
  /\ generateNextQuestion None (Some (lit "Hard")) [lit "subjective"] 1
       (scoring_host reply) (initial_world 0)
     = (initial_world 0, None).
Proof. cbv zeta. repeat split; vm_compute; reflexivity. Qed.
